(** * Finite element bases on simplex reference cells

    A shallow embedding of [fe_utils/finite_elements.py]: the equispaced
    node generator [lagrange_points], the generalised Vandermonde matrix
    [vandermonde_matrix], the scalar element [FiniteElement] with
    [tabulate] and [interpolate], [LagrangeElement] and
    [VectorFiniteElement].  The solver of [solvers/helmholtz.py] works on
    meshes, function spaces, quadrature rules and sparse matrices that
    are defined outside these sources, and is not modelled.

    Numbers.  A numpy float is modelled by the exact rational it stands
    for ([Qc], rationals in lowest terms), so rounding is not part of the
    model: what is proved below is what the algorithm computes in exact
    arithmetic, and nothing is said about the size of the rounding error
    of a float64 run.  The one place where the code produces a non-finite float, the
    division by [degree] in [lagrange_points], is modelled with [npfloat],
    which has NaN and the two infinities next to the finite values.

    Arrays.  A rank-1 array is a list, a rank-2 array a list of rows, and
    so on.  An array with no rows is the empty list whatever its other
    extents are.

    Exceptions.  A function that can raise returns a [result].

    Library calls.  [np.linalg.inv] is modelled in exact arithmetic by
    Gauss-Jordan elimination; [np_linalg_inv_ok] and
    [np_linalg_inv_complete] below show that it returns the inverse of a
    square matrix that has one and raises [LinAlgError] otherwise.  The
    float64 routine agrees with it on the shape test and on the kind of
    exception; which nearly singular matrices it rejects is decided by
    its rounded factorisation and is not part of the model.
    [LagrangeElement] is modelled wherever its nodes are finite floats,
    that is, for every degree but 0. *)

From Stdlib Require Import ZArith QArith Qcanon Lia Reals Qreals.
From stdpp Require Import base decidable option list numbers gmap strings.

Local Open Scope Z_scope.

(** ** Exceptions *)

Inductive exn : Type :=
  | IndexError
  | KeyError
  | ValueError
  | AxisError
  | LinAlgError.

(** The class name an exception is reported under. *)
Definition exn_name (e : exn) : string :=
  match e with
  | IndexError => "IndexError"
  | KeyError => "KeyError"
  | ValueError => "ValueError"
  | AxisError => "AxisError"
  | LinAlgError => "LinAlgError"
  end.

Inductive result (A : Type) : Type :=
  | Ok (a : A)
  | Raise (e : exn).
Arguments Ok {A} a.
Arguments Raise {A} e.

Global Instance exn_eq_dec : EqDecision exn.
Proof. solve_decision. Defined.
Global Instance result_eq_dec {A} `{EqDecision A} : EqDecision (result A).
Proof. solve_decision. Defined.

Global Instance result_ret : MRet result := fun A a => Ok a.
Global Instance result_bind : MBind result := fun A B f m =>
  match m with
  | Ok a => f a
  | Raise e => Raise e
  end.
Global Instance result_fmap : FMap result := fun A B f m =>
  match m with
  | Ok a => Ok (f a)
  | Raise e => Raise e
  end.

(** Whether a call returned. *)
Definition is_ok {A} (r : result A) : bool :=
  match r with
  | Ok _ => true
  | Raise _ => false
  end.

(** [l[i]] on a Python list or along the first axis of an array. *)
Definition getitem {A} (l : list A) (i : nat) : result A :=
  match l !! i with
  | Some a => Ok a
  | None => Raise IndexError
  end.

(** [l[-1]]. *)
Definition getlast {A} (l : list A) : result A :=
  match last l with
  | Some a => Ok a
  | None => Raise IndexError
  end.

(** ** numpy floats as produced by a division *)

Inductive npfloat : Type :=
  | Fin (q : Qc)
  | NaN
  | PInf
  | NInf.

(** [a / b] of two integers under [from __future__ import division] and
    [np.seterr(invalid='ignore', divide='ignore')]: no exception and no
    warning; [0/0] is NaN and [a/0] is an infinity with the sign of [a]. *)
Definition true_divide (a b : Z) : npfloat :=
  if decide (b = 0) then
    if decide (a = 0) then NaN
    else if decide (0 < a) then PInf else NInf
  else Fin (Qc_of_Z a / Qc_of_Z b)%Qc.

(** ** Python helpers *)

(** [range(n)]. *)
Definition py_range (n : Z) : list Z := Z.of_nat <$> seq 0 (Z.to_nat n).

(** [itertools.product(l, repeat=n)]: all tuples of length [n] over [l],
    the last position varying fastest. *)
Fixpoint product {A} (l : list A) (repeat : nat) : list (list A) :=
  match repeat with
  | O => [[]]
  | S n => x ← l; (x ::.) <$> product l n
  end.

(** [sum(i)] of a tuple of integers. *)
Definition py_sum (i : list Z) : Z := foldr Z.add 0 i.

(** ** Reference cells

    The cell classes live in [reference_elements.py], outside these
    sources; the element code reads three attributes of a cell, which are
    the fields of this record. *)

Record ReferenceCell : Type := {
  dim : nat;
  entity_counts : list nat;
  point_in_entity : list Qc -> nat * nat -> bool
}.

(** ** lagrange_points *)

Definition lagrange_points (cell : ReferenceCell) (degree : Z)
  : list (list npfloat) :=
  fold_left
    (fun equi_lag_points i =>
       if decide (py_sum i <= degree)
       then equi_lag_points ++ [(fun c => true_divide c degree) <$> reverse i]
       else equi_lag_points)
    (product (py_range (degree + 1)) (dim cell))
    [].

(** ** Arrays of finite floats *)

Abbreviation vector := (list Qc).
Abbreviation matrix := (list (list Qc)).
Abbreviation tensor3 := (list (list (list Qc))).
Abbreviation tensor4 := (list (list (list (list Qc)))).

Local Open Scope Qc_scope.

(** A [for] loop whose body may raise. *)
Fixpoint for_loop {A S} (l : list A) (body : S -> A -> result S) (s : S)
  : result S :=
  match l with
  | [] => Ok s
  | a :: l' => s' ← body s a; for_loop l' body s'
  end.

(** A list comprehension whose element expression may raise. *)
Fixpoint comprehension {A B} (f : A -> result B) (l : list A)
  : result (list B) :=
  match l with
  | [] => Ok []
  | a :: l' => b ← f a; bs ← comprehension f l'; Ok (b :: bs)
  end.

(** [points[:, None, 0]]: the first coordinate of every point, as an array
    of shape (points, 1). *)
Definition first_coordinate (points : matrix) : result matrix :=
  comprehension (fun p => x ← getitem p 0; Ok [x]) points.

(** [points[:, None, -1]]: the last coordinate of every point. *)
Definition last_coordinate (points : matrix) : result matrix :=
  comprehension (fun p => x ← getlast p; Ok [x]) points.

(** [a ** e] for an integer exponent that is never negative here. *)
Definition np_power (a : matrix) (e : Z) : matrix :=
  fmap (M := list) (fun x => Qcpower x (Z.to_nat e)) <$> a.

(** [np.multiply(a, b)] on arrays of one shape. *)
Definition np_multiply (a b : matrix) : matrix :=
  zip_with (zip_with Qcmult) a b.

(** [c * a] for a Python integer [c]. *)
Definition np_scale (c : Z) (a : matrix) : matrix :=
  fmap (M := list) (Qcmult (Qc_of_Z c)) <$> a.

(** [np.hstack(arrays)] for rank-2 arrays: [ValueError] on an empty
    sequence and when the numbers of rows differ. *)
Definition hstack (arrays : list matrix) : result matrix :=
  match arrays with
  | [] => Raise ValueError
  | a :: rest =>
      if bool_decide (Forall (fun b => length b = length a) rest)
      then Ok (foldl (zip_with app) a rest)
      else Raise ValueError
  end.

(** Exchange of the two outer axes of a rectangular nested list. *)
Fixpoint transpose {A} (m : list (list A)) : list (list A) :=
  match m with
  | [] => []
  | [r] => (fun x => [x]) <$> r
  | r :: rest => zip_with cons r (transpose rest)
  end.

(** [np.swapaxes(matrix, 0, 1)] on a Python list of equally shaped arrays:
    an empty list is a rank-1 array and has no axis 1. *)
Definition swapaxes01 {A} (m : list (list A)) : result (list (list A)) :=
  match m with
  | [] => Raise AxisError
  | _ => Ok (transpose m)
  end.

(** ** vandermonde_matrix *)

(** The rank of the result depends on [grad]. *)
Definition vandermonde_result (grad : bool) : Type :=
  if grad then tensor3 else matrix.

(** The inner function [column(i, idx, j)], which closes over [points] and
    [grad]; [grad] is used as the integer 0 or 1. *)
Definition column (points : matrix) (grad : bool) (i idx j : Z)
  : result matrix :=
  let exp_1 := Z.max (i - j - Z.b2z grad * (1 - idx)) 0%Z in
  let exp_2 := Z.max (j - Z.b2z grad * idx) 0%Z in
  xs ← first_coordinate points;
  ys ← last_coordinate points;
  Ok (np_multiply (np_power xs exp_1) (np_power ys exp_2)).

Definition vandermonde_matrix (cell : ReferenceCell) (degree : Z)
    (points : matrix) (grad : bool) : result (vandermonde_result grad) :=
  match grad return result (vandermonde_result grad) with
  | true =>
      matrix ← for_loop (py_range (degree + 1)) (fun matrix i =>
        new ← comprehension (fun j =>
                 cols ← comprehension (fun k =>
                          c ← column points true i k j;
                          Ok (np_scale ((i - j) * (1 - k) + j * k) c))
                        (py_range (Z.of_nat (dim cell)));
                 hstack cols)
               (py_range ((Z.of_nat (dim cell) - 1) * i + 1));
        Ok (matrix ++ new)) [];
      swapaxes01 matrix
  | false =>
      matrix ← for_loop (py_range (degree + 1)) (fun matrix i =>
        new ← comprehension (fun j => column points false i 0 j)
               (py_range ((Z.of_nat (dim cell) - 1) * i + 1));
        Ok (matrix ++ new)) [];
      hstack matrix
  end.

(** ** Linear algebra *)

Definition dot (u v : vector) : Qc := foldr Qcplus 0 (zip_with Qcmult u v).

(** [a @ x] for a rank-1 [x]. *)
Definition matvec (a : matrix) (x : vector) : vector := (fun r => dot r x) <$> a.

(** Column [j] of [b], and the extent of the second axis of [b]. *)
Definition col (j : nat) (b : matrix) : vector := (fun r => nth j r 0) <$> b.
Definition ncols {A} (b : list (list A)) : nat := length (hd [] b).

(** A row vector times a matrix: entry [j] is the sum over [k] of
    [r[k] * b[k][j]]. *)
Definition vecmat (r : vector) (b : matrix) : vector :=
  (fun j => dot r (col j b)) <$> seq 0 (ncols b).

(** The entries of [a @ b]: entry [(i, j)] is the sum over [k] of
    [a[i][k] * b[k][j]]. *)
Definition matmul (a b : matrix) : matrix := (fun r => vecmat r b) <$> a.

(** [a @ b] with numpy's shape check. *)
Definition np_matmul (a b : matrix) : result matrix :=
  if bool_decide (Forall (fun r => length r = length b) a)
  then Ok (matmul a b)
  else Raise ValueError.

Definition identity (n : nat) : matrix :=
  (fun i => (fun j => if decide (i = j) then 1 else 0) <$> seq 0 n) <$> seq 0 n.

(** A square matrix with a two-sided inverse. *)
Definition invertible (a : matrix) : Prop :=
  length a ≠ 0%nat
  ∧ Forall (fun r => length r = length a) a
  ∧ ∃ w, matmul a w = identity (length a) ∧ matmul w a = identity (length a).

(** Gauss-Jordan elimination on the rows of an augmented matrix.  [done]
    holds the rows that already carry a pivot, in pivot order; [todo] the
    others. *)
Definition row_sub (c : nat) (pr r : vector) : vector :=
  zip_with (fun x p => x - nth c r 0 * p) r pr.

Fixpoint find_pivot (c : nat) (todo : matrix) : option (vector * matrix) :=
  match todo with
  | [] => None
  | r :: rest =>
      if decide (nth c r 0 = 0)
      then '(p, others) ← find_pivot c rest; Some (p, r :: others)
      else Some (r, rest)
  end.

Fixpoint gauss_jordan (columns : list nat) (done todo : matrix)
  : option matrix :=
  match columns with
  | [] => Some done
  | c :: columns' =>
      '(p, others) ← find_pivot c todo;
      let pr := (fun x => x / nth c p 0) <$> p in
      gauss_jordan columns' ((row_sub c pr <$> done) ++ [pr])
                   (row_sub c pr <$> others)
  end.

(** [np.linalg.inv(a)] in exact arithmetic: numpy raises [LinAlgError]
    for an array that is not square and for a matrix its factorisation
    finds singular, and returns the inverse otherwise.  The inverse is
    computed by elimination on [a] with the identity written next to it.
    In exact arithmetic the matrices found singular are those without an
    inverse; a float64 factorisation can miss a zero pivot through
    rounding, or meet one through underflow. *)
Definition np_linalg_inv (a : matrix) : result matrix :=
  let n := length a in
  if bool_decide (n ≠ 0%nat ∧ Forall (fun r => length r = n) a) then
    match gauss_jordan (seq 0 n) [] (zip_with app a (identity n)) with
    | Some m => Ok (drop n <$> m)
    | None => Raise LinAlgError
    end
  else Raise LinAlgError.

(** A set of rows that elimination keeps: closed under the two row
    operations. *)
Record row_closed (Φ : vector → Prop) : Prop := {
  closed_scale : ∀ c u, Φ u → Φ ((fun x => x / c) <$> u);
  closed_sub : ∀ f u π, length u = length π → Φ u → Φ π →
                 Φ (zip_with (fun x p => x - f * p) u π)
}.

(** The rows that carry a pivot are unit vectors on the columns done, and
    the other rows are zero there. *)
Definition pivoted (k : nat) (done todo : matrix) : Prop :=
  (∀ i ρ j, done !! i = Some ρ → (j < k)%nat →
            nth j ρ 0 = if decide (i = j) then 1 else 0)
  ∧ Forall (fun ρ => ∀ j, (j < k)%nat → nth j ρ 0 = 0) todo.

(** [np.einsum("ijk,jl->ilk", t, c)]: entry [(i, l, k)] is the sum over
    [j] of [t[i][j][k] * c[j][l]]; [ValueError] when the two extents of
    [j] differ. *)
Definition einsum_ijk_jl_ilk (t : tensor3) (c : matrix) : result tensor3 :=
  if bool_decide (Forall (fun ti => length ti = length c) t)
  then Ok ((fun ti =>
              (fun l => (fun k => dot (col k ti) (col l c))
                          <$> seq 0 (ncols (hd [] t)))
                <$> seq 0 (ncols c)) <$> t)
  else Raise ValueError.

(** [d[k]] on a dict. *)
Definition getkey {V} (d : gmap nat V) (k : nat) : result V :=
  match d !! k with
  | Some v => Ok v
  | None => Raise KeyError
  end.

(** ** FiniteElement *)

Module FiniteElement.

Record t : Type := mk {
  cell : ReferenceCell;
  degree : Z;
  nodes : matrix;
  entity_nodes : option (gmap nat (gmap nat (list nat)));
  (** set only when [entity_nodes] is truthy *)
  nodes_per_entity : option (list nat);
  basis_coefs : matrix;
  node_count : nat
}.

Definition __init__ (cell : ReferenceCell) (degree : Z) (nodes : matrix)
    (entity_nodes : option (gmap nat (gmap nat (list nat)))) : result t :=
  nodes_per_entity ←
    match entity_nodes with
    | Some en =>
        if decide (en = ∅) then Ok None
        else Some <$> comprehension
                        (fun d => m ← getkey en d; l ← getkey m 0%nat;
                                  Ok (length l))
                        (seq 0 (dim cell + 1))
    | None => Ok None
    end;
  V ← vandermonde_matrix cell degree nodes false;
  basis_coefs ← np_linalg_inv V;
  Ok (mk cell degree nodes entity_nodes nodes_per_entity basis_coefs
         (length nodes)).

Definition tabulate (self : t) (points : matrix) (grad : bool)
  : result (vandermonde_result grad) :=
  match grad return result (vandermonde_result grad) with
  | true =>
      T ← vandermonde_matrix (cell self) (degree self) points true;
      einsum_ijk_jl_ilk T (basis_coefs self)
  | false =>
      V ← vandermonde_matrix (cell self) (degree self) points false;
      np_matmul V (basis_coefs self)
  end.

Definition interpolate (self : t) (fn : vector -> Qc) : vector :=
  fn <$> nodes self.

End FiniteElement.

(** ** VectorFiniteElement *)

Module VectorFiniteElement.

Record t : Type := mk {
  finite_element : FiniteElement.t;
  nodes : matrix;
  entity_nodes : gmap nat (gmap nat (list nat));
  nodes_per_entity : list nat;
  node_weights : list (list Z);
  node_count : nat
}.

Definition cell (self : t) : ReferenceCell :=
  FiniteElement.cell (finite_element self).
Definition degree (self : t) : Z :=
  FiniteElement.degree (finite_element self).

(** The entities [(d, i)] in the order the two nested loops of
    [add_entity_node] visit them. *)
Definition entities (c : ReferenceCell) : list (nat * nat) :=
  d ← seq 0 (dim c + 1);
  i ← seq 0 (default 0%nat (entity_counts c !! d));
  [(d, i)].

(** The first entity that contains the node gets the two indices; a
    node in no entity is skipped. *)
Definition add_entity_node (c : ReferenceCell)
    (entity_nodes : gmap nat (gmap nat (list nat)))
    (n_idx : nat) (n : vector) : gmap nat (gmap nat (list nat)) :=
  match find (point_in_entity c n) (entities c) with
  | Some (d, i) =>
      alter (alter (fun l => l ++ [2 * n_idx; 2 * n_idx + 1]%nat) i) d
            entity_nodes
  | None => entity_nodes
  end.

Definition __init__ (fe : FiniteElement.t) : result t :=
  let c := FiniteElement.cell fe in
  (* np.vstack of one np.tile per node; vstack refuses an empty list *)
  nodes ← (if decide (FiniteElement.nodes fe = []) then Raise ValueError
           else Ok (n ← FiniteElement.nodes fe; replicate (dim c) n));
  entity_nodes ← for_loop (seq 0 (dim c + 1)) (fun en d =>
                    count ← getitem (entity_counts c) d;
                    Ok (<[d := list_to_map ((fun i => (i, [])) <$> seq 0 count)]> en))
                  ∅;
  let entity_nodes :=
    foldl (fun en '(n_idx, n) => add_entity_node c en n_idx n)
          entity_nodes (imap pair (FiniteElement.nodes fe)) in
  nodes_per_entity ← comprehension
                       (fun d => m ← getkey entity_nodes d;
                                 l ← getkey m 0%nat; Ok (length l))
                       (seq 0 (dim c + 1));
  let node_weights :=
    (fun i => [(i + 1) mod 2; i mod 2]%Z)
      <$> py_range (Z.of_nat (length nodes)) in
  Ok (mk fe nodes entity_nodes nodes_per_entity node_weights (length nodes)).

(** The rank of a tabulation: one axis more than the scalar one. *)
Definition tabulate_result (grad : bool) : Type :=
  if grad then tensor4 else tensor3.

(** [np.einsum("i, j-> ij", a, e)] and [np.einsum("ik, j-> ikj", a, e)]
    for an integer array [e]. *)
Definition einsum_i_j (a : vector) (e : list Z) : matrix :=
  (fun x : Qc => (fun ej => x * Qc_of_Z ej) <$> e) <$> a.
Definition einsum_ik_j (a : matrix) (e : list Z) : tensor3 :=
  (fun r : vector => (fun x : Qc => (fun ej => x * Qc_of_Z ej) <$> e) <$> r)
    <$> a.

(** The loop of [tabulate] for either rank: [phi[:, i // 2]] is read,
    combined with [e], and stored with [vphi[:, i] = ...]. *)
Definition fill {X Y} (einsum : list X -> list Z -> list Y)
    (phi : list (list X)) (vphi : list (list Y)) : result (list (list Y)) :=
  for_loop (py_range (Z.of_nat (ncols vphi))) (fun vphi i =>
    let e := [(i + 1) mod 2; i mod 2]%Z in
    a ← comprehension (fun r => getitem r (Z.to_nat (i / 2))) phi;
    Ok (zip_with (fun r x => <[Z.to_nat i := x]> r) vphi (einsum a e)))
  vphi.

Definition tabulate (self : t) (points : matrix) (grad : bool)
  : result (tabulate_result grad) :=
  match grad return result (tabulate_result grad) with
  | true =>
      phi ← FiniteElement.tabulate (finite_element self) points true;
      (* raw_shape = [len(phi), ncols phi * dim, ncols (phi[0])] *)
      let vphi : tensor4 :=
        replicate (length phi)
          (replicate (ncols phi * dim (cell self))
             (replicate (ncols (hd [] phi)) (replicate 2 0))) in
      fill einsum_ik_j phi vphi
  | false =>
      phi ← FiniteElement.tabulate (finite_element self) points false;
      let vphi : tensor3 :=
        replicate (length phi)
          (replicate (ncols phi * dim (cell self)) (replicate 2 0)) in
      fill einsum_i_j phi vphi
  end.

End VectorFiniteElement.

(** ** The two reference cells *)

(** Modelled from the spec: [reference_elements.py] is not among the
    sources.  The reference interval is [0, 1] with its two end points as
    vertices 0 and 1; an entity is given as (dimension, index) and
    [point_in_entity] is geometric containment. *)
Definition ReferenceInterval : ReferenceCell := {|
  dim := 1;
  entity_counts := [2; 1]%nat;
  point_in_entity := fun x e =>
    let x0 := nth 0 x 0 in
    match e with
    | (0, 0)%nat => bool_decide (x0 = 0)
    | (0, 1)%nat => bool_decide (x0 = 1)
    | (1, 0)%nat => bool_decide (0 <= x0 ∧ x0 <= 1)
    | _ => false
    end
|}.

(** Modelled from the spec: the reference triangle has the vertices
    (0,0), (1,0) and (0,1); edge [i] is taken to be the one opposite
    vertex [i]. *)
Definition ReferenceTriangle : ReferenceCell := {|
  dim := 2;
  entity_counts := [3; 3; 1]%nat;
  point_in_entity := fun x e =>
    let x0 := nth 0 x 0 in
    let x1 := nth 1 x 0 in
    let inside := bool_decide (0 <= x0 ∧ 0 <= x1 ∧ x0 + x1 <= 1) in
    match e with
    | (0, 0)%nat => bool_decide (x0 = 0 ∧ x1 = 0)
    | (0, 1)%nat => bool_decide (x0 = 1 ∧ x1 = 0)
    | (0, 2)%nat => bool_decide (x0 = 0 ∧ x1 = 1)
    | (1, 0)%nat => inside && bool_decide (x0 + x1 = 1)
    | (1, 1)%nat => inside && bool_decide (x0 = 0)
    | (1, 2)%nat => inside && bool_decide (x1 = 0)
    | (2, 0)%nat => inside
    | _ => false
    end
|}.

(** ** What the specification expects of the node generator *)

(** The number of nodes the specification asks for: [d + 1] on a cell of
    dimension 1 and [(d + 1)(d + 2) / 2] on one of dimension 2. *)
Definition expected_count (cell_dim : nat) (d : Z) : Z :=
  match cell_dim with
  | 1%nat => d + 1
  | 2%nat => (d + 1) * (d + 2) / 2
  | _ => 0
  end%Z.

(** A node of the closed reference simplex: finite coordinates, each
    between 0 and 1, that sum to at most 1. *)
Definition in_reference_simplex (node : list npfloat) : Prop :=
  ∃ xs : vector,
    node = Fin <$> xs ∧ Forall (fun x => 0 <= x ∧ x <= 1) xs
    ∧ foldr Qcplus 0 xs <= 1.

(** ** What the specification expects of the Vandermonde matrix *)

(** The two coordinates the code reads off a point: the first and the
    last one (the same number on an interval). *)
Definition xcoord (p : vector) : Qc := nth 0 p 0.
Definition ycoord (p : vector) : Qc := List.last p 0.

(** The monomial basis in the order of the specification, each monomial
    [x^a y^b] given by its exponents [(a, b)]: in dimension 1 the powers
    [x^j] for [j] from 0 to the degree; in dimension 2, for each total
    degree [i] from 0 to the degree, the monomials [x^(i-j) y^j] for [j]
    from 0 to [i]. *)
Definition monomial_basis (cell_dim : nat) (degree : nat) : list (nat * nat) :=
  match cell_dim with
  | 1%nat => (fun j => (j, 0%nat)) <$> seq 0 (S degree)
  | 2%nat => i ← seq 0 (S degree); (fun j => ((i - j)%nat, j)) <$> seq 0 (S i)
  | _ => []
  end.

Definition eval_monomial (e : nat * nat) (p : vector) : Qc :=
  xcoord p ^ e.1 * ycoord p ^ e.2.

(** The power rule: the derivative of [t^n] is [n t^(n-1)], and that of
    [t^0] is 0. *)
Definition power_rule (n : nat) (t : Qc) : Qc :=
  match n with
  | O => 0
  | S m => Qc_of_Z (Z.of_nat n) * t ^ m
  end.

(** The partial derivatives of the monomial [x^a y^b]. *)
Definition dx_monomial (e : nat * nat) (p : vector) : Qc :=
  power_rule e.1 (xcoord p) * ycoord p ^ e.2.
Definition dy_monomial (e : nat * nat) (p : vector) : Qc :=
  xcoord p ^ e.1 * power_rule e.2 (ycoord p).

(** The gradient of a monomial on a cell of the given dimension: one
    partial derivative per coordinate direction. *)
Definition grad_monomial (cell_dim : nat) (e : nat * nat) (p : vector)
  : vector :=
  match cell_dim with
  | 1%nat => [dx_monomial e p]
  | 2%nat => [dx_monomial e p; dy_monomial e p]
  | _ => []
  end.

(** The exponent pairs in the order in which the two loops of
    [vandermonde_matrix] visit them: [i] over [range(degree + 1)] and [j]
    over [range((dim - 1) * i + 1)] give [x^(i-j) y^j]. *)
Definition loop_exponents (cell_dim : nat) (degree : nat) : list (nat * nat) :=
  i ← seq 0 (S degree);
  (fun j => ((i - j)%nat, j)) <$> seq 0 ((cell_dim - 1) * i + 1).

(** The real number a finite float stands for, and the monomial
    [x^a y^b] as a function of two real variables. *)
Definition Qc2R (q : Qc) : R := Q2R (this q).
Definition monomial_R (e : nat * nat) (x y : R) : R := (x ^ e.1 * y ^ e.2)%R.

(** One entry of the gradient form as the code computes it, for the loop
    indices [i], [j] and the direction [k]: the coefficient times the
    column with [grad] set. *)
Definition entry (i j k : Z) (p : vector) : Qc :=
  Qc_of_Z ((i - j) * (1 - k) + j * k)
  * (xcoord p ^ Z.to_nat (Z.max (i - j - 1 * (1 - k)) 0)
     * ycoord p ^ Z.to_nat (Z.max (j - 1 * k) 0)).

(** ** What the specification expects of the vector element *)

(** Basis function [k] of the vector element belongs to the scalar basis
    function [k // dim] and to the component [k % dim]: a value [x] of the
    scalar function shows in that component and nowhere else. *)
Definition component_value (cell_dim k comp : nat) (x : Qc) : Qc :=
  if decide (comp = (k mod cell_dim)%nat) then x else 0.

(** The value tabulation the specification describes, for one point:
    [dim * nodes] basis functions with [dim] components each. *)
Definition vector_values (cell_dim : nat) (phi : vector) : matrix :=
  (fun k => (fun comp => component_value cell_dim k comp
                           (nth (k / cell_dim)%nat phi 0))
              <$> seq 0 cell_dim)
    <$> seq 0 (length phi * cell_dim)%nat.

(** The gradient tabulation the specification describes, for one point:
    the block of basis function [k] has one row per component, the row
    of the component [k % dim] is the scalar gradient and the other rows
    are zero. *)
Definition vector_gradients_by_component (cell_dim : nat) (grad_phi : matrix)
  : tensor3 :=
  (fun k => (fun comp => if decide (comp = (k mod cell_dim)%nat)
                         then nth (k / cell_dim)%nat grad_phi []
                         else replicate cell_dim 0)
              <$> seq 0 cell_dim)
    <$> seq 0 (length grad_phi * cell_dim)%nat.

(** The gradient tabulation with the two last axes the other way round:
    the block of basis function [k] has one row per gradient direction,
    and the derivative in that direction stands in the column of the
    component [k % 2]. *)
Definition vector_gradients_by_direction (grad_phi : matrix) : tensor3 :=
  (fun k => (fun dg => (fun comp => component_value 2 k comp dg) <$> seq 0 2)
              <$> nth (k / 2)%nat grad_phi [])
    <$> seq 0 (length grad_phi * 2)%nat.

(** ** Node sets used in the examples *)

(** The equispaced nodes of degree 1 and 2 on the interval and of degree
    1 and 2 on the triangle, in the order of [lagrange_points]. *)
Definition interval_P1_nodes : matrix := [[0]; [1]].
Definition interval_P2_nodes : matrix := [[0]; [Qc_of_Z 1 / Qc_of_Z 2]; [1]].
Definition triangle_P1_nodes : matrix := [[0; 0]; [1; 0]; [0; 1]].
Definition triangle_P2_nodes : matrix :=
  let h := Qc_of_Z 1 / Qc_of_Z 2 in
  [[0; 0]; [h; 0]; [1; 0]; [0; h]; [h; h]; [0; 1]].

(** The polynomial [x^2] on the interval, by its coefficients in the
    monomial basis of degree 2. *)
Definition square (p : vector) : Qc :=
  dot ((fun e => eval_monomial e p) <$> monomial_basis 1 2) [0; 0; 1].

(** ** LagrangeElement *)

Module LagrangeElement.

(** The finite float a coordinate holds, if it is one. *)
Definition finite (x : npfloat) : option Qc :=
  match x with
  | Fin q => Some q
  | _ => None
  end.

(** An array of floats as an array of finite floats, if all are. *)
Definition finite_array (a : list (list npfloat)) : option matrix :=
  mapM (mapM finite) a.

(** An array of finite floats as an array of floats. *)
Definition floats (nodes : matrix) : list (list npfloat) :=
  fmap (M := list) Fin <$> nodes.

(** The first entity that contains the node gets its index; a node in no
    entity is skipped. *)
Definition add_entity_node (c : ReferenceCell)
    (entity_nodes : gmap nat (gmap nat (list nat)))
    (n_idx : nat) (n : vector) : gmap nat (gmap nat (list nat)) :=
  match find (point_in_entity c n) (VectorFiniteElement.entities c) with
  | Some (d, i) => alter (alter (fun l => l ++ [n_idx]) i) d entity_nodes
  | None => entity_nodes
  end.

(** The result is [None] where the node array holds a float that is not
    finite (degree 0): the element's [nodes] cannot hold it, and what the
    cell's [point_in_entity] answers on it is not part of the model. *)
Definition __init__ (cell : ReferenceCell) (degree : Z)
  : option (result FiniteElement.t) :=
  nodes ← finite_array (lagrange_points cell degree);
  Some (
    entity_nodes ← for_loop (seq 0 (dim cell + 1)) (fun en d =>
                      count ← getitem (entity_counts cell) d;
                      Ok (<[d := list_to_map ((fun i => (i, [])) <$> seq 0 count)]> en))
                    ∅;
    let entity_nodes :=
      foldl (fun en '(n_idx, n) => add_entity_node cell en n_idx n)
            entity_nodes (imap pair nodes) in
    FiniteElement.__init__ cell degree nodes (Some entity_nodes)).

End LagrangeElement.

(** ** Classification of nodes by entity *)

(** The entity a node is filed under by the two loops of
    [add_entity_node]: the first one, by dimension and then by index,
    that contains it. *)
Definition first_entity (c : ReferenceCell) (n : vector) : option (nat * nat) :=
  find (point_in_entity c n) (VectorFiniteElement.entities c).

(** The indices of the nodes filed under the entity [e], in increasing
    order. *)
Definition entity_members (c : ReferenceCell) (nodes : matrix) (e : nat * nat)
  : list nat :=
  fst <$> filter (fun kn => first_entity c kn.2 = Some e) (imap pair nodes).

(** The entry [entity_nodes[d][i]] of a dict of dicts, if there is one. *)
Definition entity_list (en : gmap nat (gmap nat (list nat))) (e : nat * nat)
  : option (list nat) :=
  m ← en !! e.1; m !! e.2.

(** ** Polynomials in one variable

    Used to show that the equispaced nodes determine a polynomial of the
    element's space. *)

(** The value at [x] of the polynomial with the coefficients [cs], the
    constant one first. *)
Definition horner (cs : vector) (x : Qc) : Qc :=
  foldr (fun c acc => c + x * acc) 0 cs.

(** The quotient of the division of that polynomial by [x - a]; the
    remainder is its value at [a]. *)
Fixpoint quotient (a : Qc) (cs : vector) : vector :=
  match cs with
  | [] => []
  | _ :: cs' =>
      match cs' with
      | [] => []
      | _ :: _ => horner cs' a :: quotient a cs'
      end
  end.

(** The sum of [f k] over [k < n]. *)
Fixpoint sumf (f : nat -> Qc) (n : nat) : Qc :=
  match n with
  | O => 0
  | S m => sumf f m + f m
  end.

(** The number of monomials in two variables of a total degree less than
    [i]: the place of [x^i] in [monomial_basis 2]. *)
Fixpoint tri (i : nat) : nat :=
  match i with
  | O => O
  | S i' => (tri i' + S i')%nat
  end.

(** The nodes of [lagrange_points] for a degree other than 0, where they
    are finite. *)
Definition lattice_nodes (cell : ReferenceCell) (degree : Z) : matrix :=
  (fun i => (fun c => Qc_of_Z c / Qc_of_Z degree) <$> reverse i)
    <$> filter (fun i => (py_sum i <= degree)%Z)
          (product (py_range (degree + 1)) (dim cell)).

(** The polynomial with the coefficients [cs], times [x - a]. *)
Definition times_linear (a : Qc) (cs : vector) : vector :=
  zip_with Qcplus (0 :: cs) (((fun c => - a * c) <$> cs) ++ [0]).

(** The coefficients of the product of [x - y] over the entries [y] of
    [ys]. *)
Definition linear_factors (ys : vector) : vector :=
  foldr times_linear [1] ys.

(** The numerator of the Lagrange polynomial of the node [k] among the
    nodes [xs], at [x]: the product of [x - xs[m]] over the indices [m]
    other than [k]. *)
Definition lagrange_numerator (xs : vector) (k : nat) (x : Qc) : Qc :=
  foldr (fun y acc => (x - y) * acc) 1 (delete k xs).

(** * Properties of the node generator *)

Section lagrange_points_facts.

Local Open Scope Z_scope.

(** The loop of [lagrange_points] keeps the tuples whose sum is at most
    [degree], in order, and divides each reversed tuple by [degree]. *)
Lemma lagrange_points_unfold cell degree :
  lagrange_points cell degree
  = (fun i => (fun c => true_divide c degree) <$> reverse i)
      <$> filter (fun i => py_sum i <= degree)
            (product (py_range (degree + 1)) (dim cell)).
Proof.
  unfold lagrange_points.
  generalize (product (py_range (degree + 1)) (dim cell)). intros l.
  set (f := fun (acc : list (list npfloat)) (i : list Z) => _).
  set (g := fun i : list Z => _).
  enough (∀ acc, fold_left f l acc = acc ++ (g <$> filter (fun i => py_sum i <= degree) l))
    as H by apply (H []).
  induction l as [|i l IH]; intros acc; simpl.
  - by rewrite app_nil_r.
  - rewrite IH, filter_cons. unfold f at 1. case_decide; [|done].
    by rewrite fmap_cons, <- app_assoc.
Qed.

Lemma py_range_of_nat (n : nat) : py_range (Z.of_nat n) = Z.of_nat <$> seq 0 n.
Proof. unfold py_range. by rewrite Nat2Z.id. Qed.

Lemma py_range_neg n : n <= 0 → py_range n = [].
Proof.
  intros Hn. unfold py_range.
  replace (Z.to_nat n) with 0%nat by lia. done.
Qed.

Lemma elem_of_py_range x n : x ∈ py_range n ↔ 0 <= x < n.
Proof.
  unfold py_range. rewrite list_elem_of_fmap. split.
  - intros (k & -> & Hk). apply elem_of_seq in Hk. lia.
  - intros Hx. exists (Z.to_nat x). split; [lia|].
    apply elem_of_seq. lia.
Qed.

Lemma elem_of_product {A} (l : list A) n (t : list A) :
  t ∈ product l n ↔ length t = n ∧ Forall (fun x => x ∈ l) t.
Proof.
  revert t. induction n as [|n IH]; intros t; simpl.
  - rewrite list_elem_of_singleton. split.
    + intros ->. by split.
    + intros [Hlen _]. by destruct t.
  - rewrite list_elem_of_bind. split.
    + intros (x & Ht & Hx). apply list_elem_of_fmap in Ht as (t' & -> & Ht').
      apply IH in Ht' as [<- Hall]. split; [done|]. by constructor.
    + intros [Hlen Hall]. destruct t as [|x t]; [done|].
      inversion Hall; subst. exists x. split; [|done].
      apply list_elem_of_fmap. exists t. split; [done|].
      apply IH. split; [|done]. simpl in Hlen. lia.
Qed.

(** How many of the first [k] naturals are at most [m]. *)
Lemma count_le_seq (k : nat) (m : Z) :
  0 <= m →
  length (filter (fun y => y <= m) (Z.of_nat <$> seq 0 k))
  = Nat.min k (Z.to_nat m + 1).
Proof.
  intros Hm. induction k as [|k IH]; [done|].
  rewrite seq_S, fmap_app, filter_app, length_app, IH.
  cbn [fmap list_fmap]. rewrite filter_cons, filter_nil.
  case_decide; cbn [length]; lia.
Qed.

Lemma length_filter_bind {A B} (P : B → Prop) `{!∀ x, Decision (P x)}
    (f : A → list B) (l : list A) :
  length (filter P (l ≫= f))
  = sum_list ((fun x => length (filter P (f x))) <$> l).
Proof.
  induction l as [|x l IH]; [done|].
  rewrite bind_cons, filter_app, length_app, IH. done.
Qed.

Lemma filter_fmap_cons (x d : Z) (l : list (list Z)) :
  filter (fun i => py_sum i <= d) ((x ::.) <$> l)
  = (x ::.) <$> filter (fun i => py_sum i <= d - x) l.
Proof.
  induction l as [|t l IH]; [done|].
  rewrite !fmap_cons, !filter_cons, IH. simpl.
  repeat case_decide; try done; lia.
Qed.

Lemma product_1 {A} (l : list A) : product l 1 = (fun x => [x]) <$> l.
Proof.
  simpl. induction l as [|x l IH]; [done|].
  rewrite bind_cons, IH. done.
Qed.

Lemma count_dim1 (l : list Z) (m : Z) :
  length (filter (fun i => py_sum i <= m) (product l 1))
  = length (filter (fun y => y <= m) l).
Proof.
  rewrite product_1. induction l as [|x l IH]; [done|].
  rewrite fmap_cons, !filter_cons. simpl.
  repeat case_decide; simpl; try lia.
Qed.

(** The triangular sum: the tuples [(x, y)] with [x + y <= n]. *)
Lemma triangle_sum (n k : nat) :
  (k <= S n)%nat →
  (2 * Z.of_nat (sum_list ((fun x => Nat.min (S n) (n - x + 1)) <$> seq 0 k))
   = Z.of_nat k * (2 * Z.of_nat n + 3 - Z.of_nat k)).
Proof.
  induction k as [|k IH]; intros Hk; [done|].
  rewrite seq_S, fmap_app, sum_list_with_app.
  cbn [fmap list_fmap sum_list_with].
  rewrite Nat2Z.inj_add, Z.mul_add_distr_l, IH by lia.
  unfold Datatypes.id. nia.
Qed.

Lemma count_dim2 (n : nat) :
  Z.of_nat (length (filter (fun i => py_sum i <= Z.of_nat n)
                      (product (Z.of_nat <$> seq 0 (S n)) 2)))
  = (Z.of_nat n + 1) * (Z.of_nat n + 2) / 2.
Proof.
  change (product ?l 2) with (l ≫= fun x => (x ::.) <$> product l 1).
  rewrite length_filter_bind, <- list_fmap_compose.
  rewrite (list_fmap_ext _ (fun x => Nat.min (S n) (n - x + 1))).
  - pose proof (triangle_sum n (S n) (Nat.le_refl _)) as H.
    apply Z.div_unique_exact; [lia|]. rewrite H. lia.
  - intros k x Hx. apply lookup_seq in Hx as [-> Hk]. simpl in Hk.
    unfold compose. rewrite filter_fmap_cons, length_fmap, count_dim1.
    rewrite count_le_seq by lia. lia.
Qed.

Lemma py_sum_reverse (i : list Z) : py_sum (reverse i) = py_sum i.
Proof.
  assert (∀ l a, foldr Z.add a l = a + foldr Z.add 0 l) as Hacc
    by (intros l a; induction l; simpl; lia).
  unfold py_sum in *. induction i as [|x i IH]; [done|].
  rewrite reverse_cons, foldr_app, Hacc, IH. simpl. lia.
Qed.

Lemma product_singleton {A} (x : A) n : product [x] n = [replicate n x].
Proof. induction n as [|n IH]; [done|]. simpl. by rewrite IH. Qed.

Lemma py_sum_replicate_0 n : py_sum (replicate n 0) = 0.
Proof. induction n; [done|]. simpl. done. Qed.

Lemma reverse_replicate {A} n (x : A) : reverse (replicate n x) = replicate n x.
Proof.
  induction n as [|n IH]; [done|].
  simpl. rewrite reverse_cons, IH. clear IH.
  induction n; [done|]. simpl. by f_equal.
Qed.

End lagrange_points_facts.

Section simplex_facts.

Lemma Qc_div_bounds (c d : Z) :
  (0 <= c <= d)%Z → (1 <= d)%Z →
  0 <= Qc_of_Z c / Qc_of_Z d ∧ Qc_of_Z c / Qc_of_Z d <= 1.
Proof.
  intros Hc Hd.
  assert (0 < Qc_of_Z d) as Hpos
    by (rewrite <- Z2Qc_inj_0; apply (proj1 (Z2Qc_inj_lt _ _)); lia).
  pose proof (Qcinv_pos _ Hpos) as Hinv.
  unfold Qcdiv. split.
  - rewrite <- (Qcmult_0_l (/ Qc_of_Z d)).
    apply Qcmult_le_mono_nonneg_r; [by apply Qclt_le_weak|].
    rewrite <- Z2Qc_inj_0. apply (proj1 (Z2Qc_inj_le _ _)). lia.
  - rewrite <- (Qcmult_inv_r (Qc_of_Z d)).
    + apply Qcmult_le_mono_nonneg_r; [by apply Qclt_le_weak|].
      apply (proj1 (Z2Qc_inj_le _ _)). lia.
    + intros Heq. apply Qclt_not_eq in Hpos. congruence.
Qed.

Lemma sum_div (l : list Z) (d : Z) :
  foldr Qcplus 0 ((fun c => Qc_of_Z c / Qc_of_Z d) <$> l)
  = Qc_of_Z (py_sum l) / Qc_of_Z d.
Proof.
  induction l as [|x l IH].
  - cbn. rewrite Z2Qc_inj_0. unfold Qcdiv. by rewrite Qcmult_0_l.
  - rewrite fmap_cons. cbn [foldr]. rewrite IH.
    unfold py_sum. cbn [foldr]. rewrite Z2Qc_inj_add. unfold Qcdiv. ring.
Qed.

End simplex_facts.

(** C3.  On a cell of dimension 1 or 2 and for every degree that is not
    negative, [lagrange_points] returns exactly [expected_count] nodes:
    [degree + 1] in dimension 1 and [(degree + 1)(degree + 2) / 2] in
    dimension 2. *)
Theorem lagrange_points_count (cell : ReferenceCell) (degree : Z) :
  (dim cell = 1 ∨ dim cell = 2)%nat →
  (0 <= degree)%Z →
  Z.of_nat (length (lagrange_points cell degree))
  = expected_count (dim cell) degree.
Proof.
  intros Hdim Hdeg.
  rewrite lagrange_points_unfold, length_fmap.
  replace degree with (Z.of_nat (Z.to_nat degree)) by lia.
  generalize (Z.to_nat degree). clear Hdeg degree. intros n.
  replace (Z.of_nat n + 1)%Z with (Z.of_nat (S n)) by lia.
  rewrite py_range_of_nat.
  destruct Hdim as [-> | ->]; unfold expected_count.
  - rewrite count_dim1, count_le_seq by lia. lia.
  - apply count_dim2.
Qed.

Lemma lagrange_points_count_witness :
  Z.of_nat (length (lagrange_points ReferenceTriangle 3))
  = expected_count (dim ReferenceTriangle) 3.
Proof.
  apply lagrange_points_count; [right; reflexivity | lia].
Defined.

(** C6, as the code has it.  For degree 0 the generator returns one node
    on every cell, and each coordinate of that node is the NaN that the
    division [0 / 0] yields; the denominator is not replaced and the node
    is not moved to the origin. *)
Theorem lagrange_points_degree_0 (cell : ReferenceCell) :
  lagrange_points cell 0 = [replicate (dim cell) NaN].
Proof.
  rewrite lagrange_points_unfold.
  change (py_range (0 + 1)) with [0%Z].
  rewrite product_singleton, filter_cons, filter_nil.
  rewrite py_sum_replicate_0. case_decide; [|lia].
  simpl. rewrite reverse_replicate, fmap_replicate. done.
Qed.

(** C6 fails on the reference interval: the single node of degree 0 has
    the coordinate NaN. *)
Lemma lagrange_points_degree_0_nan :
  lagrange_points ReferenceInterval 0 = [[NaN]]
  ∧ ¬ (∃ x : Qc, lagrange_points ReferenceInterval 0 = [[Fin x]]).
Proof.
  split; [reflexivity|]. intros [x Hx]. discriminate Hx.
Qed.

(** C7, as the code has it.  For a negative degree the generator raises
    nothing: it returns the empty node list, on every cell. *)
Theorem lagrange_points_negative_degree (cell : ReferenceCell) (degree : Z) :
  (degree < 0)%Z → lagrange_points cell degree = [].
Proof.
  intros Hdeg. rewrite lagrange_points_unfold.
  rewrite py_range_neg by lia.
  destruct (dim cell) as [|n]; [|done].
  simpl. rewrite filter_cons, filter_nil. simpl.
  case_decide; [lia|done].
Qed.

Lemma lagrange_points_negative_degree_witness :
  lagrange_points ReferenceTriangle (-2) = [].
Proof. apply lagrange_points_negative_degree. lia. Defined.

(** C7 fails on the reference interval: degree -1 gives a node list, the
    empty one. *)
Lemma lagrange_points_negative_degree_returns :
  lagrange_points ReferenceInterval (-1) = [].
Proof. reflexivity. Qed.

(** C10.  For every degree from 1 on, every node that [lagrange_points]
    returns lies in the closed reference simplex: its coordinates are
    finite, each lies between 0 and 1, and they sum to at most 1.  This
    holds on every cell, in particular in dimensions 1 and 2. *)
Theorem lagrange_points_in_simplex (cell : ReferenceCell) (degree : Z)
    (node : list npfloat) :
  (1 <= degree)%Z →
  node ∈ lagrange_points cell degree →
  in_reference_simplex node.
Proof.
  intros Hdeg. rewrite lagrange_points_unfold.
  intros (i & -> & Hi)%list_elem_of_fmap.
  apply list_elem_of_filter in Hi as [Hsum Hi].
  apply elem_of_product in Hi as [_ Hall].
  exists ((fun c => Qc_of_Z c / Qc_of_Z degree) <$> reverse i).
  split; [|split].
  - rewrite <- list_fmap_compose. apply list_fmap_ext. intros _ c _.
    unfold compose, true_divide.
    case_decide; [lia|done].
  - apply Forall_fmap, Forall_reverse.
    eapply Forall_impl; [exact Hall|]. intros c Hc. simpl.
    apply elem_of_py_range in Hc.
    apply Qc_div_bounds; lia.
  - rewrite sum_div, py_sum_reverse.
    apply Qc_div_bounds; [|lia]. split; [|done].
    clear Hsum. induction Hall as [|c i Hc _ IH]; [done|].
    apply elem_of_py_range in Hc. unfold py_sum in *. simpl. lia.
Qed.

Lemma lagrange_points_in_simplex_witness :
  in_reference_simplex [Fin (Qc_of_Z 1 / Qc_of_Z 2); Fin (Qc_of_Z 1 / Qc_of_Z 2)].
Proof.
  apply (lagrange_points_in_simplex ReferenceTriangle 2); [lia|].
  vm_compute. do 4 apply list_elem_of_further. apply list_elem_of_here.
Defined.

(** * Properties of the Vandermonde matrix *)

Section comprehension_facts.

Context {A B : Type}.

Lemma comprehension_ok (f : A → result B) (g : A → B) (l : list A) :
  (∀ a, a ∈ l → f a = Ok (g a)) → comprehension f l = Ok (g <$> l).
Proof.
  induction l as [|a l IH]; intros H; [done|].
  simpl. rewrite H by apply list_elem_of_here.
  rewrite IH by (intros; apply H; by apply list_elem_of_further). done.
Qed.

Lemma comprehension_inv (f : A → result B) (l : list A) (bs : list B) :
  comprehension f l = Ok bs → Forall2 (fun a b => f a = Ok b) l bs.
Proof.
  revert bs. induction l as [|a l IH]; intros bs; simpl.
  - intros [= <-]. constructor.
  - destruct (f a) as [b|] eqn:Hfa; [|done]. simpl.
    destruct (comprehension f l) as [bs'|]; [|done]. simpl.
    intros [= <-]. constructor; [done|]. by apply IH.
Qed.

(** A loop that appends what each round computes. *)
Lemma for_loop_extend (F : A → result (list B)) (G : A → list B)
    (l : list A) (acc : list B) :
  (∀ a, a ∈ l → F a = Ok (G a)) →
  for_loop l (fun acc a => new ← F a; Ok (acc ++ new)) acc
  = Ok (acc ++ (l ≫= G)).
Proof.
  revert acc. induction l as [|a l IH]; intros acc H; simpl.
  - by rewrite app_nil_r.
  - rewrite H by apply list_elem_of_here. simpl.
    rewrite IH by (intros; apply H; by apply list_elem_of_further).
    by rewrite app_assoc.
Qed.

End comprehension_facts.

Section stacking_facts.

Context {E P A : Type}.

(** Stacking one column per [e] side by side gives one row per point. *)
Lemma foldl_zip_app (f : E → P → list A) (es : list E) (ps : list P)
    (acc : P → list A) :
  foldl (zip_with app) (acc <$> ps) ((fun e => f e <$> ps) <$> es)
  = (fun p => acc p ++ (es ≫= fun e => f e p)) <$> ps.
Proof.
  revert acc. induction es as [|e es IH]; intros acc.
  - apply list_fmap_ext. intros _ p _. by rewrite app_nil_r.
  - rewrite fmap_cons. cbn [foldl].
    rewrite zip_with_fmap_l, zip_with_fmap_r, zip_with_diag.
    rewrite (IH (fun p => acc p ++ f e p)).
    apply list_fmap_ext. intros _ p _. by rewrite bind_cons, app_assoc.
Qed.

Lemma transpose_columns (g : E → P → A) (es : list E) (ps : list P) :
  es ≠ [] →
  transpose ((fun e => g e <$> ps) <$> es) = (fun p => (fun e => g e p) <$> es) <$> ps.
Proof.
  induction es as [|e es IH]; [done|]. intros _.
  destruct es as [|e' es].
  - simpl. rewrite <- list_fmap_compose. done.
  - change (transpose ((fun e => g e <$> ps) <$> e :: e' :: es))
      with (zip_with cons (g e <$> ps)
              (transpose ((fun e => g e <$> ps) <$> e' :: es))).
    rewrite IH by done.
    rewrite zip_with_fmap_l, zip_with_fmap_r, zip_with_diag. done.
Qed.

End stacking_facts.

Section vandermonde_facts.

Lemma hstack_columns {E P} (f : E → P → vector) (es : list E) (ps : list P) :
  es ≠ [] →
  hstack ((fun e => f e <$> ps) <$> es)
  = Ok ((fun p => es ≫= fun e => f e p) <$> ps).
Proof.
  destruct es as [|e es]; [done|]. intros _.
  rewrite fmap_cons. unfold hstack.
  rewrite bool_decide_eq_true_2.
  - by rewrite foldl_zip_app.
  - apply Forall_fmap, Forall_forall. intros e' _. simpl.
    by rewrite !length_fmap.
Qed.

Lemma bind_singleton_fmap {A B} (f : A → B) (l : list A) :
  (l ≫= fun a => [f a]) = f <$> l.
Proof. induction l as [|a l IH]; [done|]. by rewrite bind_cons, IH. Qed.

Lemma bind_fmap_fmap {A B C D} (h : C → D) (k : A → B → C)
    (s : A → list B) (l : list A) :
  (l ≫= fun i => (fun j => h (k i j)) <$> s i)
  = h <$> (l ≫= fun i => k i <$> s i).
Proof.
  induction l as [|a l IH]; [done|].
  rewrite !bind_cons, fmap_app, IH. f_equal.
  by rewrite <- list_fmap_compose.
Qed.

Lemma loop_exponents_nonempty d n : loop_exponents d n ≠ [].
Proof.
  unfold loop_exponents. cbn [seq]. rewrite bind_cons.
  rewrite Nat.mul_0_r. done.
Qed.

Lemma getitem_0 (p : vector) : p ≠ [] → getitem p 0 = Ok (xcoord p).
Proof. by destruct p. Qed.

Lemma getlast_ok (p : vector) : p ≠ [] → getlast p = Ok (ycoord p).
Proof.
  intros Hp. unfold getlast, ycoord.
  induction p as [|x p IH]; [done|].
  destruct p as [|y p]; [done|].
  change (last (x :: y :: p)) with (last (y :: p)).
  change (List.last (x :: y :: p) 0) with (List.last (y :: p) 0).
  by apply IH.
Qed.

Lemma entry_dx (i j : nat) (p : vector) :
  (j <= i)%nat →
  entry (Z.of_nat i) (Z.of_nat j) 0 p = dx_monomial ((i - j)%nat, j) p.
Proof.
  intros Hj. unfold entry, dx_monomial, power_rule. cbn [fst snd].
  replace (Z.to_nat (Z.max (Z.of_nat j - 1 * 0) 0)) with j by lia.
  destruct (i - j)%nat as [|m] eqn:Hm.
  - replace ((Z.of_nat i - Z.of_nat j) * (1 - 0) + Z.of_nat j * 0)%Z
      with 0%Z by lia.
    rewrite Z2Qc_inj_0. ring.
  - replace ((Z.of_nat i - Z.of_nat j) * (1 - 0) + Z.of_nat j * 0)%Z
      with (Z.of_nat (S m)) by lia.
    replace (Z.to_nat (Z.max (Z.of_nat i - Z.of_nat j - 1 * (1 - 0)) 0))
      with m by lia.
    ring.
Qed.

Lemma entry_dy (i j : nat) (p : vector) :
  (j <= i)%nat →
  entry (Z.of_nat i) (Z.of_nat j) 1 p = dy_monomial ((i - j)%nat, j) p.
Proof.
  intros Hj. unfold entry, dy_monomial, power_rule. cbn [fst snd].
  replace (Z.to_nat (Z.max (Z.of_nat i - Z.of_nat j - 1 * (1 - 1)) 0))
    with (i - j)%nat by lia.
  destruct j as [|m].
  - replace ((Z.of_nat i - Z.of_nat 0) * (1 - 1) + Z.of_nat 0 * 1)%Z
      with 0%Z by lia.
    rewrite Z2Qc_inj_0. ring.
  - replace ((Z.of_nat i - Z.of_nat (S m)) * (1 - 1) + Z.of_nat (S m) * 1)%Z
      with (Z.of_nat (S m)) by lia.
    replace (Z.to_nat (Z.max (Z.of_nat (S m) - 1 * 1) 0)) with m by lia.
    ring.
Qed.

Context (points : matrix) (Hpoints : Forall (fun p => p ≠ []) points).

Lemma first_coordinate_ok :
  first_coordinate points = Ok ((fun p => [xcoord p]) <$> points).
Proof.
  apply comprehension_ok. intros p Hp.
  rewrite getitem_0; [done|]. by eapply Forall_forall in Hpoints.
Qed.

Lemma last_coordinate_ok :
  last_coordinate points = Ok ((fun p => [ycoord p]) <$> points).
Proof.
  apply comprehension_ok. intros p Hp.
  rewrite getlast_ok; [done|]. by eapply Forall_forall in Hpoints.
Qed.

(** Every call of the inner function succeeds and yields one entry
    per point. *)
Lemma column_ok (grad : bool) (i idx j : Z) :
  column points grad i idx j
  = Ok ((fun p =>
           [xcoord p ^ Z.to_nat (Z.max (i - j - Z.b2z grad * (1 - idx)) 0)
            * ycoord p ^ Z.to_nat (Z.max (j - Z.b2z grad * idx) 0)])
          <$> points).
Proof.
  unfold column. rewrite first_coordinate_ok, last_coordinate_ok. simpl.
  f_equal. unfold np_multiply, np_power.
  rewrite <- !list_fmap_compose.
  rewrite zip_with_fmap_l, zip_with_fmap_r, zip_with_diag. done.
Qed.

Context (cell : ReferenceCell) (n : nat) (Hdim : (1 <= dim cell)%nat).

Lemma range_columns (i : nat) :
  py_range ((Z.of_nat (dim cell) - 1) * Z.of_nat i + 1)
  = Z.of_nat <$> seq 0 ((dim cell - 1) * i + 1).
Proof.
  rewrite <- py_range_of_nat. f_equal.
  rewrite Nat2Z.inj_add, Nat2Z.inj_mul, Nat2Z.inj_sub by done. done.
Qed.

(** The value form: row [p] holds the monomials, in loop order. *)
Lemma vandermonde_matrix_values_loop :
  vandermonde_matrix cell (Z.of_nat n) points false
  = Ok ((fun p => (fun e => eval_monomial e p)
                    <$> loop_exponents (dim cell) n) <$> points).
Proof.
  unfold vandermonde_matrix.
  replace (Z.of_nat n + 1)%Z with (Z.of_nat (S n)) by lia.
  rewrite py_range_of_nat.
  rewrite (for_loop_extend _
    (fun i => (fun j => (fun p => [eval_monomial ((Z.to_nat i - j)%nat, j) p])
                          <$> points)
                <$> seq 0 ((dim cell - 1) * Z.to_nat i + 1))).
  - rewrite app_nil_l, list_fmap_bind.
    match goal with |- context [seq 0 (S n) ≫= ?G] =>
      assert (seq 0 (S n) ≫= G
              = (fun e => (fun p => [eval_monomial e p]) <$> points)
                  <$> loop_exponents (dim cell) n) as ->
    end.
    { unfold loop_exponents.
      rewrite <- (bind_fmap_fmap
               (fun e => (fun p => [eval_monomial e p]) <$> points)
               (fun i j => ((i - j)%nat, j))).
      apply list_bind_ext; [|done]. intros i. unfold compose.
      by rewrite Nat2Z.id. }
    cbn [mbind result_bind].
    rewrite hstack_columns by apply loop_exponents_nonempty.
    f_equal.
  - intros i (i' & -> & _)%list_elem_of_fmap.
    rewrite range_columns, Nat2Z.id.
    rewrite (comprehension_ok _
      (fun j => (fun p => [eval_monomial ((i' - Z.to_nat j)%nat, Z.to_nat j) p])
                  <$> points)).
    + rewrite <- list_fmap_compose. f_equal.
      apply list_fmap_ext. intros _ j _. unfold compose.
      by rewrite Nat2Z.id.
    + intros j (j' & -> & _)%list_elem_of_fmap.
      rewrite column_ok. f_equal.
      apply list_fmap_ext. intros _ p _. unfold eval_monomial.
      cbn [fst snd Z.b2z]. do 3 f_equal; lia.
Qed.

Context (Hdim2 : (dim cell <= 2)%nat).

Lemma entries_grad (i j : nat) (p : vector) :
  (j <= i)%nat →
  (fun k => entry (Z.of_nat i) (Z.of_nat j) k p)
    <$> py_range (Z.of_nat (dim cell))
  = grad_monomial (dim cell) ((i - j)%nat, j) p.
Proof.
  intros Hj. rewrite py_range_of_nat.
  destruct (dim cell) as [|[|[|d]]]; [lia| | |lia];
    cbn [seq fmap list_fmap grad_monomial];
    change (Z.of_nat 0) with 0%Z; change (Z.of_nat 1) with 1%Z.
  - by rewrite (entry_dx i j p Hj).
  - by rewrite (entry_dx i j p Hj), (entry_dy i j p Hj).
Qed.

(** The row of the gradient form that belongs to the pair [(i, j)]. *)
Lemma gradient_block (i j : Z) :
  (cols ← comprehension (fun k =>
             c ← column points true i k j;
             Ok (np_scale ((i - j) * (1 - k) + j * k) c))
           (py_range (Z.of_nat (dim cell)));
   hstack cols)
  = Ok ((fun p => (fun k => entry i j k p)
                    <$> py_range (Z.of_nat (dim cell))) <$> points).
Proof.
  rewrite (comprehension_ok _
             (fun k => (fun p => [entry i j k p]) <$> points)).
  - cbn [mbind result_bind]. rewrite hstack_columns; [done|].
    rewrite py_range_of_nat. destruct (dim cell); [lia|done].
  - intros k _. rewrite column_ok. cbn [mbind result_bind]. f_equal.
    unfold np_scale. rewrite <- list_fmap_compose.
    apply list_fmap_ext. intros _ p _. done.
Qed.

(** The gradient form: row [p] holds the gradients of the monomials, in
    loop order. *)
Lemma vandermonde_matrix_grad_loop :
  vandermonde_matrix cell (Z.of_nat n) points true
  = Ok ((fun p => (fun e => grad_monomial (dim cell) e p)
                    <$> loop_exponents (dim cell) n) <$> points).
Proof.
  unfold vandermonde_matrix.
  replace (Z.of_nat n + 1)%Z with (Z.of_nat (S n)) by lia.
  rewrite py_range_of_nat.
  rewrite (for_loop_extend _
    (fun i => (fun j => (fun p =>
                 grad_monomial (dim cell) ((Z.to_nat i - j)%nat, j) p)
                          <$> points)
                <$> seq 0 ((dim cell - 1) * Z.to_nat i + 1))).
  - rewrite app_nil_l, list_fmap_bind.
    match goal with |- context [seq 0 (S n) ≫= ?G] =>
      assert (seq 0 (S n) ≫= G
              = (fun e => (fun p => grad_monomial (dim cell) e p) <$> points)
                  <$> loop_exponents (dim cell) n) as Hm
    end.
    { unfold loop_exponents.
      rewrite <- (bind_fmap_fmap
               (fun e => (fun p => grad_monomial (dim cell) e p) <$> points)
               (fun i j => ((i - j)%nat, j))).
      apply list_bind_ext; [|done]. intros i. unfold compose.
      by rewrite Nat2Z.id. }
    rewrite Hm. cbn [mbind result_bind]. unfold swapaxes01.
    pose proof (loop_exponents_nonempty (dim cell) n) as Hne.
    destruct (_ <$> loop_exponents (dim cell) n) eqn:Heq.
    { by apply fmap_nil_inv in Heq. }
    rewrite <- Heq. by rewrite transpose_columns.
  - intros i (i' & -> & _)%list_elem_of_fmap.
    rewrite range_columns, Nat2Z.id.
    rewrite (comprehension_ok _
      (fun j => (fun p =>
         grad_monomial (dim cell) ((i' - Z.to_nat j)%nat, Z.to_nat j) p)
                  <$> points)).
    + rewrite <- list_fmap_compose. f_equal.
      apply list_fmap_ext. intros _ j _. unfold compose.
      by rewrite Nat2Z.id.
    + intros j (j' & -> & Hj')%list_elem_of_fmap.
      apply elem_of_seq in Hj'.
      rewrite gradient_block, Nat2Z.id. f_equal.
      apply list_fmap_ext. intros _ p _. apply entries_grad. nia.
Qed.

Lemma loop_exponents_monomial_basis :
  loop_exponents (dim cell) n = monomial_basis (dim cell) n.
Proof.
  unfold loop_exponents, monomial_basis.
  destruct (dim cell) as [|[|[|d]]]; [lia| | |lia].
  - rewrite <- bind_singleton_fmap. apply list_bind_ext; [|done].
    intros i. cbn. by rewrite Nat.sub_0_r.
  - apply list_bind_ext; [|done]. intros i.
    by replace ((2 - 1) * i + 1)%nat with (S i) by lia.
Qed.

End vandermonde_facts.

Section monomial_basis_facts.

(** In dimension 1 the basis holds the powers of [x] up to the degree, in
    dimension 2 every monomial of total degree at most the degree. *)
Lemma elem_of_monomial_basis_1 (n a b : nat) :
  (a, b) ∈ monomial_basis 1 n ↔ (a <= n)%nat ∧ b = 0%nat.
Proof.
  unfold monomial_basis. rewrite list_elem_of_fmap. split.
  - intros (j & [= -> ->] & Hj). apply elem_of_seq in Hj. lia.
  - intros [Ha ->]. exists a. split; [done|]. apply elem_of_seq. lia.
Qed.

Lemma elem_of_monomial_basis_2 (n a b : nat) :
  (a, b) ∈ monomial_basis 2 n ↔ (a + b <= n)%nat.
Proof.
  unfold monomial_basis. rewrite list_elem_of_bind. split.
  - intros (i & Hab & Hi). apply list_elem_of_fmap in Hab as (j & [= -> ->] & Hj).
    apply elem_of_seq in Hi, Hj. lia.
  - intros Hab. exists (a + b)%nat. split; [|apply elem_of_seq; lia].
    apply list_elem_of_fmap. exists b. split; [f_equal; lia|].
    apply elem_of_seq. lia.
Qed.

(** There are as many monomials as the node generator makes nodes. *)
Lemma length_monomial_basis (d n : nat) :
  (d = 1 ∨ d = 2)%nat →
  Z.of_nat (length (monomial_basis d n)) = expected_count d (Z.of_nat n).
Proof.
  intros [-> | ->]; unfold monomial_basis, expected_count.
  - rewrite length_fmap, length_seq. lia.
  - assert (2 * Z.of_nat (length (seq 0 (S n) ≫= fun i =>
                (fun j => ((i - j)%nat, j)) <$> seq 0 (S i)))
            = (Z.of_nat n + 1) * (Z.of_nat n + 2))%Z as Hlen.
    { induction n as [|n IH]; [done|].
      rewrite (seq_S (S n)), bind_app, length_app, Nat2Z.inj_add.
      rewrite Z.mul_add_distr_l, IH. rewrite bind_cons.
      change (@nil nat ≫= _) with (@nil (nat * nat)).
      rewrite app_nil_r, length_fmap, length_seq. lia. }
    apply Z.div_unique_exact; [lia|]. by rewrite Hlen.
Qed.

End monomial_basis_facts.

(** * Linear algebra on nested lists *)

Section linear_algebra.

Lemma dot_nil_l v : dot [] v = 0.
Proof. done. Qed.

Lemma dot_nil_r u : dot u [] = 0.
Proof. by destruct u. Qed.

Lemma dot_cons x u y v : dot (x :: u) (y :: v) = x * y + dot u v.
Proof. done. Qed.

Lemma dot_fmap_plus {J} (f g : J → Qc) (l : list J) v :
  dot ((fun j => f j + g j) <$> l) v = dot (f <$> l) v + dot (g <$> l) v.
Proof.
  revert v. induction l as [|j l IH]; intros [|y v];
    rewrite ?fmap_nil, ?fmap_cons, ?dot_nil_l, ?dot_nil_r, ?dot_cons;
    try ring.
  rewrite IH. ring.
Qed.

Lemma dot_fmap_scale {J} (a : Qc) (f : J → Qc) (l : list J) v :
  dot ((fun j => a * f j) <$> l) v = a * dot (f <$> l) v.
Proof.
  revert v. induction l as [|j l IH]; intros [|y v];
    rewrite ?fmap_nil, ?fmap_cons, ?dot_nil_l, ?dot_nil_r, ?dot_cons;
    try ring.
  rewrite IH. ring.
Qed.

Lemma dot_fmap_zero {J} (l : list J) v : dot ((fun _ => 0) <$> l) v = 0.
Proof.
  revert v. induction l as [|j l IH]; intros [|y v];
    rewrite ?fmap_nil, ?fmap_cons, ?dot_nil_l, ?dot_nil_r, ?dot_cons;
    try ring.
  rewrite IH. ring.
Qed.

Lemma fmap_nth_seq (b : vector) s :
  (fun j => nth (j - s) b 0) <$> seq s (length b) = b.
Proof.
  revert s. induction b as [|x b IH]; intros s; [done|].
  cbn [length seq]. rewrite fmap_cons, Nat.sub_diag. cbn [nth]. f_equal.
  etrans; [|apply (IH (S s))]. apply list_fmap_ext.
  intros k j Hj. apply lookup_seq in Hj as [-> _].
  replace (S s + k - s)%nat with (S (S s + k - S s)) by lia. done.
Qed.

Lemma fmap_nth_seq_0 (b : vector) :
  (fun j => nth j b 0) <$> seq 0 (length b) = b.
Proof.
  etrans; [|apply (fmap_nth_seq b 0)]. apply list_fmap_ext.
  intros _ j _. by rewrite Nat.sub_0_r.
Qed.

(** One row of [(a @ b) @ x] against [a @ (b @ x)]. *)
Lemma dot_row_assoc (r : vector) (b : matrix) (x : vector) (m : nat) :
  Forall (fun br => length br = m) b →
  dot ((fun j => dot r (col j b)) <$> seq 0 m) x = dot r (matvec b x).
Proof.
  intros Hb. revert r. induction Hb as [|br b Hbr Hb IH]; intros r.
  - unfold col, matvec. rewrite fmap_nil, dot_nil_r.
    rewrite <- (dot_fmap_zero (seq 0 m) x). f_equal.
    apply list_fmap_ext. intros _ j _. by rewrite dot_nil_r.
  - destruct r as [|a r].
    + rewrite dot_nil_l. rewrite <- (dot_fmap_zero (seq 0 m) x). done.
    + change (matvec (br :: b) x) with (dot br x :: matvec b x).
      rewrite dot_cons, <- IH.
      trans (dot ((fun j => a * nth j br 0 + dot r (col j b)) <$> seq 0 m) x);
        [done|].
      rewrite dot_fmap_plus, dot_fmap_scale.
      by rewrite <- Hbr, fmap_nth_seq_0.
Qed.

Lemma matvec_matmul (a b : matrix) (x : vector) :
  Forall (fun br => length br = ncols b) b →
  matvec (matmul a b) x = matvec a (matvec b x).
Proof.
  intros Hb. unfold matmul, vecmat. unfold matvec at 1 2.
  rewrite <- list_fmap_compose. apply list_fmap_ext. intros _ r _.
  unfold compose. by apply dot_row_assoc.
Qed.

Lemma dot_indicator (i : nat) (v : vector) s k :
  dot ((fun j => if decide (i = j) then 1 else 0) <$> seq s k) v
  = if decide (s <= i < s + k)%nat then nth (i - s) v 0 else 0.
Proof.
  revert s v. induction k as [|k IH]; intros s v.
  - rewrite dot_nil_l. case_decide; [lia|done].
  - cbn [seq]. rewrite fmap_cons. destruct v as [|y v].
    + rewrite dot_nil_r. case_decide; [|done]. by destruct (i - s)%nat.
    + rewrite dot_cons, IH. repeat case_decide; try lia; subst.
      * rewrite Nat.sub_diag. cbn. ring.
      * replace (i - s)%nat with (S (i - S s)) by lia. cbn. ring.
      * ring.
Qed.

Lemma matvec_identity (v : vector) :
  matvec (identity (length v)) v = v.
Proof.
  unfold matvec, identity. rewrite <- list_fmap_compose.
  etrans; [|apply fmap_nth_seq_0].
  apply list_fmap_ext. intros k i Hi. apply lookup_seq in Hi as [-> Hk].
  unfold compose. rewrite dot_indicator.
  case_decide; [|lia]. by rewrite Nat.sub_0_r.
Qed.

Lemma length_matmul a b : length (matmul a b) = length a.
Proof. unfold matmul. by rewrite length_fmap. Qed.

Lemma length_identity n : length (identity n) = n.
Proof. unfold identity. by rewrite length_fmap, length_seq. Qed.

End linear_algebra.

(** * The inverse *)

Section inverse_facts.

Lemma ncols_rows {A} (phi : list (list A)) N :
  Forall (fun r => length r = N) phi → phi ≠ [] → ncols phi = N.
Proof. intros H Hne. destruct phi; [done|]. by inversion H. Qed.

Lemma find_pivot_shape c todo p others L :
  find_pivot c todo = Some (p, others) →
  Forall (fun r => length r = L) todo →
  length p = L ∧ Forall (fun r => length r = L) others.
Proof.
  revert p others. induction todo as [|r rest IH]; intros p others; [done|].
  cbn [find_pivot]. intros Hfind Hall. inversion Hall as [|? ? Hr Hrest]; subst.
  case_decide.
  - destruct (find_pivot c rest) as [[p' others']|]; [|done].
    simpl in Hfind. injection Hfind as <- <-.
    destruct (IH p' others' eq_refl Hrest). split; [done|]. by constructor.
  - injection Hfind as <- <-. done.
Qed.

Lemma gauss_jordan_shape columns done todo m L :
  gauss_jordan columns done todo = Some m →
  Forall (fun r => length r = L) done →
  Forall (fun r => length r = L) todo →
  Forall (fun r => length r = L) m.
Proof.
  revert done todo. induction columns as [|c columns IH]; intros done todo.
  - by intros [= <-].
  - cbn [gauss_jordan]. intros Hgj Hdone Htodo.
    destruct (find_pivot c todo) as [[p others]|] eqn:Hfind; [|done].
    simpl in Hgj.
    destruct (find_pivot_shape _ _ _ _ _ Hfind Htodo) as [Hp Hothers].
    assert (∀ rs, Forall (fun r => length r = L) rs →
              Forall (fun r => length r = L)
                (row_sub c ((fun x => x / nth c p 0) <$> p) <$> rs)) as Hsub.
    { intros rs Hrs. apply Forall_fmap. eapply Forall_impl; [exact Hrs|].
      intros r Hr. unfold row_sub. simpl in *.
      rewrite length_zip_with, length_fmap. lia. }
    apply (IH _ _ Hgj).
    + apply Forall_app. split; [by apply Hsub|].
      constructor; [|done]. by rewrite length_fmap.
    + by apply Hsub.
Qed.

Lemma augmented_shape (a : matrix) n :
  Forall (fun r => length r = n) a →
  Forall (fun r => length r = (n + n)%nat) (zip_with app a (identity n)).
Proof.
  intros Ha. apply Forall_lookup. intros i r Hi.
  apply lookup_zip_with_Some in Hi as (x & y & -> & Hx & Hy).
  rewrite length_app. f_equal.
  - by eapply (proj1 (Forall_lookup _ _) Ha).
  - unfold identity in Hy. apply list_lookup_fmap_Some in Hy as (k & -> & _).
    by rewrite length_fmap, length_seq.
Qed.

Lemma dot_scale c u v : dot ((fun x => x / c) <$> u) v = dot u v / c.
Proof.
  revert v. induction u as [|x u IH]; intros [|y v];
    rewrite ?fmap_cons, ?dot_nil_l, ?dot_nil_r, ?dot_cons;
    try (unfold Qcdiv; ring).
  rewrite IH. unfold Qcdiv. ring.
Qed.

Lemma dot_sub f u π v :
  length u = length π →
  dot (zip_with (fun x p => x - f * p) u π) v = dot u v - f * dot π v.
Proof.
  revert π v. induction u as [|x u IH]; intros [|p π] [|y v] Hlen;
    try discriminate Hlen; cbn [zip_with];
    rewrite ?dot_nil_l, ?dot_nil_r, ?dot_cons; try ring.
  rewrite IH by (simpl in Hlen; lia). ring.
Qed.

Lemma vecmat_scale c r M :
  vecmat ((fun x => x / c) <$> r) M = (fun x => x / c) <$> vecmat r M.
Proof.
  unfold vecmat. rewrite <- list_fmap_compose.
  apply list_fmap_ext. intros _ j _. apply dot_scale.
Qed.

Lemma vecmat_sub f r π M :
  length r = length π →
  vecmat (zip_with (fun x p => x - f * p) r π) M
  = zip_with (fun x p => x - f * p) (vecmat r M) (vecmat π M).
Proof.
  intros Hlen. unfold vecmat.
  rewrite zip_with_fmap_l, zip_with_fmap_r, zip_with_diag.
  apply list_fmap_ext. intros _ j _. by apply dot_sub.
Qed.

(** The two relations between the halves of an augmented row. *)
Lemma left_half_closed n (a : matrix) :
  row_closed (fun ρ => take n ρ = vecmat (drop n ρ) a).
Proof.
  split.
  - intros c u Hu. by rewrite <- fmap_take, <- fmap_drop, vecmat_scale, Hu.
  - intros f u π Hlen Hu Hπ.
    rewrite zip_with_take, zip_with_drop, vecmat_sub, Hu, Hπ; [done|].
    rewrite !length_drop. lia.
Qed.

Lemma right_half_closed n (w : matrix) :
  row_closed (fun ρ => drop n ρ = vecmat (take n ρ) w).
Proof.
  split.
  - intros c u Hu. by rewrite <- fmap_take, <- fmap_drop, vecmat_scale, Hu.
  - intros f u π Hlen Hu Hπ.
    rewrite zip_with_take, zip_with_drop, vecmat_sub, Hu, Hπ; [done|].
    rewrite !length_take. lia.
Qed.

Lemma find_pivot_Forall (Q : vector → Prop) c todo p others :
  find_pivot c todo = Some (p, others) →
  Forall Q todo ↔ Q p ∧ Forall Q others.
Proof.
  revert p others. induction todo as [|r rest IH]; intros p others; [done|].
  cbn [find_pivot]. case_decide.
  - destruct (find_pivot c rest) as [[p' others']|]; [|done].
    cbn. intros [= <- <-]. rewrite !Forall_cons, (IH p' others' eq_refl).
    tauto.
  - intros [= <- <-]. by rewrite Forall_cons.
Qed.

Lemma find_pivot_nonzero c todo p others :
  find_pivot c todo = Some (p, others) → nth c p 0 ≠ 0.
Proof.
  revert p others. induction todo as [|r rest IH]; intros p others; [done|].
  cbn [find_pivot]. case_decide.
  - destruct (find_pivot c rest) as [[p' others']|]; [|done].
    cbn. intros [= <- <-]. by eapply IH.
  - by intros [= <- <-].
Qed.

Lemma row_sub_undo f (ρ π : vector) :
  length ρ = length π →
  zip_with (fun x p => x - (- f) * p) (zip_with (fun x p => x - f * p) ρ π) π
  = ρ.
Proof.
  revert π. induction ρ as [|x ρ IH]; intros [|p π] Hlen;
    try discriminate Hlen; [done|].
  cbn [zip_with]. rewrite IH by (simpl in Hlen; lia). f_equal. ring.
Qed.

Lemma scale_undo c (p : vector) :
  c ≠ 0 → (fun x => x / (/ c)) <$> ((fun x => x / c) <$> p) = p.
Proof.
  intros Hc. rewrite <- list_fmap_compose.
  etrans; [|apply list_fmap_id]. apply list_fmap_ext. intros _ x _.
  unfold compose. simpl. field. split; [done|]. discriminate.
Qed.

(** What holds of all rows before elimination holds of all rows after
    it ... *)
Lemma gauss_jordan_forward Φ L columns done todo m :
  row_closed Φ →
  gauss_jordan columns done todo = Some m →
  Forall (fun r => length r = L) done →
  Forall (fun r => length r = L) todo →
  Forall Φ done → Forall Φ todo → Forall Φ m.
Proof.
  intros [Hscale Hsub]. revert done todo.
  induction columns as [|c columns IH]; intros done todo.
  - by intros [= <-].
  - cbn [gauss_jordan]. intros Hgj Hld Hlt Hd Ht.
    destruct (find_pivot c todo) as [[p others]|] eqn:Hfind; [|done].
    cbn in Hgj.
    apply (find_pivot_Forall _ _ _ _ _ Hfind) in Hlt as [Hlp Hlo].
    apply (find_pivot_Forall _ _ _ _ _ Hfind) in Ht as [Hp Ho].
    set (π := (fun x => x / nth c p 0) <$> p) in *.
    assert (length π = L) as Hlπ by (unfold π; by rewrite length_fmap).
    assert (∀ rs, Forall (fun r => length r = L) rs → Forall Φ rs →
              Forall (fun r => length r = L) (row_sub c π <$> rs)
              ∧ Forall Φ (row_sub c π <$> rs)) as Hrows.
    { intros rs Hl HΦ. rewrite !Forall_fmap. split.
      - eapply Forall_impl; [exact Hl|]. intros r Hr. cbn in *.
        unfold row_sub. rewrite length_zip_with. lia.
      - rewrite Forall_forall in Hl, HΦ. apply Forall_forall. intros r Hr.
        cbn. unfold row_sub. apply Hsub; [rewrite Hlπ; by apply Hl| by apply HΦ|].
        by apply Hscale. }
    destruct (Hrows _ Hld Hd) as [? ?]. destruct (Hrows _ Hlo Ho) as [? ?].
    apply (IH _ _ Hgj); rewrite ?Forall_app; try done.
    + split; [done|]. by constructor.
    + split; [done|]. constructor; [|done]. by apply Hscale.
Qed.

Lemma find_pivot_length c todo p others :
  find_pivot c todo = Some (p, others) → length todo = S (length others).
Proof.
  revert p others. induction todo as [|r rest IH]; intros p others; [done|].
  cbn [find_pivot]. case_decide.
  - destruct (find_pivot c rest) as [[p' others']|]; [|done].
    cbn. intros [= <- <-]. cbn. f_equal. by eapply IH.
  - by intros [= <- <-].
Qed.

Lemma find_pivot_None c todo :
  find_pivot c todo = None → Forall (fun ρ => nth c ρ 0 = 0) todo.
Proof.
  induction todo as [|r rest IH]; [constructor|].
  cbn [find_pivot]. case_decide; [|done].
  destruct (find_pivot c rest) as [[p' others']|]; [done|].
  intros _. constructor; [done|]. by apply IH.
Qed.

Lemma nth_fmap_0 (f : Qc → Qc) (l : vector) j :
  f 0 = 0 → nth j (f <$> l) 0 = f (nth j l 0).
Proof.
  intros Hf. revert j. induction l as [|x l IH]; intros [|j]; cbn; auto.
Qed.

Lemma nth_zip_with_0 (g : Qc → Qc → Qc) (l k : vector) j :
  g 0 0 = 0 → length l = length k →
  nth j (zip_with g l k) 0 = g (nth j l 0) (nth j k 0).
Proof.
  intros Hg. revert k j. induction l as [|x l IH]; intros [|y k] [|j] Hlen;
    try discriminate Hlen; cbn; auto.
Qed.

Lemma nth_row_sub c (π ρ : vector) j :
  length ρ = length π →
  nth j (row_sub c π ρ) 0 = nth j ρ 0 - nth c ρ 0 * nth j π 0.
Proof.
  intros Hlen. unfold row_sub. rewrite nth_zip_with_0; [done|ring|done].
Qed.

Lemma nth_scaled c (p : vector) j :
  nth j ((fun x => x / c) <$> p) 0 = nth j p 0 / c.
Proof. apply (nth_fmap_0 (fun x => x / c)). unfold Qcdiv. ring. Qed.

Section step.

(** One round of elimination on column [k] with the pivot row [p]. *)
Context (L k : nat) (done todo others : matrix) (p : vector).
Context (Hfind : find_pivot k todo = Some (p, others)).
Context (Hld : Forall (fun r => length r = L) done).
Context (Hlt : Forall (fun r => length r = L) todo).

Let π : vector := (fun x => x / nth k p 0) <$> p.

Lemma step_pivot_length : length π = L.
Proof using Hfind Hlt.
  unfold π. rewrite length_fmap.
  by apply (find_pivot_Forall _ _ _ _ _ Hfind) in Hlt as [? _].
Qed.

Lemma step_shape (rs : matrix) :
  Forall (fun r => length r = L) rs →
  Forall (fun r => length r = L) (row_sub k π <$> rs).
Proof using Hfind Hlt.
  intros Hl. rewrite Forall_fmap.
  eapply Forall_impl; [exact Hl|]. intros r Hr. cbn in *.
  unfold row_sub. rewrite length_zip_with, step_pivot_length. lia.
Qed.

Lemma step_shape_done :
  Forall (fun r => length r = L) ((row_sub k π <$> done) ++ [π]).
Proof using Hfind Hld Hlt.
  apply Forall_app. split; [by apply step_shape|].
  constructor; [apply step_pivot_length|done].
Qed.

Lemma step_shape_todo :
  Forall (fun r => length r = L) (row_sub k π <$> others).
Proof using Hfind Hlt.
  apply step_shape.
  by apply (find_pivot_Forall _ _ _ _ _ Hfind) in Hlt as [_ ?].
Qed.

(** What holds of all rows after the round held of all rows before. *)
Lemma step_backward Φ :
  row_closed Φ →
  Forall Φ ((row_sub k π <$> done) ++ [π]) →
  Forall Φ (row_sub k π <$> others) →
  Forall Φ done ∧ Forall Φ todo.
Proof using Hfind Hld Hlt.
  intros [Hscale Hsub] Hd' Ht'.
  pose proof (find_pivot_nonzero _ _ _ _ Hfind) as Hnz.
  pose proof step_pivot_length as Hlπ.
  apply (find_pivot_Forall _ _ _ _ _ Hfind) in Hlt as [Hlp Hlo].
  rewrite (find_pivot_Forall _ _ _ _ _ Hfind).
  apply Forall_app in Hd' as [Hd' Hπ]. apply Forall_cons in Hπ as [Hπ _].
  assert (∀ rs, Forall (fun r => length r = L) rs →
            Forall Φ (row_sub k π <$> rs) → Forall Φ rs) as Hback.
  { intros rs Hl HΦ. rewrite Forall_fmap in HΦ.
    rewrite Forall_forall in Hl, HΦ. apply Forall_forall. intros r Hr.
    rewrite <- (row_sub_undo (nth k r 0) r π) by (rewrite Hlπ; by apply Hl).
    apply Hsub; [|by apply HΦ|done].
    rewrite length_zip_with, Hlπ, (Hl r Hr). lia. }
  split; [by apply Hback|]. split; [|by apply Hback].
  rewrite <- (scale_undo (nth k p 0) p Hnz). by apply Hscale.
Qed.

(** The round extends the unit vectors by one column. *)
Lemma step_pivoted :
  length done = k →
  pivoted k done todo →
  pivoted (S k) ((row_sub k π <$> done) ++ [π]) (row_sub k π <$> others).
Proof using Hfind Hld Hlt.
  intros Hlen [Hd Ht].
  pose proof (find_pivot_nonzero _ _ _ _ Hfind) as Hnz.
  pose proof step_pivot_length as Hlπ.
  apply (find_pivot_Forall _ _ _ _ _ Hfind) in Hlt as [Hlp Hlo].
  apply (find_pivot_Forall _ _ _ _ _ Hfind) in Ht as [Hp Ho].
  assert (∀ j, (j < k)%nat → nth j π 0 = 0) as Hπ0.
  { intros j Hj. unfold π. rewrite nth_scaled, (Hp j Hj).
    unfold Qcdiv. ring. }
  assert (nth k π 0 = 1) as Hπ1.
  { unfold π. rewrite nth_scaled. by field. }
  split.
  - intros i ρ' j Hi Hj.
    destruct (decide (i < k)%nat) as [Hik|Hik].
    + rewrite lookup_app_l in Hi by (rewrite length_fmap; lia).
      rewrite list_lookup_fmap in Hi.
      destruct (done !! i) as [ρ|] eqn:Hρ; [|done].
      injection Hi as <-.
      assert (length ρ = length π) as Hlρ.
      { rewrite Hlπ. eapply (proj1 (Forall_lookup _ _) Hld). exact Hρ. }
      rewrite nth_row_sub by done.
      destruct (decide (j = k)) as [->|Hjk].
      * rewrite Hπ1. case_decide; [lia|]. ring.
      * rewrite (Hπ0 j) by lia. rewrite (Hd i ρ j Hρ) by lia. ring.
    + rewrite lookup_app_r in Hi by (rewrite length_fmap; lia).
      rewrite length_fmap in Hi.
      destruct (i - length done)%nat as [|?] eqn:Hdiff; [|done].
      injection Hi as <-.
      assert (i = k) as -> by lia.
      destruct (decide (j = k)) as [->|Hjk].
      * rewrite Hπ1. by case_decide.
      * rewrite (Hπ0 j) by lia. case_decide; [lia|done].
  - apply Forall_fmap. rewrite Forall_forall in Ho, Hlo.
    apply Forall_forall. intros ρ Hρ j Hj. cbn.
    rewrite nth_row_sub by (rewrite Hlπ; by apply Hlo).
    destruct (decide (j = k)) as [->|Hjk].
    + rewrite Hπ1. ring.
    + rewrite (Hπ0 j), (Ho ρ Hρ j) by lia. ring.
Qed.

End step.

(** ... and the other way round, when every row is used for a column. *)
Lemma gauss_jordan_backward Φ L columns done todo m :
  row_closed Φ →
  gauss_jordan columns done todo = Some m →
  length todo = length columns →
  Forall (fun r => length r = L) done →
  Forall (fun r => length r = L) todo →
  Forall Φ m → Forall Φ done ∧ Forall Φ todo.
Proof.
  intros HΦ. revert done todo.
  induction columns as [|c columns IH]; intros done todo.
  - intros [= <-] Hlen _ _ Hm. split; [done|]. by destruct todo.
  - cbn [gauss_jordan]. intros Hgj Hlen Hld Hlt Hm.
    destruct (find_pivot c todo) as [[p others]|] eqn:Hfind; [|done].
    cbn in Hgj.
    pose proof (find_pivot_length _ _ _ _ Hfind) as Hlen'.
    destruct (IH _ _ Hgj) as [Hd' Ht']; try done.
    + rewrite length_fmap. cbn in Hlen. lia.
    + by eapply step_shape_done.
    + by eapply step_shape_todo.
    + by eapply step_backward.
Qed.

Lemma gauss_jordan_pivoted L cnt k done todo m :
  gauss_jordan (seq k cnt) done todo = Some m →
  length done = k →
  Forall (fun r => length r = L) done →
  Forall (fun r => length r = L) todo →
  pivoted k done todo →
  length m = (k + cnt)%nat ∧ pivoted (k + cnt) m [].
Proof.
  revert k done todo. induction cnt as [|cnt IH]; intros k done todo.
  - intros [= <-] Hlen _ _ [Hd _]. rewrite Nat.add_0_r.
    split; [done|]. split; [done|constructor].
  - cbn [seq gauss_jordan]. intros Hgj Hlen Hld Hlt Hpiv.
    destruct (find_pivot k todo) as [[p others]|] eqn:Hfind; [|done].
    cbn in Hgj.
    replace (k + S cnt)%nat with (S k + cnt)%nat by lia.
    apply (IH (S k) _ _ Hgj).
    + rewrite length_app, length_fmap. cbn. lia.
    + by eapply step_shape_done.
    + by eapply step_shape_todo.
    + by eapply step_pivoted.
Qed.

Lemma nth_fmap_default {A B} (f : A → B) (l : list A) (d : A) i :
  nth i (f <$> l) (f d) = f (nth i l d).
Proof. revert i. induction l as [|x l IH]; intros [|i]; cbn; auto. Qed.

Lemma nth_col j (M : matrix) i : nth i (col j M) 0 = nth j (nth i M []) 0.
Proof.
  unfold col. rewrite <- (nth_fmap_default (fun r => nth j r 0) M []).
  by destruct j.
Qed.

(** Row [i] of the identity picks row [i] of a matrix. *)
Lemma vecmat_unit_row (M : matrix) i c :
  (i < length M)%nat →
  Forall (fun r => length r = c) M →
  vecmat ((fun j => if decide (i = j) then 1 else 0) <$> seq 0 (length M)) M
  = nth i M [].
Proof.
  intros Hi HM. unfold vecmat.
  assert (length (nth i M []) = c) as Hrow.
  { destruct (lookup_lt_is_Some_2 M i Hi) as [r Hr].
    rewrite (nth_lookup_Some _ _ _ _ Hr).
    by eapply (proj1 (Forall_lookup _ _) HM). }
  rewrite (ncols_rows M c HM) by (intros ->; simpl in Hi; lia).
  etrans; [|apply fmap_nth_seq_0]. rewrite Hrow.
  apply list_fmap_ext. intros _ j _.
  rewrite dot_indicator. case_decide; [|lia].
  by rewrite Nat.sub_0_r, nth_col.
Qed.

Lemma pivoted_identity n (m : matrix) :
  length m = n →
  Forall (fun r => length r = (n + n)%nat) m →
  pivoted n m [] →
  take n <$> m = identity n.
Proof.
  intros Hlen Hrows [Hpiv _].
  apply (list_eq_same_length _ _ n);
    [apply length_identity|by rewrite length_fmap|].
  intros i x y Hi Hx Hy.
  rewrite list_lookup_fmap in Hx.
  destruct (m !! i) as [ρ|] eqn:Hρ; [|done]. injection Hx as <-.
  unfold identity in Hy. rewrite list_lookup_fmap in Hy.
  destruct (seq 0 n !! i) as [i'|] eqn:Hi'; [|done]. injection Hy as <-.
  apply lookup_seq in Hi' as [-> _]. cbn [Nat.add].
  assert (length (take n ρ) = n) as Htake.
  { rewrite length_take. eapply (proj1 (Forall_lookup _ _)) in Hrows; [|exact Hρ].
    cbn in Hrows. lia. }
  etrans; [symmetry; apply fmap_nth_seq_0|]. rewrite Htake.
  apply list_fmap_ext. intros k j Hj. apply lookup_seq in Hj as [-> Hk].
  cbn [Nat.add]. rewrite <- (Hpiv i ρ k Hρ Hk).
  rewrite !nth_lookup, lookup_take. by case_decide.
Qed.

(** What a returned inverse satisfies. *)
Lemma np_linalg_inv_ok (a w : matrix) :
  np_linalg_inv a = Ok w →
  length a ≠ 0%nat
  ∧ Forall (fun r => length r = length a) a
  ∧ matmul a w = identity (length a)
  ∧ matmul w a = identity (length a)
  ∧ Forall (fun r => length r = length a) w.
Proof.
  unfold np_linalg_inv. case_bool_decide as Hsq; [|done].
  destruct Hsq as [Hn Hsq].
  destruct (gauss_jordan _ _ _) as [m|] eqn:Hgj; [|done].
  intros [= <-]. set (n := length a) in *.
  pose proof (augmented_shape a n Hsq) as Haug.
  pose proof (gauss_jordan_shape _ _ _ _ _ Hgj (Forall_nil_2 _) Haug) as Hm.
  destruct (gauss_jordan_pivoted _ _ _ _ _ _ Hgj eq_refl (Forall_nil_2 _) Haug)
    as [Hlen Hpiv].
  { split; [intros i ρ j Hi; done|].
    apply Forall_forall. intros ρ _ j Hj. lia. }
  cbn [Nat.add] in Hlen, Hpiv.
  pose proof (pivoted_identity n m Hlen Hm Hpiv) as Hid.
  assert (Forall (fun r => length r = n) (drop n <$> m)) as Hw.
  { apply Forall_fmap. eapply Forall_impl; [exact Hm|].
    intros r Hr. cbn in *. rewrite length_drop. lia. }
  assert (length (drop n <$> m) = n) as Hlenw by (by rewrite length_fmap).
  assert (∀ i r e, a !! i = Some r → identity n !! i = Some e →
            take n (r ++ e) = r ∧ drop n (r ++ e) = e
            ∧ e = (fun j => if decide (i = j) then 1 else 0) <$> seq 0 n)
    as Hparts.
  { intros i r e Hr He.
    assert (length r = n) as Hlr
      by (by eapply (proj1 (Forall_lookup _ _) Hsq)).
    rewrite take_app_length', drop_app_length' by done.
    split; [done|]. split; [done|].
    unfold identity in He. rewrite list_lookup_fmap in He.
    destruct (seq 0 n !! i) as [i'|] eqn:Hi'; [|done]. injection He as <-.
    by apply lookup_seq in Hi' as [-> _]. }
  repeat split; try done.
  - (* a @ w: the relation of the last rows holds of the first ones *)
    destruct (gauss_jordan_backward _ (n + n)%nat _ _ _ _
                (right_half_closed n (drop n <$> m)) Hgj) as [_ Hfirst];
      [by rewrite length_zip_with, length_identity, length_seq; lia
      |constructor|done| |].
    + apply Forall_lookup. intros i ρ Hρ.
      assert (take n ρ = (fun j => if decide (i = j) then 1 else 0) <$> seq 0 n)
        as ->.
      { assert ((take n <$> m) !! i = Some (take n ρ)) as Ht
          by (by rewrite list_lookup_fmap, Hρ).
        rewrite Hid in Ht. unfold identity in Ht.
        rewrite list_lookup_fmap in Ht.
        destruct (seq 0 n !! i) as [i'|] eqn:Hi'; [|done]. injection Ht as <-.
        by apply lookup_seq in Hi' as [-> _]. }
      pose proof (vecmat_unit_row (drop n <$> m) i n) as Hv.
      rewrite Hlenw in Hv. rewrite Hv; [|rewrite <- Hlen; by eapply lookup_lt_Some|done].
      by rewrite (nth_lookup_Some _ _ _ (drop n ρ))
        by (by rewrite list_lookup_fmap, Hρ).
    + apply (list_eq_same_length _ _ n);
        [apply length_identity|by rewrite length_matmul|].
      intros i x e Hi Hx He. unfold matmul in Hx.
      rewrite list_lookup_fmap in Hx.
      destruct (a !! i) as [r|] eqn:Hr; [|done]. injection Hx as <-.
      destruct (Hparts i r e Hr He) as (Ht & Hd & _).
      eapply (proj1 (Forall_lookup _ _)) in Hfirst;
        [|by apply lookup_zip_with_Some; eauto].
      cbn in Hfirst. by rewrite Ht, Hd in Hfirst.
  - (* w @ a: the relation of the first rows holds of the last ones *)
    pose proof (gauss_jordan_forward _ (n + n)%nat _ _ _ _
                  (left_half_closed n a) Hgj (Forall_nil_2 _) Haug
                  (Forall_nil_2 _)) as Hlast.
    unfold matmul. rewrite <- Hid, <- list_fmap_compose.
    symmetry. apply Forall_fmap_ext_1. apply Hlast.
    apply Forall_lookup. intros i ρ Hρ.
    apply lookup_zip_with_Some in Hρ as (r & e & -> & Hr & He).
    destruct (Hparts i r e Hr He) as (-> & -> & ->).
    pose proof (vecmat_unit_row a i n) as Hv. fold n in Hv.
    rewrite Hv; [|by eapply lookup_lt_Some|done].
    by rewrite (nth_lookup_Some _ _ _ r).
Qed.


(** ** Elimination finds the inverse whenever there is one *)

Lemma dot_app (x y x' y' : vector) :
  length x = length x' → dot (x ++ y) (x' ++ y') = dot x x' + dot y y'.
Proof.
  revert x'. induction x as [|a x IH]; intros [|a' x'] Hlen;
    try discriminate Hlen.
  - cbn [app]. rewrite dot_nil_l. ring.
  - cbn [app]. rewrite !dot_cons, IH by (simpl in Hlen; lia). ring.
Qed.

Lemma dot_replicate_0_r (u : vector) k : dot u (replicate k 0) = 0.
Proof.
  revert k. induction u as [|x u IH]; intros [|k]; cbn [replicate];
    rewrite ?dot_nil_l, ?dot_nil_r, ?dot_cons; try done.
  rewrite IH. ring.
Qed.

Lemma dot_fmap_zero_r {J} (u : vector) (l : list J) :
  dot u ((fun _ => 0) <$> l) = 0.
Proof.
  revert l. induction u as [|x u IH]; intros [|j l];
    rewrite ?fmap_cons, ?dot_nil_l, ?dot_nil_r, ?dot_cons; try done.
  rewrite IH. ring.
Qed.

(** A row that is zero on the first entries does not see them. *)
Lemma dot_vanish (l u : vector) k :
  (∀ j, (j < length u)%nat → nth j l 0 = 0) →
  dot l (u ++ replicate k 0) = 0.
Proof.
  revert l. induction u as [|y u IH]; intros l Hl.
  - apply dot_replicate_0_r.
  - destruct l as [|x l]; [done|]. cbn [app]. rewrite dot_cons.
    assert (x = 0) as -> by (apply (Hl 0%nat); cbn; lia).
    rewrite IH; [ring|].
    intros j Hj. apply (Hl (S j)). cbn. lia.
Qed.

Lemma annihilated_closed n (v : vector) :
  row_closed (fun ρ => dot (take n ρ) v = 0).
Proof.
  split.
  - intros c u Hu. rewrite <- fmap_take, dot_scale, Hu. unfold Qcdiv. ring.
  - intros f u π Hlen Hu Hπ.
    rewrite zip_with_take, dot_sub, Hu, Hπ; [ring|].
    rewrite !length_take. lia.
Qed.

(** When no row is left with an entry in column [k], some vector that is
    not zero is annihilated by the left halves of all rows. *)
Lemma stuck_vector n k (done todo : matrix) :
  length done = k → (k < n)%nat →
  Forall (fun r => length r = (n + n)%nat) done →
  Forall (fun r => length r = (n + n)%nat) todo →
  pivoted k done todo →
  Forall (fun ρ => nth k ρ 0 = 0) todo →
  ∃ v, length v = n ∧ nth k v 0 = 1
       ∧ Forall (fun ρ => dot (take n ρ) v = 0) done
       ∧ Forall (fun ρ => dot (take n ρ) v = 0) todo.
Proof.
  intros Hlen Hk Hld Hlt [Hd Ht] Hzero.
  set (first := (fun ρ => - nth k ρ 0) <$> done).
  assert (length first = k) as Hfirst by (unfold first; by rewrite length_fmap).
  exists (first ++ 1 :: replicate (n - S k) 0). repeat split.
  - rewrite length_app, Hfirst. cbn. rewrite length_replicate. lia.
  - rewrite <- Hfirst at 1. apply nth_middle.
  - apply Forall_lookup. intros i ρ Hρ.
    assert (length ρ = (n + n)%nat) as Hlρ
      by (by eapply (proj1 (Forall_lookup _ _) Hld)).
    assert (i < k)%nat as Hi by (rewrite <- Hlen; by eapply lookup_lt_Some).
    assert (take n ρ !! k = Some (nth k ρ 0)) as Hmid.
    { rewrite lookup_take_lt by done.
      destruct (nth_lookup_or_length ρ k 0) as [->|]; [done|lia]. }
    rewrite <- (take_drop_middle _ _ _ Hmid).
    rewrite dot_app by (rewrite length_take, length_take, Hfirst; lia).
    rewrite dot_cons, dot_replicate_0_r.
    assert (take k (take n ρ)
            = (fun j => if decide (i = j) then 1 else 0) <$> seq 0 k) as ->.
    { etrans; [symmetry; apply fmap_nth_seq_0|].
      rewrite !length_take, Hlρ.
      replace (k `min` (n `min` (n + n)))%nat with k by lia.
      apply list_fmap_ext. intros q j Hj. apply lookup_seq in Hj as [-> Hq].
      cbn [Nat.add]. rewrite <- (Hd i ρ q Hρ Hq).
      rewrite !nth_lookup, !lookup_take_lt by lia. done. }
    rewrite dot_indicator. case_decide; [|lia].
    rewrite Nat.sub_0_r. unfold first.
    rewrite (nth_lookup_Some _ _ _ (- nth k ρ 0))
      by (by rewrite list_lookup_fmap, Hρ).
    ring.
  - rewrite Forall_forall in Ht, Hzero. apply Forall_forall. intros ρ Hρ.
    change (first ++ 1 :: replicate (n - S k) 0)
      with (first ++ [1] ++ replicate (n - S k) 0).
    rewrite app_assoc. apply dot_vanish. intros j Hj.
    rewrite length_app, Hfirst in Hj. cbn in Hj.
    rewrite nth_lookup, lookup_take_lt, <- nth_lookup by lia.
    destruct (decide (j = k)) as [->|Hjk]; [by apply Hzero|].
    apply (Ht ρ Hρ). lia.
Qed.

Lemma gauss_jordan_stuck n cnt k (done todo : matrix) :
  gauss_jordan (seq k cnt) done todo = None →
  length done = k → (k + cnt <= n)%nat →
  Forall (fun r => length r = (n + n)%nat) done →
  Forall (fun r => length r = (n + n)%nat) todo →
  pivoted k done todo →
  ∃ v j, length v = n ∧ nth j v 0 = 1
         ∧ Forall (fun ρ => dot (take n ρ) v = 0) done
         ∧ Forall (fun ρ => dot (take n ρ) v = 0) todo.
Proof.
  revert k done todo. induction cnt as [|cnt IH]; intros k done todo;
    [intros H; discriminate H|].
  cbn [seq gauss_jordan]. intros Hgj Hlen Hk Hld Hlt Hpiv.
  destruct (find_pivot k todo) as [[p others]|] eqn:Hfind.
  - cbn in Hgj.
    destruct (IH (S k) _ _ Hgj) as (v & j & Hv & Hj & Hd' & Ht').
    + rewrite length_app, length_fmap. cbn. lia.
    + lia.
    + by eapply step_shape_done.
    + by eapply step_shape_todo.
    + by eapply step_pivoted.
    + exists v, j. split; [done|]. split; [done|].
      eapply (step_backward _ _ _ _ _ _ Hfind Hld Hlt _
                (annihilated_closed n v)); done.
  - destruct (stuck_vector n k done todo) as (v & Hv & Hk1 & Hd & Ht);
      try done; [lia|by apply find_pivot_None|].
    by exists v, k.
Qed.

(** A square matrix with a left inverse is inverted. *)
Lemma np_linalg_inv_complete (a w : matrix) :
  length a ≠ 0%nat →
  Forall (fun r => length r = length a) a →
  matmul w a = identity (length a) →
  ∃ w', np_linalg_inv a = Ok w'.
Proof.
  intros Hn Hsq Hwa. unfold np_linalg_inv.
  rewrite bool_decide_eq_true_2 by done. set (n := length a) in *.
  destruct (gauss_jordan _ _ _) as [m|] eqn:Hgj; [by eexists|]. exfalso.
  pose proof (augmented_shape a n Hsq) as Haug.
  destruct (gauss_jordan_stuck n n 0 [] _ Hgj eq_refl (Nat.le_refl _)
              (Forall_nil_2 _) Haug) as (v & j & Hv & Hj & _ & Hrows).
  { split; [intros i ρ q Hi; done|].
    apply Forall_forall. intros ρ _ q Hq. lia. }
  (* the rows of [a] annihilate [v], so [v = (w @ a) v = w (a v)] is zero *)
  assert (matvec a v = (fun _ => 0) <$> a) as Hav.
  { unfold matvec. apply list_eq_same_length with n;
      [by rewrite length_fmap|by rewrite length_fmap|].
    intros i x y Hi Hx Hy. rewrite list_lookup_fmap in Hx, Hy.
    destruct (a !! i) as [r|] eqn:Hr; [|done].
    injection Hx as <-. injection Hy as <-.
    destruct (lookup_lt_is_Some_2 (identity n) i) as [e He];
      [by rewrite length_identity|].
    eapply (proj1 (Forall_lookup _ _)) in Hrows;
      [|by apply lookup_zip_with_Some; eauto].
    cbn in Hrows. rewrite take_app_length' in Hrows; [done|].
    symmetry. by eapply (proj1 (Forall_lookup _ _) Hsq). }
  assert (v = (fun _ => 0) <$> w) as Hzero.
  { rewrite <- (matvec_identity v), Hv, <- Hwa, matvec_matmul, Hav.
    - unfold matvec. apply list_fmap_ext. intros _ r _.
      apply dot_fmap_zero_r.
    - rewrite (ncols_rows a n Hsq); [done|]. intros ->. done. }
  rewrite Hzero in Hj.
  rewrite (nth_fmap_default (fun _ : vector => 0) w [] j) in Hj.
  discriminate Hj.
Qed.

(** The inverse is found exactly when there is one. *)
Lemma np_linalg_inv_invertible (a : matrix) :
  invertible a → ∃ w, np_linalg_inv a = Ok w.
Proof.
  intros (Hn & Hsq & w & _ & Hl). by eapply np_linalg_inv_complete.
Qed.

Lemma np_linalg_inv_singular (a : matrix) :
  ¬ invertible a → np_linalg_inv a = Raise LinAlgError.
Proof.
  intros Hsing. destruct (np_linalg_inv a) as [w|e] eqn:Hinv.
  - exfalso. apply Hsing.
    destruct (np_linalg_inv_ok _ _ Hinv) as (? & ? & ? & ? & _).
    repeat split; try done. by exists w.
  - revert Hinv. unfold np_linalg_inv.
    repeat (case_bool_decide || case_match); congruence.
Qed.

End inverse_facts.

(** * Shapes of the Vandermonde matrix *)

Section vandermonde_shape.

Lemma comprehension_Forall {A B} (f : A → result B) (Q : B → Prop) l bs :
  comprehension f l = Ok bs →
  (∀ a b, a ∈ l → f a = Ok b → Q b) →
  Forall Q bs.
Proof.
  intros H%comprehension_inv HQ.
  induction H as [|a b l bs Hab _ IH]; constructor.
  - eapply HQ; [apply list_elem_of_here|done].
  - apply IH. intros a' b' Ha'. apply HQ. by apply list_elem_of_further.
Qed.

Lemma comprehension_length {A B} (f : A → result B) l bs :
  comprehension f l = Ok bs → length bs = length l.
Proof. intros H%comprehension_inv. symmetry. by eapply Forall2_length. Qed.

Lemma for_loop_invariant {A S} (I : S → Prop) (l : list A)
    (body : S → A → result S) s r :
  I s →
  (∀ s a s', a ∈ l → I s → body s a = Ok s' → I s') →
  for_loop l body s = Ok r → I r.
Proof.
  revert s. induction l as [|a l IH]; intros s Hs Hbody; simpl.
  - by intros [= <-].
  - destruct (body s a) as [s'|] eqn:Hsa; [|done]. simpl.
    apply IH.
    + eapply Hbody; [apply list_elem_of_here| |]; done.
    + intros s1 a1 s2 Ha1. apply Hbody. by apply list_elem_of_further.
Qed.

Lemma column_shape points grad i idx j c :
  column points grad i idx j = Ok c →
  length c = length points ∧ Forall (fun p => p ≠ []) points.
Proof.
  unfold column.
  destruct (first_coordinate points) as [xs|] eqn:Hxs; [|done].
  destruct (last_coordinate points) as [ys|] eqn:Hys; [|done].
  simpl. intros [= <-]. split.
  - unfold np_multiply, np_power.
    rewrite length_zip_with, !length_fmap.
    apply comprehension_length in Hxs, Hys. lia.
  - apply comprehension_inv in Hxs. clear -Hxs.
    induction Hxs as [|p r points xs Hp _ IH]; constructor; [|done].
    by destruct p.
Qed.

Lemma hstack_length (arrays : list matrix) V n :
  hstack arrays = Ok V →
  Forall (fun c => length c = n) arrays →
  length V = n.
Proof.
  destruct arrays as [|a rest]; [done|]. simpl.
  case_bool_decide as Hsame; [|done]. intros [= <-] Hall.
  apply Forall_cons in Hall as [Ha Hrest]. clear Hsame.
  revert a Ha. induction Hrest as [|b rest Hb _ IH]; intros a Ha; [done|].
  simpl. apply IH. rewrite length_zip_with. lia.
Qed.

Lemma vandermonde_matrix_length cell degree points V :
  vandermonde_matrix cell degree points false = Ok V →
  length V = length points.
Proof.
  unfold vandermonde_matrix.
  destruct (for_loop _ _ _) as [m|] eqn:Hloop; [|done]. simpl.
  intros HV. apply (hstack_length _ _ _ HV).
  revert Hloop.
  apply (for_loop_invariant (Forall (fun c => length c = length points))).
  - constructor.
  - intros acc i acc' _ Hacc.
    destruct (comprehension _ _) as [new|] eqn:Hnew; [|done].
    simpl. intros [= <-]. apply Forall_app. split; [done|].
    apply (comprehension_Forall _ _ _ _ Hnew).
    intros j c _ Hc. by apply column_shape in Hc as [? _].
Qed.

Lemma vandermonde_matrix_points cell degree points V :
  (0 <= degree)%Z →
  vandermonde_matrix cell degree points false = Ok V →
  Forall (fun p => p ≠ []) points.
Proof.
  intros Hdeg. unfold vandermonde_matrix.
  replace (degree + 1)%Z with (Z.of_nat (S (Z.to_nat degree))) by lia.
  rewrite py_range_of_nat. cbn [seq fmap list_fmap for_loop].
  replace ((Z.of_nat (dim cell) - 1) * Z.of_nat 0 + 1)%Z with 1%Z by lia.
  change (py_range 1) with [0%Z]. cbn [comprehension].
  destruct (column points false (Z.of_nat 0) 0 0) as [c|] eqn:Hc; [|done].
  intros _. by apply column_shape in Hc as [_ ?].
Qed.

End vandermonde_shape.

(** * Properties of the scalar element *)

Section finite_element_facts.

Lemma is_ok_inv {A} (r : result A) : is_ok r = true → ∃ a, r = Ok a.
Proof. destruct r as [a|e]; [by exists a|done]. Qed.

Lemma VectorFiniteElement_init_inv fe ve :
  VectorFiniteElement.__init__ fe = Ok ve →
  VectorFiniteElement.finite_element ve = fe.
Proof.
  unfold VectorFiniteElement.__init__.
  case_decide; [done|]. cbn [mbind result_bind].
  destruct (for_loop _ _ _) as [en|]; [|done]. cbn [mbind result_bind].
  destruct (comprehension _ _) as [npe|]; [|done]. cbn [mbind result_bind].
  by intros [= <-].
Qed.

Lemma FiniteElement_init_inv cell degree nodes entity_nodes el :
  FiniteElement.__init__ cell degree nodes entity_nodes = Ok el →
  ∃ V, vandermonde_matrix cell degree nodes false = Ok V
       ∧ np_linalg_inv V = Ok (FiniteElement.basis_coefs el)
       ∧ FiniteElement.cell el = cell
       ∧ FiniteElement.degree el = degree
       ∧ FiniteElement.nodes el = nodes
       ∧ FiniteElement.node_count el = length nodes.
Proof.
  unfold FiniteElement.__init__.
  destruct (match entity_nodes with Some _ => _ | None => _ end)
    as [npe|]; [|done].
  cbn [mbind result_bind].
  destruct (vandermonde_matrix cell degree nodes false) as [V|]; [|done].
  cbn [mbind result_bind].
  destruct (np_linalg_inv V) as [W|] eqn:HW; [|done].
  intros [= <-]. by exists V.
Qed.

Lemma vandermonde_matrix_values cell degree points :
  (dim cell = 1 ∨ dim cell = 2)%nat →
  (0 <= degree)%Z →
  Forall (fun p => p ≠ []) points →
  vandermonde_matrix cell degree points false
  = Ok ((fun p => (fun e => eval_monomial e p)
                    <$> monomial_basis (dim cell) (Z.to_nat degree))
          <$> points).
Proof.
  intros Hdim Hdeg Hpoints.
  remember (Z.to_nat degree) as n eqn:Hn.
  assert (degree = Z.of_nat n) as -> by lia.
  rewrite vandermonde_matrix_values_loop by (done || lia).
  rewrite loop_exponents_monomial_basis by lia. done.
Qed.

End finite_element_facts.

(** X27.  In exact arithmetic, for every scalar element that was
    constructed, the value tabulation at the element's own nodes is the
    identity matrix of size [node_count]: each basis function is 1 at its
    own node and 0 at every other node.  The rounding error of a float64
    run is not covered. *)
Theorem tabulate_nodes_identity cell degree nodes entity_nodes el :
  FiniteElement.__init__ cell degree nodes entity_nodes = Ok el →
  FiniteElement.tabulate el (FiniteElement.nodes el) false
  = Ok (identity (FiniteElement.node_count el)).
Proof.
  intros (V & HV & HW & Hcell & Hdeg & Hnodes & Hcount)%FiniteElement_init_inv.
  unfold FiniteElement.tabulate. rewrite Hcell, Hdeg, Hnodes, Hcount, HV.
  cbn [mbind result_bind].
  destruct (np_linalg_inv_ok _ _ HW) as (_ & Hsq & Hr & Hl & _).
  assert (length (FiniteElement.basis_coefs el) = length V) as Hlen
    by (by rewrite <- (length_matmul _ V), Hl, length_identity).
  unfold np_matmul. rewrite bool_decide_eq_true_2 by (by rewrite Hlen).
  by rewrite Hr, (vandermonde_matrix_length _ _ _ _ HV).
Qed.

Lemma tabulate_nodes_identity_witness :
  ∃ el, FiniteElement.__init__ ReferenceTriangle 2 triangle_P2_nodes None = Ok el
        ∧ FiniteElement.tabulate el (FiniteElement.nodes el) false
          = Ok (identity 6).
Proof.
  destruct (is_ok_inv
              (FiniteElement.__init__ ReferenceTriangle 2 triangle_P2_nodes None))
    as [el Hel]; [vm_compute; reflexivity|].
  exists el. split; [exact Hel|].
  pose proof (tabulate_nodes_identity _ _ _ _ _ Hel) as Htab.
  apply FiniteElement_init_inv in Hel as (_ & _ & _ & _ & _ & _ & Hcount).
  by rewrite Hcount in Htab.
Defined.

(** * The power rule is the derivative

    The gradients of [grad_monomial] are formed with [power_rule].  Seen
    in the real numbers, they are the partial derivatives of the
    monomial. *)

Section analytic_gradient.

Lemma Qc2R_0 : Qc2R 0 = 0%R.
Proof. unfold Qc2R, Q2R. simpl. field. Qed.

Lemma Qc2R_mult a b : Qc2R (a * b) = (Qc2R a * Qc2R b)%R.
Proof.
  unfold Qc2R. rewrite <- Q2R_mult. apply Qeq_eqR. simpl.
  apply Qred_correct.
Qed.

Lemma Qc2R_pow a n : Qc2R (a ^ n) = (Qc2R a ^ n)%R.
Proof.
  induction n as [|n IH].
  - unfold Qc2R, Q2R. simpl. field.
  - cbn [Qcpower pow]. by rewrite Qc2R_mult, IH.
Qed.

Lemma Qc2R_of_Z z : Qc2R (Qc_of_Z z) = IZR z.
Proof. unfold Qc2R, Qc_of_Z, Q2R. simpl. field. Qed.

Lemma eval_monomial_real e p :
  Qc2R (eval_monomial e p) = monomial_R e (Qc2R (xcoord p)) (Qc2R (ycoord p)).
Proof.
  unfold eval_monomial, monomial_R. by rewrite Qc2R_mult, !Qc2R_pow.
Qed.

Lemma power_rule_derivative n (x : Qc) :
  derivable_pt_lim (fun t => t ^ n)%R (Qc2R x) (Qc2R (power_rule n x)).
Proof.
  destruct n as [|m].
  - cbn [power_rule pow]. rewrite Qc2R_0. apply derivable_pt_lim_const.
  - unfold power_rule. rewrite Qc2R_mult, Qc2R_pow, Qc2R_of_Z.
    rewrite <- INR_IZR_INZ.
    apply (derivable_pt_lim_pow (Qc2R x) (S m)).
Qed.

(** [dx_monomial] is the partial derivative with respect to [x] ... *)
Lemma dx_monomial_derivative e p :
  derivable_pt_lim (fun t => monomial_R e t (Qc2R (ycoord p)))
    (Qc2R (xcoord p)) (Qc2R (dx_monomial e p)).
Proof.
  unfold monomial_R, dx_monomial. rewrite Qc2R_mult, Qc2R_pow.
  apply (derivable_pt_lim_ext
           (mult_real_fct (Qc2R (ycoord p) ^ e.2) (fun t => t ^ e.1)%R)).
  { intros t. unfold mult_real_fct. apply Rmult_comm. }
  rewrite (Rmult_comm (Qc2R (power_rule e.1 (xcoord p)))).
  apply derivable_pt_lim_scal, power_rule_derivative.
Qed.

(** ... and [dy_monomial] the one with respect to [y]. *)
Lemma dy_monomial_derivative e p :
  derivable_pt_lim (fun t => monomial_R e (Qc2R (xcoord p)) t)
    (Qc2R (ycoord p)) (Qc2R (dy_monomial e p)).
Proof.
  unfold monomial_R, dy_monomial. rewrite Qc2R_mult, Qc2R_pow.
  apply (derivable_pt_lim_scal (fun t => t ^ e.2)%R (Qc2R (xcoord p) ^ e.1)).
  apply power_rule_derivative.
Qed.

End analytic_gradient.

(** C2.  On a cell of dimension 1 or 2, for every degree that is not
    negative and every list of points of the cell's dimension, the
    gradient form of [vandermonde_matrix] is returned without an error
    and has one row per point, in it one entry per monomial of the basis,
    and in that one number per coordinate direction: the partial
    derivative of the monomial with respect to [x] first and, in
    dimension 2, the one with respect to [y] second.  The derivatives
    are those of the power rule, with 0 for the derivative of a zeroth
    power ([dx_monomial_derivative] and [dy_monomial_derivative] show
    them to be the derivatives in the reals). *)
Theorem vandermonde_matrix_gradient cell degree points :
  (dim cell = 1 ∨ dim cell = 2)%nat →
  (0 <= degree)%Z →
  Forall (fun p => length p = dim cell) points →
  vandermonde_matrix cell degree points true
  = Ok ((fun p => (fun e => grad_monomial (dim cell) e p)
                    <$> monomial_basis (dim cell) (Z.to_nat degree))
          <$> points).
Proof.
  intros Hdim Hdeg Hpoints.
  remember (Z.to_nat degree) as n eqn:Hn.
  assert (degree = Z.of_nat n) as -> by lia.
  assert (Forall (fun p => p ≠ []) points) as Hne.
  { eapply Forall_impl; [exact Hpoints|]. intros p Hp ->. simpl in Hp. lia. }
  rewrite (vandermonde_matrix_grad_loop points Hne cell n) by lia.
  by rewrite loop_exponents_monomial_basis by lia.
Qed.

Lemma vandermonde_matrix_gradient_witness :
  vandermonde_matrix ReferenceTriangle 1 [[Qc_of_Z 2; Qc_of_Z 3]] true
  = Ok [[[0; 0]; [1; 0]; [0; 1]]].
Proof.
  rewrite vandermonde_matrix_gradient;
    [|right; reflexivity|lia|repeat constructor].
  reflexivity.
Defined.

(** C5, as the code has it.  The constructor makes no test of its own
    on the node set: it hands the Vandermonde matrix at the nodes to
    [np.linalg.inv] and follows the outcome of that call.  When the call
    fails, construction fails, the exception is the [LinAlgError] of
    [np.linalg.inv], and whatever [entity_nodes] is passed no element is
    returned.  The code has no error called SingularBasis and makes no
    conditioning check: when the call returns a matrix, the element is
    constructed with that matrix as its [basis_coefs].  The statement
    follows the call and does not depend on which matrices it rejects. *)
Theorem inversion_failure_raises_LinAlgError cell degree nodes V :
  vandermonde_matrix cell degree nodes false = Ok V →
  (∀ e, np_linalg_inv V = Raise e →
     e = LinAlgError
     ∧ FiniteElement.__init__ cell degree nodes None = Raise LinAlgError
     ∧ ∀ entity_nodes el,
         FiniteElement.__init__ cell degree nodes entity_nodes ≠ Ok el)
  ∧ (∀ W, np_linalg_inv V = Ok W →
     ∃ el, FiniteElement.__init__ cell degree nodes None = Ok el
           ∧ FiniteElement.basis_coefs el = W).
Proof.
  intros HV. split.
  - intros e He.
    assert (e = LinAlgError) as ->.
    { revert He. unfold np_linalg_inv. case_bool_decide; [|by intros [= <-]].
      destruct (gauss_jordan _ _ _); [done|by intros [= <-]]. }
    split; [done|]. split.
    + unfold FiniteElement.__init__. cbn [mbind result_bind]. rewrite HV.
      cbn [mbind result_bind]. by rewrite He.
    + intros entity_nodes el (V' & HV' & HW & _)%FiniteElement_init_inv.
      rewrite HV in HV'. injection HV' as <-. by rewrite He in HW.
  - intros W HW.
    unfold FiniteElement.__init__. cbn [mbind result_bind]. rewrite HV.
    cbn [mbind result_bind]. rewrite HW. cbn [mbind result_bind].
    by eexists.
Qed.

(** Two rows that are equal leave no inverse. *)
Lemma equal_rows_singular (r : vector) : ¬ invertible [r; r].
Proof.
  intros (_ & _ & W & Hr & _). unfold matmul in Hr.
  cbn [fmap list_fmap] in Hr.
  injection Hr as H1 H2. rewrite H1 in H2. discriminate H2.
Qed.

Lemma inversion_failure_raises_LinAlgError_witness :
  FiniteElement.__init__ ReferenceInterval 1 [[1]; [1]] None
  = Raise LinAlgError.
Proof.
  apply (proj1 (inversion_failure_raises_LinAlgError ReferenceInterval 1
                  [[1]; [1]] [[1; 1]; [1; 1]] eq_refl) LinAlgError).
  reflexivity.
Defined.

(** C5 fails for the node 0 taken twice on the reference interval: the
    Vandermonde matrix has no inverse, and what is raised is numpy's
    [LinAlgError], not an error called SingularBasis. *)
Lemma repeated_node_raises_LinAlgError :
  vandermonde_matrix ReferenceInterval 1 [[0]; [0]] false = Ok [[1; 0]; [1; 0]]
  ∧ ¬ invertible [[1; 0]; [1; 0]]
  ∧ FiniteElement.__init__ ReferenceInterval 1 [[0]; [0]] None
    = Raise LinAlgError
  ∧ exn_name LinAlgError ≠ "SingularBasis".
Proof.
  split; [reflexivity|]. split; [apply equal_rows_singular|].
  split; [reflexivity|]. discriminate.
Qed.

(** No conditioning check: two nodes at distance [10^-20] give a matrix
    with an inverse, and the element is constructed. *)
Lemma close_nodes_accepted :
  ∃ el, FiniteElement.__init__ ReferenceInterval 1
          [[0]; [1 / Qc_of_Z (10 ^ 20)]] None = Ok el.
Proof.
  apply is_ok_inv. vm_compute. reflexivity.
Qed.

(** X28.  In exact arithmetic, let [fn] be a polynomial of the
    element's space, that is, a combination of the monomials of
    [monomial_basis] with one coefficient each.  For every constructed
    element on a cell of dimension 1 or 2 and every list of points of
    that dimension, the value tabulation at the points applied to
    [interpolate fn] gives the values of [fn] at the points.  The rounding
    error of a float64 run is not covered. *)
Theorem interpolate_exact cell degree nodes entity_nodes el
    (coefs : vector) (fn : vector → Qc) (points : matrix) :
  (dim cell = 1 ∨ dim cell = 2)%nat →
  (0 <= degree)%Z →
  FiniteElement.__init__ cell degree nodes entity_nodes = Ok el →
  length coefs = length (monomial_basis (dim cell) (Z.to_nat degree)) →
  (∀ p, fn p = dot ((fun e => eval_monomial e p)
                      <$> monomial_basis (dim cell) (Z.to_nat degree)) coefs) →
  Forall (fun p => length p = dim cell) points →
  ∃ phi, FiniteElement.tabulate el points false = Ok phi
         ∧ matvec phi (FiniteElement.interpolate el fn) = fn <$> points.
Proof.
  intros Hdim Hdeg Hel Hcoefs Hfn Hpoints.
  apply FiniteElement_init_inv in Hel
    as (V & HV & HW & Hcell & Hdegree & Hnodes & Hcount).
  set (basis := monomial_basis (dim cell) (Z.to_nat degree)) in *.
  set (row := fun p : vector => (fun e => eval_monomial e p) <$> basis) in *.
  pose proof (vandermonde_matrix_points _ _ _ _ Hdeg HV) as Hne.
  rewrite vandermonde_matrix_values in HV by done.
  injection HV as <-. fold basis row in HW.
  destruct (np_linalg_inv_ok _ _ HW) as (Hn & Hsq & Hr & Hl & HC).
  set (C := FiniteElement.basis_coefs el) in *.
  rewrite length_fmap in Hn, Hsq, Hr, Hl, HC.
  assert (length C = length nodes) as HlenC
    by (by rewrite <- (length_matmul _ (row <$> nodes)), Hl, length_identity).
  assert (length basis = length nodes) as Hbasis.
  { destruct nodes as [|p nodes']; [done|].
    apply Forall_cons in Hsq as [Hp _]. unfold row in Hp.
    by rewrite length_fmap in Hp. }
  assert (Forall (fun p => p ≠ []) points) as Hne'.
  { eapply Forall_impl; [exact Hpoints|]. intros p Hp ->. simpl in Hp. lia. }
  exists (matmul (row <$> points) C). split.
  - unfold FiniteElement.tabulate. rewrite Hcell, Hdegree.
    rewrite vandermonde_matrix_values by done.
    cbn [mbind result_bind]. fold basis row C.
    unfold np_matmul. rewrite bool_decide_eq_true_2; [done|].
    apply Forall_fmap, Forall_forall. intros p _. unfold row. simpl.
    rewrite length_fmap. lia.
  - unfold FiniteElement.interpolate. rewrite Hnodes.
    assert (∀ ps, fn <$> ps = matvec (row <$> ps) coefs) as Hinterp.
    { intros ps. unfold matvec. rewrite <- list_fmap_compose.
      apply list_fmap_ext. intros _ p _. apply Hfn. }
    rewrite !Hinterp.
    rewrite matvec_matmul.
    + rewrite <- (matvec_matmul C (row <$> nodes)).
      * rewrite Hl, <- Hbasis, <- Hcoefs. by rewrite matvec_identity.
      * apply Forall_fmap, Forall_forall. intros p _. simpl.
        destruct nodes as [|p0 nodes']; [done|].
        unfold ncols, row. simpl. by rewrite !length_fmap.
    + destruct C as [|c C']; [simpl in HlenC; lia|].
      unfold ncols. simpl. apply Forall_cons in HC as HC'.
      destruct HC' as [Hc _]. rewrite Hc. done.
Qed.

Lemma interpolate_exact_witness :
  ∃ el phi,
    FiniteElement.__init__ ReferenceInterval 2 interval_P2_nodes None = Ok el
    ∧ FiniteElement.tabulate el [[Qc_of_Z 1 / Qc_of_Z 3]] false = Ok phi
    ∧ matvec phi (FiniteElement.interpolate el square)
      = square <$> [[Qc_of_Z 1 / Qc_of_Z 3]].
Proof.
  destruct (is_ok_inv
              (FiniteElement.__init__ ReferenceInterval 2 interval_P2_nodes None))
    as [el Hel]; [vm_compute; reflexivity|].
  destruct (interpolate_exact ReferenceInterval 2 interval_P2_nodes None el
              [0; 0; 1] square [[Qc_of_Z 1 / Qc_of_Z 3]])
    as (phi & Hphi & Hexact);
    [left; reflexivity | lia | exact Hel | reflexivity
    | intros p; reflexivity | repeat constructor |].
  exists el, phi. split; [exact Hel|]. split; [exact Hphi|exact Hexact].
Defined.

(** * Properties of the vector element *)

Section fill_facts.

Context {X Y : Type} (g : X → list Z → Y) (d : X) (z : Y).
Context (phi : list (list X)) (N M : nat).
Context (Hphi : Forall (fun r => length r = N) phi).
Context (HM : (M <= 2 * N)%nat).

Let e (i : nat) : list Z := [(Z.of_nat i + 1) mod 2; Z.of_nat i mod 2]%Z.
Let entry (r : list X) (i : nat) : Y := g (nth (i / 2) r d) (e i).

(** The array after the rounds [0 .. k-1] of the loop. *)
Let state (k : nat) : list (list Y) :=
  (fun r => (entry r <$> seq 0 k) ++ replicate (M - k) z) <$> phi.

Let body := fun (vphi : list (list Y)) (i : Z) =>
  a ← comprehension (fun r => getitem r (Z.to_nat (i / 2))) phi;
  Ok (zip_with (fun r x => <[Z.to_nat i := x]> r) vphi
        ((fun x => g x [(i + 1) mod 2; i mod 2]%Z) <$> a)).

Lemma fill_round (k : nat) :
  (k < M)%nat → body (state k) (Z.of_nat k) = Ok (state (S k)).
Proof using Hphi HM.
  intros Hk. unfold body.
  rewrite (comprehension_ok _ (fun r => nth (k / 2) r d)).
  - cbn [mbind result_bind]. f_equal. unfold state.
    rewrite <- list_fmap_compose, zip_with_fmap_l, zip_with_fmap_r.
    rewrite zip_with_diag. apply list_fmap_ext. intros _ r _.
    unfold compose. rewrite Nat2Z.id.
    rewrite insert_app_r_alt by (rewrite length_fmap, length_seq; lia).
    rewrite length_fmap, length_seq, Nat.sub_diag.
    replace (M - k)%nat with (S (M - S k)) by lia.
    rewrite seq_S, fmap_app, <- app_assoc. done.
  - intros r Hr. eapply Forall_forall in Hphi; [|exact Hr].
    unfold getitem.
    replace (Z.to_nat (Z.of_nat k / 2)) with (k / 2)%nat
      by (rewrite <- (Nat2Z.id (k / 2)), Nat2Z.inj_div; done).
    assert (k / 2 < N)%nat as Hlt
      by (apply Nat.Div0.div_lt_upper_bound; lia).
    destruct (nth_lookup_or_length r (k / 2) d) as [->|]; [done|lia].
Qed.

Lemma fill_rounds (m k : nat) :
  (k + m = M)%nat →
  for_loop (Z.of_nat <$> seq k m) body (state k) = Ok (state M).
Proof using Hphi HM.
  revert k. induction m as [|m IH]; intros k Hk.
  - replace k with M by lia. done.
  - cbn [seq fmap list_fmap for_loop].
    rewrite fill_round by lia. cbn [mbind result_bind].
    apply IH. lia.
Qed.

(** The whole loop: entry [i] of every row is made from entry [i // 2]
    of the scalar tabulation and the unit vector [e]. *)
Lemma fill_ok :
  (phi ≠ [] ∨ M = 0%nat) →
  VectorFiniteElement.fill (fun a e => (fun x => g x e) <$> a) phi
    (replicate (length phi) (replicate M z))
  = Ok ((fun r => entry r <$> seq 0 M) <$> phi).
Proof using Hphi HM.
  intros Hne. unfold VectorFiniteElement.fill.
  assert (replicate (length phi) (replicate M z) = state 0) as ->.
  { unfold state. rewrite Nat.sub_0_r. clear.
    induction phi as [|r l IH]; [done|]. simpl. by f_equal. }
  assert (ncols (state 0) = M) as ->.
  { unfold state, ncols. destruct phi as [|r l]; [by destruct Hne|].
    simpl. rewrite length_replicate. lia. }
  rewrite py_range_of_nat.
  change (for_loop (Z.of_nat <$> seq 0 M) body (state 0)
          = Ok ((fun r => entry r <$> seq 0 M) <$> phi)).
  rewrite fill_rounds by done. f_equal. unfold state.
  apply list_fmap_ext. intros _ r _.
  by rewrite Nat.sub_diag, app_nil_r.
Qed.

End fill_facts.

Section vector_element_facts.

Lemma tabulate_values_shape el points phi :
  FiniteElement.tabulate el points false = Ok phi →
  Forall (fun r => length r = ncols (FiniteElement.basis_coefs el)) phi.
Proof.
  unfold FiniteElement.tabulate.
  destruct (vandermonde_matrix _ _ _ false) as [V|]; [|done].
  cbn [mbind result_bind]. unfold np_matmul.
  case_bool_decide; [|done]. intros [= <-].
  apply Forall_fmap, Forall_forall. intros r _. unfold vecmat. simpl.
  by rewrite length_fmap, length_seq.
Qed.

Lemma tabulate_gradients_shape el points phi :
  FiniteElement.tabulate el points true = Ok phi →
  Forall (fun r => length r = ncols (FiniteElement.basis_coefs el)) phi.
Proof.
  unfold FiniteElement.tabulate.
  destruct (vandermonde_matrix _ _ _ true) as [T|]; [|done].
  cbn [mbind result_bind]. unfold einsum_ijk_jl_ilk.
  case_bool_decide; [|done]. intros [= <-].
  apply Forall_fmap, Forall_forall. intros r _. simpl.
  by rewrite length_fmap, length_seq.
Qed.

(** The unit vector [e] of round [k] selects the component [k % 2]. *)
Lemma unit_vector_component (k : nat) (x : Qc) :
  (fun ej => x * Qc_of_Z ej)
    <$> [(Z.of_nat k + 1) mod 2; Z.of_nat k mod 2]%Z
  = (fun comp => component_value 2 k comp x) <$> seq 0 2.
Proof.
  cbn [seq fmap list_fmap]. unfold component_value.
  pose proof (Nat.mod_upper_bound k 2) as Hk.
  assert (Z.of_nat k mod 2 = Z.of_nat (k mod 2))%Z as Hmod
    by (by rewrite Nat2Z.inj_mod).
  assert ((Z.of_nat k + 1) mod 2 = 1 - Z.of_nat (k mod 2))%Z as Hmod'
    by (rewrite Zplus_mod, Hmod;
        destruct (k mod 2)%nat as [|[|?]]; [done|done|lia]).
  rewrite Hmod, Hmod'.
  destruct (k mod 2)%nat as [|[|?]]; [| |lia];
    repeat case_decide; try lia;
    change (Z.of_nat 0) with 0%Z; change (Z.of_nat 1) with 1%Z;
    change (1 - 0)%Z with 1%Z; change (1 - 1)%Z with 0%Z;
    rewrite ?Z2Qc_inj_0, ?Z2Qc_inj_1; (f_equal; [|f_equal]); ring.
Qed.

(** In dimension 2 the value tabulation of the vector element is the
    one the specification describes. *)
Lemma vector_tabulate_values ve points phi :
  dim (VectorFiniteElement.cell ve) = 2%nat →
  FiniteElement.tabulate (VectorFiniteElement.finite_element ve) points false
  = Ok phi →
  VectorFiniteElement.tabulate ve points false
  = Ok (vector_values 2 <$> phi).
Proof.
  intros Hdim Hphi. unfold VectorFiniteElement.tabulate.
  rewrite Hphi, Hdim. cbn [mbind result_bind].
  apply tabulate_values_shape in Hphi.
  set (N := ncols (FiniteElement.basis_coefs _)) in *.
  change (VectorFiniteElement.einsum_i_j)
    with (fun (a : vector) (e : list Z) =>
            (fun x => (fun ej => x * Qc_of_Z ej) <$> e) <$> a).
  rewrite (fill_ok _ 0 _ phi N (ncols phi * 2) Hphi).
  - f_equal. apply list_fmap_ext. intros i r Hr. unfold vector_values.
    eapply Forall_lookup in Hphi as Hlen; [|exact Hr]. simpl in Hlen.
    rewrite (ncols_rows phi N), Hlen by (done || by intros ->).
    apply list_fmap_ext. intros _ k _. apply unit_vector_component.
  - destruct phi as [|r phi']; [simpl; lia|].
    rewrite (ncols_rows _ N) by done. lia.
  - destruct phi; [by right|by left].
Qed.

End vector_element_facts.

(** C8, as the code has it.  On a cell of dimension 2 the gradient
    tabulation of the vector element has, for every point, [2 * nodes]
    blocks of 2 by 2 numbers.  In the block of basis function [k] the
    first of the two axes is the gradient direction and the last one the
    component: the column of the component [k % 2] holds the gradient of
    the scalar basis function [k // 2], and the other column is exactly
    zero. *)
Theorem vector_tabulate_gradients_by_direction ve points phi :
  dim (VectorFiniteElement.cell ve) = 2%nat →
  FiniteElement.tabulate (VectorFiniteElement.finite_element ve) points true
  = Ok phi →
  VectorFiniteElement.tabulate ve points true
  = Ok (vector_gradients_by_direction <$> phi).
Proof.
  intros Hdim Hphi. unfold VectorFiniteElement.tabulate.
  rewrite Hphi, Hdim. cbn [mbind result_bind].
  apply tabulate_gradients_shape in Hphi.
  set (N := ncols (FiniteElement.basis_coefs _)) in *.
  change (VectorFiniteElement.einsum_ik_j)
    with (fun (a : matrix) (e : list Z) =>
            (fun r : vector =>
               (fun x => (fun ej => x * Qc_of_Z ej) <$> e) <$> r) <$> a).
  rewrite (fill_ok
             (fun (r : vector) (e : list Z) =>
                (fun x => (fun ej => x * Qc_of_Z ej) <$> e) <$> r)
             [] _ phi N (ncols phi * 2) Hphi).
  - f_equal. apply list_fmap_ext. intros i r Hr.
    unfold vector_gradients_by_direction.
    eapply Forall_lookup in Hphi as Hlen; [|exact Hr]. simpl in Hlen.
    rewrite (ncols_rows phi N), Hlen by (done || by intros ->).
    apply list_fmap_ext. intros _ k _.
    apply list_fmap_ext. intros _ x _. apply unit_vector_component.
  - destruct phi as [|r phi']; [simpl; lia|].
    rewrite (ncols_rows _ N) by done. lia.
  - destruct phi; [by right|by left].
Qed.

Lemma vector_tabulate_gradients_by_direction_witness :
  ∃ fe ve phi,
    FiniteElement.__init__ ReferenceTriangle 1 triangle_P1_nodes None = Ok fe
    ∧ VectorFiniteElement.__init__ fe = Ok ve
    ∧ FiniteElement.tabulate fe [[Qc_of_Z 1 / Qc_of_Z 3; Qc_of_Z 1 / Qc_of_Z 3]] true
      = Ok phi
    ∧ VectorFiniteElement.tabulate ve
        [[Qc_of_Z 1 / Qc_of_Z 3; Qc_of_Z 1 / Qc_of_Z 3]] true
      = Ok (vector_gradients_by_direction <$> phi).
Proof.
  set (x := [[Qc_of_Z 1 / Qc_of_Z 3; Qc_of_Z 1 / Qc_of_Z 3]]).
  assert (is_ok (fe ← FiniteElement.__init__ ReferenceTriangle 1
                        triangle_P1_nodes None;
                 ve ← VectorFiniteElement.__init__ fe;
                 FiniteElement.tabulate fe x true) = true) as Hok
    by (vm_compute; reflexivity).
  destruct (FiniteElement.__init__ ReferenceTriangle 1 triangle_P1_nodes None)
    as [fe|] eqn:Hfe; [|discriminate Hok].
  cbn [mbind result_bind] in Hok.
  destruct (VectorFiniteElement.__init__ fe) as [ve|] eqn:Hve;
    [|discriminate Hok].
  cbn [mbind result_bind] in Hok.
  apply is_ok_inv in Hok as [phi Hphi].
  exists fe, ve, phi. do 3 (split; [done|]).
  pose proof (VectorFiniteElement_init_inv _ _ Hve) as Hfin.
  apply FiniteElement_init_inv in Hfe as (_ & _ & _ & Hcell & _).
  apply vector_tabulate_gradients_by_direction.
  - unfold VectorFiniteElement.cell. by rewrite Hfin, Hcell.
  - by rewrite Hfin.
Defined.

(** C8 fails on the linear element of the reference triangle.  The
    scalar gradients at a point are (-1,-1), (1,0) and (0,1).  For the
    basis function 3, which belongs to scalar function 1 and component 1,
    the specification puts the gradient (1,0) into row 1 and zeros into
    row 0; the code returns the block with row 0 = (0,1) and row 1 =
    (0,0). *)
Lemma vector_tabulate_gradients_layout :
  let x := [[Qc_of_Z 1 / Qc_of_Z 3; Qc_of_Z 1 / Qc_of_Z 3]] in
  let phi := [[[-1; -1]; [1; 0]; [0; 1]]] in
  (fe ← FiniteElement.__init__ ReferenceTriangle 1 triangle_P1_nodes None;
   FiniteElement.tabulate fe x true) = Ok phi
  ∧ (fe ← FiniteElement.__init__ ReferenceTriangle 1 triangle_P1_nodes None;
     ve ← VectorFiniteElement.__init__ fe;
     block ← (vphi ← VectorFiniteElement.tabulate ve x true;
              row ← getitem vphi 0; getitem row 3);
     Ok (dim (VectorFiniteElement.cell ve), block))
    = Ok (2%nat, [[0; 1]; [0; 0]])
  ∧ (row ← getitem (vector_gradients_by_component 2 <$> phi) 0; getitem row 3)
    = Ok [[0; 0]; [1; 0]]
  ∧ [[0; 1]; [0; 0]] ≠ [[0; 0]; [1; 0] : vector].
Proof.
  split; [|split; [|split]];
    try (apply (bool_decide_eq_true_1 (_ = _)); vm_compute; reflexivity).
  apply (bool_decide_eq_false_1 (_ = _)). vm_compute. reflexivity.
Qed.

(** C9 at the failing input: the linear element on the reference
    interval, tabulated at the point 1.  The scalar values there are
    (0, 1).  With [dim = 1] the specification asks for one component per
    basis function, with basis function 1 equal to the scalar function 1,
    that is [[0]; [1]]; the code returns two components per basis
    function and takes the scalar function [1 // 2 = 0] for the basis
    function 1, which gives zeros. *)
Theorem vector_tabulate_values_interval :
  (fe ← FiniteElement.__init__ ReferenceInterval 1 interval_P1_nodes None;
   FiniteElement.tabulate fe [[1]] false) = Ok [[0; 1]]
  ∧ (fe ← FiniteElement.__init__ ReferenceInterval 1 interval_P1_nodes None;
     ve ← VectorFiniteElement.__init__ fe;
     vphi ← VectorFiniteElement.tabulate ve [[1]] false;
     Ok (dim (VectorFiniteElement.cell ve), vphi))
    = Ok (1%nat, [[[0; 0]; [0; 0]]])
  ∧ vector_values 1 <$> [[0; 1]] = [[[0]; [1]]]
  ∧ [[[0; 0]; [0; 0]]] ≠ [[[0]; [1 : Qc]]].
Proof.
  split; [|split; [|split]];
    try (apply (bool_decide_eq_true_1 (_ = _)); vm_compute; reflexivity).
  discriminate.
Qed.

(** * The scenarios of the specification *)

(** The linear element on the interval has the nodes 0 and 1, and its two
    hat functions are both 1/2 at the midpoint. *)
Example interval_P1_midpoint :
  lagrange_points ReferenceInterval 1 = [[Fin 0]; [Fin 1]]
  ∧ (fe ← FiniteElement.__init__ ReferenceInterval 1 interval_P1_nodes None;
     FiniteElement.tabulate fe [[Qc_of_Z 1 / Qc_of_Z 2]] false)
    = Ok [[Qc_of_Z 1 / Qc_of_Z 2; Qc_of_Z 1 / Qc_of_Z 2]].
Proof.
  split; [reflexivity|].
  apply (bool_decide_eq_true_1 (_ = _)). vm_compute. reflexivity.
Qed.

(** The linear element on the triangle has three nodes, and its basis
    functions are all 1/3 at the centroid. *)
Example triangle_P1_centroid :
  (fe ← FiniteElement.__init__ ReferenceTriangle 1 triangle_P1_nodes None;
   FiniteElement.tabulate fe [[Qc_of_Z 1 / Qc_of_Z 3; Qc_of_Z 1 / Qc_of_Z 3]] false)
  = Ok [[Qc_of_Z 1 / Qc_of_Z 3; Qc_of_Z 1 / Qc_of_Z 3; Qc_of_Z 1 / Qc_of_Z 3]].
Proof. apply (bool_decide_eq_true_1 (_ = _)). vm_compute. reflexivity. Qed.

(** * Further properties of the node generator *)

Section node_order.

Local Open Scope Z_scope.

Lemma bind_ext_in {A B} (f g : A → list B) (l : list A) :
  (∀ x, x ∈ l → f x = g x) → l ≫= f = l ≫= g.
Proof.
  induction l as [|x l IH]; intros H; [done|].
  rewrite !bind_cons, (H x) by left. rewrite IH; [done|].
  intros y Hy. apply H. by right.
Qed.

Lemma filter_bind {A B} (P : B → Prop) `{!∀ x, Decision (P x)}
    (f : A → list B) (l : list A) :
  filter P (l ≫= f) = l ≫= fun x => filter P (f x).
Proof.
  induction l as [|x l IH]; [done|].
  by rewrite !bind_cons, filter_app, IH.
Qed.

Lemma fmap_bind {A B C} (h : B → C) (f : A → list B) (l : list A) :
  h <$> (l ≫= f) = l ≫= fun x => h <$> f x.
Proof.
  induction l as [|x l IH]; [done|].
  by rewrite !bind_cons, fmap_app, IH.
Qed.

Lemma filter_le_seq (k : nat) (m : Z) :
  0 <= m →
  filter (fun y => y <= m) (Z.of_nat <$> seq 0 k)
  = Z.of_nat <$> seq 0 (Nat.min k (Z.to_nat m + 1)).
Proof.
  intros Hm. induction k as [|k IH]; [done|].
  rewrite seq_S, fmap_app, filter_app, IH. cbn [Nat.add fmap list_fmap].
  destruct (decide (Z.of_nat k <= m)) as [Hk|Hk].
  - rewrite filter_cons_True, filter_nil by done.
    replace (Nat.min (S k) (Z.to_nat m + 1)) with (S k) by lia.
    replace (Nat.min k (Z.to_nat m + 1)) with k by lia.
    by rewrite seq_S, fmap_app.
  - rewrite filter_cons_False, filter_nil, app_nil_r by done.
    f_equal. f_equal. lia.
Qed.

Lemma filter_le_py_range (n m : Z) :
  0 <= m < n → filter (fun y => y <= m) (py_range n) = py_range (m + 1).
Proof.
  intros Hm. unfold py_range. rewrite filter_le_seq by lia.
  f_equal. f_equal. lia.
Qed.

Lemma filter_singletons (l : list Z) (m : Z) :
  filter (fun i => py_sum i <= m) ((fun y => [y]) <$> l)
  = (fun y => [y]) <$> filter (fun y => y <= m) l.
Proof.
  induction l as [|y l IH]; [done|].
  rewrite !fmap_cons. destruct (decide (y <= m)) as [Hy|Hy].
  - rewrite !filter_cons_True, IH; [done|done|]. cbn. lia.
  - rewrite !filter_cons_False, IH; [done|done|]. cbn. lia.
Qed.

Lemma NoDup_py_range n : NoDup (py_range n).
Proof.
  unfold py_range. apply NoDup_fmap_2; [|apply NoDup_seq].
  intros x y. lia.
Qed.

Lemma NoDup_product {A} (l : list A) n : NoDup l → NoDup (product l n).
Proof.
  intros Hl. induction n as [|n IH]; [apply NoDup_singleton|].
  cbn [product]. apply NoDup_bind; [| |done].
  - intros x1 x2 t _ _ (t1 & -> & _)%list_elem_of_fmap (t2 & [= -> _] & _)%list_elem_of_fmap.
    done.
  - intros x _. apply NoDup_fmap_2; [|done]. by intros t1 t2 [= ->].
Qed.

Lemma true_divide_finite (c d : Z) :
  d ≠ 0 → true_divide c d = Fin (Qc_of_Z c / Qc_of_Z d)%Qc.
Proof. intros Hd. unfold true_divide. by rewrite decide_False. Qed.

Lemma Qc_of_Z_div_inj (a b d : Z) :
  d ≠ 0 → (Qc_of_Z a / Qc_of_Z d = Qc_of_Z b / Qc_of_Z d)%Qc → a = b.
Proof.
  intros Hd H. apply Z2Qc_inj.
  assert (Qc_of_Z d ≠ 0%Qc) as Hd'.
  { rewrite <- Z2Qc_inj_0. by intros ?%Z2Qc_inj. }
  apply (f_equal (fun q => q * Qc_of_Z d)%Qc) in H.
  unfold Qcdiv in H.
  rewrite <- !Qcmult_assoc, !(Qcmult_comm (/ Qc_of_Z d)) in H.
  by rewrite !Qcmult_inv_r, !Qcmult_1_r in H.
Qed.

Lemma true_divide_inj (d : Z) :
  d ≠ 0 → Inj (=) (=) (fun c => true_divide c d).
Proof.
  intros Hd a b. rewrite !true_divide_finite by done.
  intros H.
  apply (f_equal (fun x => match x with Fin q => q | _ => 0%Qc end)) in H.
  by eapply Qc_of_Z_div_inj.
Qed.

Lemma le_py_sum (a : list Z) (x : Z) :
  Forall (fun c => 0 <= c) a → x ∈ a → 0 <= x <= py_sum a.
Proof.
  induction 1 as [|c a Hc Ha IH]; [by intros ?%elem_of_nil|].
  assert (0 <= py_sum a) as Hsum.
  { clear IH. unfold py_sum.
    induction Ha as [|? ? ? ? IH']; cbn [foldr]; lia. }
  unfold py_sum in *. cbn [foldr].
  intros [->|Hx]%elem_of_cons; [lia|].
  specialize (IH Hx). lia.
Qed.

End node_order.

(** X1.  The node set is exactly the lattice of the simplex: a node is a
    tuple of non-negative integers, one per coordinate, whose sum is at
    most the degree, divided by the degree; and every such tuple is a
    node. *)
Theorem lagrange_points_lattice (cell : ReferenceCell) (degree : Z)
    (node : list npfloat) :
  node ∈ lagrange_points cell degree
  ↔ ∃ a : list Z,
      length a = dim cell ∧ Forall (fun c => (0 <= c)%Z) a
      ∧ (py_sum a <= degree)%Z
      ∧ node = (fun c => true_divide c degree) <$> a.
Proof.
  rewrite lagrange_points_unfold, list_elem_of_fmap. split.
  - intros (i & -> & [Hsum Hi]%list_elem_of_filter).
    apply elem_of_product in Hi as [Hlen Hi].
    exists (reverse i). rewrite length_reverse, py_sum_reverse.
    repeat split; try done.
    apply Forall_reverse. eapply Forall_impl; [exact Hi|].
    intros c Hc%elem_of_py_range. cbn. lia.
  - intros (a & Hlen & Hpos & Hsum & ->).
    exists (reverse a). rewrite reverse_involutive. split; [done|].
    apply list_elem_of_filter. rewrite py_sum_reverse. split; [done|].
    apply elem_of_product. rewrite length_reverse. split; [done|].
    apply Forall_reverse, Forall_forall. intros x Hx.
    apply elem_of_py_range. pose proof (le_py_sum a x Hpos Hx). lia.
Qed.

(** X2.  For a degree of at least 1 no node is generated twice. *)
Theorem lagrange_points_NoDup (cell : ReferenceCell) (degree : Z) :
  (1 <= degree)%Z → NoDup (lagrange_points cell degree).
Proof.
  intros Hdeg. rewrite lagrange_points_unfold.
  apply NoDup_fmap_2.
  - intros i i' H. apply (inj reverse).
    eapply (inj (fmap (fun c => true_divide c degree))), H.
    Unshelve. apply list_fmap_eq_inj, true_divide_inj. lia.
  - apply NoDup_filter, NoDup_product, NoDup_py_range.
Qed.

Lemma lagrange_points_NoDup_witness :
  NoDup (lagrange_points ReferenceTriangle 2).
Proof. apply (lagrange_points_NoDup ReferenceTriangle 2). lia. Defined.

(** X3.  The order of the nodes.  On a cell of dimension 1 they run from
    0 to 1 in steps of [1 / degree].  On a cell of dimension 2 they run
    row by row: the second coordinate [a / degree] is fixed along a row
    and increases from row to row, and within a row the first coordinate
    [b / degree] increases, over all [b] with [a + b <= degree]. *)
Theorem lagrange_points_order (cell : ReferenceCell) (degree : Z) :
  (dim cell = 1%nat →
   lagrange_points cell degree
   = (fun b => [true_divide b degree]) <$> py_range (degree + 1))
  ∧ (dim cell = 2%nat →
     lagrange_points cell degree
     = a ← py_range (degree + 1);
       (fun b => [true_divide b degree; true_divide a degree])
         <$> py_range (degree + 1 - a)).
Proof.
  rewrite lagrange_points_unfold. split; intros ->.
  - rewrite product_1, filter_singletons.
    destruct (decide (0 <= degree)%Z) as [Hd|Hd].
    + rewrite filter_le_py_range by lia.
      by rewrite <- list_fmap_compose.
    + by rewrite py_range_neg by lia.
  - change (product (py_range (degree + 1)) 2)
      with (x ← py_range (degree + 1);
            (x ::.) <$> product (py_range (degree + 1)) 1).
    rewrite filter_bind, fmap_bind.
    apply bind_ext_in. intros a Ha%elem_of_py_range.
    rewrite product_1, filter_fmap_cons, filter_singletons.
    rewrite filter_le_py_range by lia.
    rewrite <- !list_fmap_compose.
    replace (degree - a + 1)%Z with (degree + 1 - a)%Z by lia.
    done.
Qed.

Lemma lagrange_points_order_witness :
  lagrange_points ReferenceInterval 2
  = (fun b => [true_divide b 2]) <$> py_range (2 + 1)
  ∧ lagrange_points ReferenceTriangle 1
    = a ← py_range (1 + 1);
      (fun b => [true_divide b 1; true_divide a 1]) <$> py_range (1 + 1 - a).
Proof.
  split.
  - exact (proj1 (lagrange_points_order ReferenceInterval 2) eq_refl).
  - exact (proj2 (lagrange_points_order ReferenceTriangle 1) eq_refl).
Defined.

(** * Further properties of the Vandermonde matrix *)

Section vandermonde_edges.

Lemma comprehension_ext {A B} (f g : A → result B) (l : list A) :
  (∀ a, a ∈ l → f a = g a) → comprehension f l = comprehension g l.
Proof.
  induction l as [|a l IH]; intros H; [done|].
  cbn [comprehension]. rewrite (H a) by left. rewrite IH; [done|].
  intros b Hb. apply H. by right.
Qed.

Lemma for_loop_ext {A S} (f g : S → A → result S) (l : list A) (s : S) :
  (∀ s a, a ∈ l → f s a = g s a) → for_loop l f s = for_loop l g s.
Proof.
  revert s. induction l as [|a l IH]; intros s H; [done|].
  cbn [for_loop]. rewrite (H s a) by left.
  destruct (g s a) as [s'|e]; [|done]. cbn [mbind result_bind].
  apply IH. intros s'' b Hb. apply H. by right.
Qed.

Lemma comprehension_raise {A B} (f : A → result B) (l : list A) (e : exn) :
  (∀ a, a ∈ l → f a = Raise e ∨ ∃ b, f a = Ok b) →
  (∃ a, a ∈ l ∧ f a = Raise e) →
  comprehension f l = Raise e.
Proof.
  induction l as [|a l IH]; intros Hall (a' & Ha' & Hf).
  - by apply elem_of_nil in Ha'.
  - cbn [comprehension].
    destruct (Hall a) as [->|[b Hb]]; [by left|done|].
    rewrite Hb. cbn [mbind result_bind].
    rewrite IH; [done| |].
    + intros x Hx. apply Hall. by right.
    + apply elem_of_cons in Ha' as [->|Ha']; [congruence|by exists a'].
Qed.

Lemma first_coordinate_raise (points : matrix) :
  [] ∈ points → first_coordinate points = Raise IndexError.
Proof.
  intros H. apply comprehension_raise.
  - intros [|x p] _; [by left|right; by eexists].
  - by exists [].
Qed.

Lemma column_raise (points : matrix) grad i idx j :
  [] ∈ points → column points grad i idx j = Raise IndexError.
Proof. intros H. unfold column. by rewrite first_coordinate_raise. Qed.

Lemma py_range_pos (n : Z) :
  (0 < n)%Z → py_range n = 0%Z :: (Z.succ <$> py_range (n - 1)).
Proof.
  intros Hn. unfold py_range.
  replace (Z.to_nat n) with (S (Z.to_nat (n - 1))) by lia.
  cbn [seq fmap list_fmap]. f_equal.
  rewrite <- fmap_S_seq, <- !list_fmap_compose.
  apply list_fmap_ext. intros _ k _. cbn. lia.
Qed.

Lemma column_coordinates (points : matrix) grad i idx j :
  Forall (fun p => p ≠ []) points →
  column points grad i idx j
  = column ((fun p => [xcoord p; ycoord p]) <$> points) grad i idx j.
Proof.
  intros Hpoints. rewrite !column_ok; [|by apply Forall_fmap, Forall_true|done].
  by rewrite <- list_fmap_compose.
Qed.

Lemma length_monomial_basis_pos (d n : nat) :
  (d = 1 ∨ d = 2)%nat → monomial_basis d n ≠ [].
Proof. intros [->| ->]; cbn [monomial_basis seq]; done. Qed.

Lemma constructed_degree cell degree nodes entity_nodes el :
  FiniteElement.__init__ cell degree nodes entity_nodes = Ok el →
  (0 <= degree)%Z.
Proof.
  intros (V & HV & _)%FiniteElement_init_inv.
  destruct (decide (0 <= degree)%Z) as [|Hneg]; [done|].
  unfold vandermonde_matrix in HV. by rewrite py_range_neg in HV by lia.
Qed.

End vandermonde_edges.

(** X4.  In value mode, on a cell of dimension 1 or 2 and for a degree
    of at least 0, the Vandermonde matrix has one row per point and one
    column per monomial of the complete polynomial space, and holds the
    values of the monomials: the powers [x^j] on the interval, and
    [x^(i-j) y^j] grouped by the total degree [i] on the triangle. *)
Theorem vandermonde_matrix_monomials cell degree points :
  (dim cell = 1 ∨ dim cell = 2)%nat →
  (0 <= degree)%Z →
  Forall (fun p => p ≠ []) points →
  ∃ V, vandermonde_matrix cell degree points false = Ok V
       ∧ V = (fun p => (fun e => eval_monomial e p)
                         <$> monomial_basis (dim cell) (Z.to_nat degree))
               <$> points
       ∧ length V = length points
       ∧ Forall (fun r => Z.of_nat (length r)
                          = expected_count (dim cell) degree) V.
Proof.
  intros Hdim Hdeg Hpoints. eexists. split; [|split; [reflexivity|]].
  - remember (Z.to_nat degree) as n eqn:Hn.
    assert (degree = Z.of_nat n) as -> by lia.
    rewrite vandermonde_matrix_values_loop by (done || lia).
    by rewrite loop_exponents_monomial_basis by lia.
  - rewrite length_fmap. split; [done|].
    apply Forall_fmap, Forall_true. intros p. cbn.
    rewrite length_fmap, length_monomial_basis by done.
    f_equal. lia.
Qed.

Lemma vandermonde_matrix_monomials_witness :
  ∃ V, vandermonde_matrix ReferenceTriangle 2 [[Qc_of_Z 2; Qc_of_Z 3]] false
       = Ok V
       ∧ V = [[1; Qc_of_Z 2; Qc_of_Z 3; Qc_of_Z 4; Qc_of_Z 6; Qc_of_Z 9]].
Proof.
  destruct (vandermonde_matrix_monomials ReferenceTriangle 2
              [[Qc_of_Z 2; Qc_of_Z 3]])
    as (V & HV & -> & _); [by right|lia|by repeat constructor|].
  eexists. split; [exact HV|].
  apply (bool_decide_eq_true_1 (_ = _)). vm_compute. reflexivity.
Defined.

(** X5.  A negative degree is not checked: no column is built, and the
    stacking of an empty list fails, with [ValueError] from [np.hstack]
    in value mode and with [AxisError] from [np.swapaxes] in gradient
    mode, whatever the cell and the points. *)
Theorem vandermonde_matrix_negative_degree cell degree points :
  (degree < 0)%Z →
  vandermonde_matrix cell degree points false = Raise ValueError
  ∧ vandermonde_matrix cell degree points true = Raise AxisError.
Proof.
  intros Hdeg. unfold vandermonde_matrix.
  rewrite py_range_neg by lia. split; reflexivity.
Qed.

Lemma vandermonde_matrix_negative_degree_witness :
  vandermonde_matrix ReferenceTriangle (-1) [[0; 0]] false = Raise ValueError
  ∧ vandermonde_matrix ReferenceTriangle (-1) [[0; 0]] true = Raise AxisError.
Proof.
  apply (vandermonde_matrix_negative_degree ReferenceTriangle (-1)). lia.
Defined.

(** X6.  Points without a coordinate are refused with [IndexError], in
    value mode on every cell and in gradient mode on every cell of
    dimension at least 1, for every degree of at least 0. *)
Theorem vandermonde_matrix_no_coordinate cell degree points :
  (0 <= degree)%Z →
  [] ∈ points →
  vandermonde_matrix cell degree points false = Raise IndexError
  ∧ ((1 <= dim cell)%nat →
     vandermonde_matrix cell degree points true = Raise IndexError).
Proof.
  intros Hdeg Hp. unfold vandermonde_matrix.
  rewrite (py_range_pos (degree + 1)) by lia. cbn [for_loop].
  replace ((Z.of_nat (dim cell) - 1) * 0 + 1)%Z with 1%Z by lia.
  change (py_range 1) with [0%Z]. cbn [comprehension].
  split.
  - by rewrite column_raise.
  - intros Hdim. rewrite (py_range_pos (Z.of_nat (dim cell))) by lia.
    cbn [comprehension]. by rewrite column_raise.
Qed.

Lemma vandermonde_matrix_no_coordinate_witness :
  vandermonde_matrix ReferenceInterval 1 [[]] false = Raise IndexError
  ∧ ((1 <= dim ReferenceInterval)%nat →
     vandermonde_matrix ReferenceInterval 1 [[]] true = Raise IndexError).
Proof.
  apply (vandermonde_matrix_no_coordinate ReferenceInterval 1 [[]]);
    [lia|by left].
Defined.

(** X7.  The number of coordinates of a point is not compared with the
    dimension of the cell: of every point only the first and the last
    coordinate are read, so that each point with at least one coordinate
    gives the same matrix as the pair of these two. *)
Theorem vandermonde_matrix_coordinates cell degree points grad :
  Forall (fun p => p ≠ []) points →
  vandermonde_matrix cell degree points grad
  = vandermonde_matrix cell degree
      ((fun p => [xcoord p; ycoord p]) <$> points) grad.
Proof.
  intros Hpoints. unfold vandermonde_matrix. destruct grad.
  - f_equal. apply for_loop_ext. intros m i _. f_equal.
    apply comprehension_ext. intros j _. f_equal.
    apply comprehension_ext. intros k _.
    by rewrite column_coordinates.
  - f_equal. apply for_loop_ext. intros m i _. f_equal.
    apply comprehension_ext. intros j _.
    by rewrite column_coordinates.
Qed.

Lemma vandermonde_matrix_coordinates_witness :
  vandermonde_matrix ReferenceInterval 2
    [[Qc_of_Z 2; Qc_of_Z 5; Qc_of_Z 3]] false
  = vandermonde_matrix ReferenceInterval 2 [[Qc_of_Z 2; Qc_of_Z 3]] false.
Proof.
  apply (vandermonde_matrix_coordinates ReferenceInterval 2
           [[Qc_of_Z 2; Qc_of_Z 5; Qc_of_Z 3]] false).
  by repeat constructor.
Defined.

(** * Further properties of the scalar element *)

Section element_structure.

Context (cell : ReferenceCell) (degree : Z).
Context (Hdim : (dim cell = 1 ∨ dim cell = 2)%nat) (Hdeg : (0 <= degree)%Z).

Let basis := monomial_basis (dim cell) (Z.to_nat degree).
Let row (p : vector) : vector := (fun e => eval_monomial e p) <$> basis.
Let grads (p : vector) : matrix :=
  (fun e => grad_monomial (dim cell) e p) <$> basis.

Lemma length_row p : length (row p) = length basis.
Proof. unfold row. by rewrite length_fmap. Qed.

Lemma basis_nonempty : basis ≠ [].
Proof. by apply length_monomial_basis_pos. Qed.

Lemma vandermonde_values points :
  Forall (fun p => p ≠ []) points →
  vandermonde_matrix cell degree points false = Ok (row <$> points).
Proof. intros Hpoints. by rewrite vandermonde_matrix_values. Qed.

Lemma vandermonde_gradients points :
  Forall (fun p => p ≠ []) points →
  vandermonde_matrix cell degree points true = Ok (grads <$> points).
Proof.
  intros Hpoints. unfold grads, basis.
  remember (Z.to_nat degree) as n eqn:Hn.
  assert (degree = Z.of_nat n) as -> by lia.
  rewrite vandermonde_matrix_grad_loop by (done || lia).
  by rewrite loop_exponents_monomial_basis by lia.
Qed.

Lemma length_grad_monomial e p : length (grad_monomial (dim cell) e p) = dim cell.
Proof. by destruct Hdim as [-> | ->]. Qed.

Context (nodes : matrix) (entity_nodes : option (gmap nat (gmap nat (list nat)))).
Context (el : FiniteElement.t).
Context (Hel : FiniteElement.__init__ cell degree nodes entity_nodes = Ok el).

Let C := FiniteElement.basis_coefs el.

Lemma constructed_element :
  FiniteElement.cell el = cell
  ∧ FiniteElement.degree el = degree
  ∧ FiniteElement.nodes el = nodes
  ∧ FiniteElement.node_count el = length nodes
  ∧ Forall (fun p => p ≠ []) nodes
  ∧ nodes ≠ []
  ∧ length basis = length nodes
  ∧ length C = length nodes
  ∧ Forall (fun r => length r = length nodes) C
  ∧ matmul (row <$> nodes) C = identity (length nodes)
  ∧ matmul C (row <$> nodes) = identity (length nodes).
Proof.
  apply FiniteElement_init_inv in Hel
    as (V & HV & HW & Hcell & Hdegree & Hnodes & Hcount).
  pose proof (vandermonde_matrix_points _ _ _ _ Hdeg HV) as Hne.
  rewrite vandermonde_values in HV by done. injection HV as <-.
  destruct (np_linalg_inv_ok _ _ HW) as (Hn & Hsq & Hr & Hl & HC).
  fold C in Hr, Hl, HC. rewrite length_fmap in Hn, Hsq, Hr, Hl, HC.
  assert (nodes ≠ []) as Hnonempty by (by intros ->).
  repeat split; try done.
  - destruct nodes as [|p nodes']; [done|].
    apply Forall_fmap, Forall_cons in Hsq as [Hp _]. cbn in Hp.
    by rewrite length_row in Hp.
  - by rewrite <- (length_matmul _ (row <$> nodes)), Hl, length_identity.
Qed.

Lemma ncols_coefs : ncols C = length nodes.
Proof.
  destruct constructed_element as (_ & _ & _ & _ & _ & Hne & _ & HlenC & HC & _).
  apply ncols_rows; [done|]. intros HCnil. rewrite HCnil in HlenC.
  destruct nodes; [done|discriminate HlenC].
Qed.

Lemma tabulate_values_matmul points :
  Forall (fun p => p ≠ []) points →
  FiniteElement.tabulate el points false = Ok (matmul (row <$> points) C).
Proof.
  intros Hpoints.
  destruct constructed_element as (Hcell & Hdegree & _ & _ & _ & _ & Hb & HlenC & _).
  unfold FiniteElement.tabulate. rewrite Hcell, Hdegree.
  rewrite vandermonde_values by done. cbn [mbind result_bind]. fold C.
  unfold np_matmul. rewrite bool_decide_eq_true_2; [done|].
  apply Forall_fmap, Forall_true. intros p. cbn.
  by rewrite length_row, HlenC.
Qed.

Lemma tabulate_gradients_einsum points :
  Forall (fun p => p ≠ []) points →
  FiniteElement.tabulate el points true
  = Ok ((fun p => (fun l => (fun k => dot (col k (grads p)) (col l C))
                              <$> seq 0 (dim cell))
                    <$> seq 0 (length nodes))
          <$> points).
Proof.
  intros Hpoints.
  destruct constructed_element as (Hcell & Hdegree & _ & _ & _ & _ & Hb & HlenC & _).
  unfold FiniteElement.tabulate. rewrite Hcell, Hdegree.
  rewrite vandermonde_gradients by done. cbn [mbind result_bind]. fold C.
  unfold einsum_ijk_jl_ilk. rewrite bool_decide_eq_true_2.
  2:{ apply Forall_fmap, Forall_true. intros p. cbn. unfold grads.
      by rewrite length_fmap, HlenC. }
  rewrite ncols_coefs. f_equal.
  destruct points as [|p0 points']; [done|].
  assert (ncols (hd [] (grads <$> p0 :: points')) = dim cell) as ->;
    [|by rewrite <- list_fmap_compose].
  cbn [fmap list_fmap hd]. unfold ncols, grads.
  pose proof basis_nonempty as Hb0.
  destruct basis as [|e0 basis']; [done|].
  cbn [fmap list_fmap hd]. apply length_grad_monomial.
Qed.

(** The tabulation at any points applied to the values at the nodes of a
    polynomial of the space gives the values of the polynomial. *)
Lemma matvec_tabulation points (coefs : vector) :
  length coefs = length basis →
  matvec (matmul (row <$> points) C) (matvec (row <$> nodes) coefs)
  = matvec (row <$> points) coefs.
Proof.
  intros Hcoefs.
  destruct constructed_element
    as (_ & _ & _ & _ & _ & Hne & Hb & HlenC & HC & _ & Hl).
  rewrite matvec_matmul.
  - rewrite <- (matvec_matmul C (row <$> nodes)).
    + by rewrite Hl, <- Hb, <- Hcoefs, matvec_identity.
    + apply Forall_fmap, Forall_true. intros p. cbn.
      destruct nodes as [|p0 nodes']; [done|].
      unfold ncols. cbn [fmap list_fmap hd]. by rewrite !length_row.
  - rewrite ncols_coefs. done.
Qed.

End element_structure.

(** X8.  What a constructed element holds, on a cell of dimension 1 or
    2: the degree is at least 0; [node_count] is the number of nodes
    given, which is the dimension of the polynomial space; [basis_coefs]
    is a square matrix of that size, and it is the inverse, on both
    sides, of the Vandermonde matrix at the nodes. *)
Theorem constructed_element_invariants cell degree nodes entity_nodes el :
  (dim cell = 1 ∨ dim cell = 2)%nat →
  FiniteElement.__init__ cell degree nodes entity_nodes = Ok el →
  ∃ V, vandermonde_matrix cell degree nodes false = Ok V
       ∧ (0 <= degree)%Z
       ∧ FiniteElement.nodes el = nodes
       ∧ FiniteElement.node_count el = length nodes
       ∧ Z.of_nat (FiniteElement.node_count el)
         = expected_count (dim cell) degree
       ∧ length (FiniteElement.basis_coefs el) = FiniteElement.node_count el
       ∧ Forall (fun r => length r = FiniteElement.node_count el)
                (FiniteElement.basis_coefs el)
       ∧ matmul V (FiniteElement.basis_coefs el)
         = identity (FiniteElement.node_count el)
       ∧ matmul (FiniteElement.basis_coefs el) V
         = identity (FiniteElement.node_count el).
Proof.
  intros Hdim Hel.
  pose proof (constructed_degree _ _ _ _ _ Hel) as Hdeg.
  destruct (constructed_element _ _ Hdim Hdeg _ _ _ Hel)
    as (_ & _ & Hnodes & Hcount & Hne & _ & Hb & HlenC & HC & Hr & Hl).
  eexists. split; [by apply vandermonde_matrix_values|].
  rewrite Hcount. repeat split; try done.
  rewrite <- Hb, length_monomial_basis by done. f_equal. lia.
Qed.

Lemma constructed_element_invariants_witness :
  ∃ el V,
    FiniteElement.__init__ ReferenceTriangle 1 triangle_P1_nodes None = Ok el
    ∧ vandermonde_matrix ReferenceTriangle 1 triangle_P1_nodes false = Ok V
    ∧ FiniteElement.node_count el = 3%nat
    ∧ matmul (FiniteElement.basis_coefs el) V = identity 3.
Proof.
  destruct (is_ok_inv
              (FiniteElement.__init__ ReferenceTriangle 1 triangle_P1_nodes None))
    as [el Hel]; [vm_compute; reflexivity|].
  destruct (constructed_element_invariants ReferenceTriangle 1
              triangle_P1_nodes None el)
    as (V & HV & _ & _ & Hcount & _ & _ & _ & _ & Hl); [by right|exact Hel|].
  exists el, V. rewrite Hcount in Hl.
  split; [exact Hel|]. split; [exact HV|]. split; [exact Hcount|exact Hl].
Defined.

(** X9.  A negative degree is not checked by the constructor either: no
    element is constructed, and without an entity map the failure is the
    [ValueError] of [np.hstack] inside [vandermonde_matrix]. *)
Theorem negative_degree_raises_ValueError cell degree nodes :
  (degree < 0)%Z →
  FiniteElement.__init__ cell degree nodes None = Raise ValueError
  ∧ ∀ entity_nodes el,
      FiniteElement.__init__ cell degree nodes entity_nodes ≠ Ok el.
Proof.
  intros Hdeg.
  assert (vandermonde_matrix cell degree nodes false = Raise ValueError)
    as HV.
  { unfold vandermonde_matrix. by rewrite py_range_neg by lia. }
  split.
  - unfold FiniteElement.__init__. cbn [mbind result_bind]. by rewrite HV.
  - intros en el (V & HV' & _)%FiniteElement_init_inv. congruence.
Qed.

Lemma negative_degree_raises_ValueError_witness :
  FiniteElement.__init__ ReferenceInterval (-1) interval_P1_nodes None
  = Raise ValueError.
Proof.
  apply (negative_degree_raises_ValueError ReferenceInterval (-1)
           interval_P1_nodes).
  lia.
Defined.

(** X10.  A node list whose length is not the dimension of the
    polynomial space gives a Vandermonde matrix that is not square, and
    the constructor fails with the [LinAlgError] of [np.linalg.inv]. *)
Theorem wrong_node_count_raises_LinAlgError cell degree nodes :
  (dim cell = 1 ∨ dim cell = 2)%nat →
  (0 <= degree)%Z →
  nodes ≠ [] →
  Forall (fun p => p ≠ []) nodes →
  Z.of_nat (length nodes) ≠ expected_count (dim cell) degree →
  FiniteElement.__init__ cell degree nodes None = Raise LinAlgError.
Proof.
  intros Hdim Hdeg Hne Hnodes Hcount.
  unfold FiniteElement.__init__. cbn [mbind result_bind].
  rewrite vandermonde_matrix_values by done. cbn [mbind result_bind].
  rewrite np_linalg_inv_singular; [done|].
  intros (_ & Hsq & _). rewrite length_fmap in Hsq.
  destruct nodes as [|p nodes']; [done|].
  apply Forall_fmap, Forall_cons in Hsq as [Hp _]. cbv beta in Hp.
  unfold compose in Hp. rewrite length_fmap in Hp. apply Hcount.
  rewrite <- Hp, length_monomial_basis by done. f_equal. lia.
Qed.

Lemma wrong_node_count_raises_LinAlgError_witness :
  FiniteElement.__init__ ReferenceInterval 2 interval_P1_nodes None
  = Raise LinAlgError.
Proof.
  apply (wrong_node_count_raises_LinAlgError ReferenceInterval 2
           interval_P1_nodes);
    [by left|lia|done|by repeat constructor|cbn; lia].
Defined.

(** X11.  With an entity map that is not empty, the constructor reads
    [entity_nodes[d][0]] for every [d] up to the dimension of the cell
    before it looks at the nodes: if one of these entries is missing it
    fails with [KeyError], whatever the degree and the nodes are. *)
Theorem missing_entity_raises_KeyError cell degree nodes
    (en : gmap nat (gmap nat (list nat))) (d : nat) :
  en ≠ ∅ →
  (d <= dim cell)%nat →
  (en !! d ≫= fun m => m !! 0%nat) = None →
  FiniteElement.__init__ cell degree nodes (Some en) = Raise KeyError.
Proof.
  intros Hen Hd Hmiss. unfold FiniteElement.__init__.
  rewrite decide_False by done.
  rewrite (comprehension_raise _ _ KeyError); [done| |].
  - intros d' _. unfold getkey.
    destruct (en !! d') as [m|]; [|by left]. cbn [mbind result_bind].
    destruct (m !! 0%nat) as [l|]; [right; by eexists|by left].
  - exists d. split; [apply elem_of_seq; lia|].
    unfold getkey. destruct (en !! d) as [m|]; [|done].
    cbn [mbind option_bind] in Hmiss. cbn [mbind result_bind].
    by rewrite Hmiss.
Qed.

Lemma missing_entity_raises_KeyError_witness :
  FiniteElement.__init__ ReferenceInterval 1 interval_P1_nodes
    (Some {[ 0%nat := {[ 0%nat := [0%nat]; 1%nat := [1%nat] ]} ]})
  = Raise KeyError.
Proof.
  apply (missing_entity_raises_KeyError ReferenceInterval 1 interval_P1_nodes
           {[ 0%nat := {[ 0%nat := [0%nat]; 1%nat := [1%nat] ]} ]} 1).
  - intros H. apply (f_equal (fun m => m !! 0%nat)) in H.
    rewrite lookup_singleton_eq, lookup_empty in H. discriminate H.
  - cbn. lia.
  - reflexivity.
Defined.

Section tabulation_facts.

Lemma dot_ones {J} (r : vector) (l : list J) :
  length r = length l → dot r ((fun _ => 1) <$> l) = foldr Qcplus 0 r.
Proof.
  revert l. induction r as [|x r IH]; intros [|j l] Hlen; try done.
  rewrite fmap_cons, dot_cons. cbn [foldr]. rewrite IH by (by injection Hlen).
  ring.
Qed.

Lemma monomial_basis_head (d n : nat) :
  (d = 1 ∨ d = 2)%nat →
  ∃ rest, monomial_basis d n = (0, 0)%nat :: rest.
Proof. intros [-> | ->]; cbn [monomial_basis seq]; by eexists. Qed.

Lemma dot_unit_head {J} (f : J → Qc) (j : J) (l : list J) :
  dot (f <$> j :: l) (1 :: ((fun _ => 0) <$> l)) = f j.
Proof. rewrite fmap_cons, dot_cons, dot_fmap_zero_r. ring. Qed.

Lemma nth_fmap_seq (f : nat → Qc) (n k : nat) :
  (k < n)%nat → nth k (f <$> seq 0 n) 0 = f k.
Proof.
  intros Hk. apply nth_lookup_Some.
  by rewrite list_lookup_fmap, lookup_seq_lt.
Qed.

Lemma vandermonde_gradient_points cell degree points T :
  (1 <= dim cell)%nat → (0 <= degree)%Z →
  vandermonde_matrix cell degree points true = Ok T →
  Forall (fun p => p ≠ []) points.
Proof.
  intros Hdim Hdeg HT. apply Forall_forall. intros p Hp ->.
  unfold vandermonde_matrix in HT.
  rewrite (py_range_pos (degree + 1)) in HT by lia. cbn [for_loop] in HT.
  replace ((Z.of_nat (dim cell) - 1) * 0 + 1)%Z with 1%Z in HT by lia.
  change (py_range 1) with [0%Z] in HT. cbn [comprehension] in HT.
  rewrite (py_range_pos (Z.of_nat (dim cell))) in HT by lia.
  cbn [comprehension] in HT. by rewrite column_raise in HT.
Qed.

End tabulation_facts.

(** X12.  The basis functions of a constructed element sum to 1 at
    every point: each row of the value tabulation has the sum 1. *)
Theorem tabulate_partition_of_unity cell degree nodes entity_nodes el points :
  (dim cell = 1 ∨ dim cell = 2)%nat →
  FiniteElement.__init__ cell degree nodes entity_nodes = Ok el →
  Forall (fun p => p ≠ []) points →
  ∃ phi, FiniteElement.tabulate el points false = Ok phi
         ∧ Forall (fun r => foldr Qcplus 0 r = 1) phi.
Proof.
  intros Hdim Hel Hpoints.
  pose proof (constructed_degree _ _ _ _ _ Hel) as Hdeg.
  destruct (constructed_element _ _ Hdim Hdeg _ _ _ Hel)
    as (_ & _ & _ & _ & _ & _ & Hb & HlenC & HC & _ & _).
  pose proof (ncols_coefs _ _ Hdim Hdeg _ _ _ Hel) as Hcols.
  eexists. split; [by eapply tabulate_values_matmul|].
  destruct (monomial_basis_head (dim cell) (Z.to_nat degree) Hdim)
    as [rest Hbasis].
  set (e0 := 1 :: ((fun _ => 0) <$> rest) : vector).
  assert (∀ ps : matrix,
            matvec ((fun p => (fun e => eval_monomial e p)
                                <$> monomial_basis (dim cell) (Z.to_nat degree))
                      <$> ps) e0
            = (fun _ => 1) <$> ps) as Hones.
  { intros ps. unfold matvec. rewrite <- list_fmap_compose.
    apply list_fmap_ext. intros _ p _. unfold compose. rewrite Hbasis.
    unfold e0. rewrite (dot_unit_head (fun e => eval_monomial e p)).
    unfold eval_monomial. cbn [fst snd Qcpower]. ring. }
  assert (length e0 = length (monomial_basis (dim cell) (Z.to_nat degree)))
    as He0 by (unfold e0; rewrite Hbasis; cbn; by rewrite length_fmap).
  pose proof (matvec_tabulation _ _ Hdim Hdeg _ _ _ Hel points e0 He0) as Htab.
  rewrite !Hones in Htab. unfold matvec in Htab.
  apply Forall_forall. intros r Hr.
  assert (length r = length nodes) as Hlen.
  { unfold matmul in Hr. apply list_elem_of_fmap in Hr as (v & -> & _).
    unfold vecmat. by rewrite length_fmap, length_seq. }
  rewrite <- (dot_ones r nodes Hlen).
  apply list_elem_of_lookup in Hr as [i Hi].
  apply (f_equal (fun l => l !! i)) in Htab.
  rewrite list_lookup_fmap, Hi in Htab. cbn in Htab.
  rewrite list_lookup_fmap in Htab.
  destruct (points !! i); [by injection Htab|done].
Qed.

Lemma tabulate_partition_of_unity_witness :
  ∃ el phi,
    FiniteElement.__init__ ReferenceTriangle 2 triangle_P2_nodes None = Ok el
    ∧ FiniteElement.tabulate el [[Qc_of_Z 1 / Qc_of_Z 5; Qc_of_Z 3]] false
      = Ok phi
    ∧ Forall (fun r => foldr Qcplus 0 r = 1) phi.
Proof.
  destruct (is_ok_inv
              (FiniteElement.__init__ ReferenceTriangle 2 triangle_P2_nodes None))
    as [el Hel]; [vm_compute; reflexivity|].
  destruct (tabulate_partition_of_unity ReferenceTriangle 2 triangle_P2_nodes
              None el [[Qc_of_Z 1 / Qc_of_Z 5; Qc_of_Z 3]])
    as (phi & Hphi & Hsum); [by right|exact Hel|by repeat constructor|].
  exists el, phi. split; [exact Hel|]. split; [exact Hphi|exact Hsum].
Defined.



(** X14.  The shapes the docstring of [tabulate] promises.  For a
    constructed element and points with at least one coordinate, the
    value tabulation has the shape (points, nodes) and the gradient
    tabulation the shape (points, nodes, dim); neither fails. *)
Theorem tabulate_shape cell degree nodes entity_nodes el points :
  (dim cell = 1 ∨ dim cell = 2)%nat →
  FiniteElement.__init__ cell degree nodes entity_nodes = Ok el →
  Forall (fun p => p ≠ []) points →
  (∃ phi, FiniteElement.tabulate el points false = Ok phi
          ∧ length phi = length points
          ∧ Forall (fun r => length r = FiniteElement.node_count el) phi)
  ∧ (∃ T, FiniteElement.tabulate el points true = Ok T
          ∧ length T = length points
          ∧ Forall (fun slab =>
                      length slab = FiniteElement.node_count el
                      ∧ Forall (fun g => length g = dim cell) slab) T).
Proof.
  intros Hdim Hel Hpoints.
  pose proof (constructed_degree _ _ _ _ _ Hel) as Hdeg.
  destruct (constructed_element _ _ Hdim Hdeg _ _ _ Hel)
    as (_ & _ & _ & Hcount & _).
  pose proof (ncols_coefs _ _ Hdim Hdeg _ _ _ Hel) as Hcols.
  rewrite Hcount. split; eexists.
  - split; [by eapply tabulate_values_matmul|].
    unfold matmul. rewrite !length_fmap. split; [done|].
    apply Forall_fmap, Forall_true. intros r. unfold compose.
    unfold vecmat. by rewrite length_fmap, length_seq.
  - split; [by eapply tabulate_gradients_einsum|].
    rewrite length_fmap. split; [done|].
    apply Forall_fmap, Forall_true. intros p. unfold compose.
    rewrite length_fmap, length_seq. split; [done|].
    apply Forall_fmap, Forall_true. intros l. unfold compose.
    by rewrite length_fmap, length_seq.
Qed.

Lemma tabulate_shape_witness :
  ∃ el phi T,
    FiniteElement.__init__ ReferenceTriangle 1 triangle_P1_nodes None = Ok el
    ∧ FiniteElement.tabulate el [[0; 0]; [1; Qc_of_Z 2]] false = Ok phi
    ∧ Forall (fun r => length r = FiniteElement.node_count el) phi
    ∧ FiniteElement.tabulate el [[0; 0]; [1; Qc_of_Z 2]] true = Ok T
    ∧ length T = 2%nat.
Proof.
  destruct (is_ok_inv
              (FiniteElement.__init__ ReferenceTriangle 1 triangle_P1_nodes None))
    as [el Hel]; [vm_compute; reflexivity|].
  destruct (tabulate_shape ReferenceTriangle 1 triangle_P1_nodes None el
              [[0; 0]; [1; Qc_of_Z 2]])
    as [(phi & Hphi & _ & Hrows) (T & HT & HlenT & _)];
    [by right|exact Hel|repeat constructor; discriminate|].
  exists el, phi, T. split; [exact Hel|]. split; [exact Hphi|].
  split; [exact Hrows|]. split; [exact HT|exact HlenT].
Defined.

(** X15.  Tabulation is done point by point: on a cell of dimension 1 or
    2 and for a degree of at least 0, the row of a tabulation that
    belongs to a point is the tabulation at that point alone, in value
    mode and in gradient mode. *)
Theorem tabulate_pointwise (el : FiniteElement.t) (points : matrix) :
  (dim (FiniteElement.cell el) = 1 ∨ dim (FiniteElement.cell el) = 2)%nat →
  (0 <= FiniteElement.degree el)%Z →
  (∀ phi, FiniteElement.tabulate el points false = Ok phi →
          Forall2 (fun p r => FiniteElement.tabulate el [p] false = Ok [r])
                  points phi)
  ∧ (∀ T, FiniteElement.tabulate el points true = Ok T →
          Forall2 (fun p slab => FiniteElement.tabulate el [p] true = Ok [slab])
                  points T).
Proof.
  intros Hdim Hdeg.
  set (C := FiniteElement.basis_coefs el).
  split.
  - intros phi. unfold FiniteElement.tabulate.
    destruct (vandermonde_matrix _ _ points false) as [V|] eqn:HV; [|done].
    pose proof (vandermonde_matrix_points _ _ _ _ Hdeg HV) as Hne.
    rewrite vandermonde_values in HV by done. injection HV as <-.
    cbn [mbind result_bind]. unfold np_matmul.
    case_bool_decide as Hshape; [|done]. intros [= <-].
    unfold matmul. rewrite <- list_fmap_compose.
    apply Forall2_fmap_r, Forall_Forall2_diag, Forall_forall.
    intros p Hp.
    rewrite (vandermonde_values _ _ Hdim Hdeg [p])
      by (constructor; [by eapply (proj1 (Forall_forall _ _) Hne)|done]).
    cbn [mbind result_bind fmap list_fmap].
    rewrite bool_decide_eq_true_2; [done|].
    constructor; [|done].
    eapply (proj1 (Forall_forall _ _) Hshape), list_elem_of_fmap.
    by eexists.
  - intros T. unfold FiniteElement.tabulate.
    destruct (vandermonde_matrix _ _ points true) as [G|] eqn:HG; [|done].
    assert (Forall (fun p => p ≠ []) points) as Hne
      by (eapply vandermonde_gradient_points; [|done..]; destruct Hdim; lia).
    rewrite vandermonde_gradients in HG by done. injection HG as <-.
    cbn [mbind result_bind]. unfold einsum_ijk_jl_ilk.
    case_bool_decide as Hshape; [|done]. intros [= <-].
    rewrite <- list_fmap_compose.
    apply Forall2_fmap_r, Forall_Forall2_diag, Forall_forall.
    intros p Hp.
    rewrite (vandermonde_gradients _ _ Hdim Hdeg [p])
      by (constructor; [by eapply (proj1 (Forall_forall _ _) Hne)|done]).
    cbn [mbind result_bind fmap list_fmap].
    rewrite bool_decide_eq_true_2.
    2:{ constructor; [|done].
        eapply (proj1 (Forall_forall _ _) Hshape), list_elem_of_fmap.
        by eexists. }
    unfold compose. do 3 f_equal.
    destruct points as [|p0 points']; [by apply elem_of_nil in Hp|].
    unfold ncols. cbn [fmap list_fmap hd].
    destruct (monomial_basis_head _ (Z.to_nat (FiniteElement.degree el)) Hdim)
      as [rest ->].
    cbn [fmap list_fmap hd]. by rewrite !length_grad_monomial.
Qed.

Lemma tabulate_pointwise_witness :
  ∃ el,
    FiniteElement.__init__ ReferenceInterval 1 interval_P1_nodes None = Ok el
    ∧ Forall2 (fun p r => FiniteElement.tabulate el [p] false = Ok [r])
        [[0]; [Qc_of_Z 1 / Qc_of_Z 2]] [[1; 0]; [Qc_of_Z 1 / Qc_of_Z 2; Qc_of_Z 1 / Qc_of_Z 2]].
Proof.
  destruct (is_ok_inv
              (FiniteElement.__init__ ReferenceInterval 1 interval_P1_nodes None))
    as [el Hel]; [vm_compute; reflexivity|].
  exists el. split; [exact Hel|].
  pose proof Hel as (_ & _ & _ & Hcell & Hdegree & _)%FiniteElement_init_inv.
  apply (tabulate_pointwise el [[0]; [Qc_of_Z 1 / Qc_of_Z 2]]).
  - left. rewrite Hcell. reflexivity.
  - rewrite Hdegree. lia.
  - revert Hel. unfold FiniteElement.__init__.
    cbn [mbind result_bind].
    destruct (vandermonde_matrix ReferenceInterval 1 interval_P1_nodes false)
      as [V|] eqn:HV; [|discriminate].
    vm_compute in HV. injection HV as <-.
    cbn [mbind result_bind].
    destruct (np_linalg_inv _) as [W|] eqn:HW; [|discriminate].
    vm_compute in HW. injection HW as <-.
    intros [= <-]. apply (bool_decide_eq_true_1 (_ = _)). vm_compute.
    reflexivity.
Defined.



(** * The entity maps of [LagrangeElement] and [VectorFiniteElement] *)

Section entity_maps.

Lemma for_loop_app {A S} (body : S → A → result S) (l1 l2 : list A) (s : S) :
  for_loop (l1 ++ l2) body s = s' ← for_loop l1 body s; for_loop l2 body s'.
Proof.
  revert s. induction l1 as [|a l1 IH]; intros s; [done|].
  cbn [app for_loop]. destruct (body s a) as [s'|e]; [|done].
  cbn [mbind result_bind]. apply IH.
Qed.

Context (c : ReferenceCell).

Let empty_lists (count : nat) : gmap nat (list nat) :=
  list_to_map ((fun i => (i, [])) <$> seq 0 count).
Let body := fun (en : gmap nat (gmap nat (list nat))) (d : nat) =>
  count ← getitem (entity_counts c) d; Ok (<[d := empty_lists count]> en).

Lemma lookup_empty_lists count i :
  empty_lists count !! i = if decide (i < count)%nat then Some [] else None.
Proof.
  unfold empty_lists. case_decide as Hi.
  - apply elem_of_list_to_map_1.
    + rewrite <- list_fmap_compose. cbn. rewrite list_fmap_id. apply NoDup_seq.
    + apply list_elem_of_fmap. exists i. split; [done|]. apply elem_of_seq. lia.
  - apply not_elem_of_list_to_map_1. rewrite <- list_fmap_compose. cbn.
    rewrite list_fmap_id, elem_of_seq. lia.
Qed.

(** The dict comprehension that opens both constructors. *)
Lemma empty_entity_map (k : nat) :
  (k <= length (entity_counts c))%nat →
  ∃ en, for_loop (seq 0 k) body ∅ = Ok en
        ∧ (∀ d, (d < k)%nat → is_Some (en !! d))
        ∧ ∀ d i, entity_list en (d, i)
                 = if decide (d < k ∧ i < default 0 (entity_counts c !! d))%nat
                   then Some [] else None.
Proof.
  induction k as [|k IH]; intros Hk.
  - exists ∅. split; [done|]. split; [lia|].
    intros d i. unfold entity_list. cbn.
    rewrite lookup_empty, decide_False by lia. done.
  - destruct IH as (en & Hen & Hdom & Hlook); [lia|].
    destruct (lookup_lt_is_Some_2 (entity_counts c) k) as [count Hcount]; [lia|].
    exists (<[k := empty_lists count]> en). split; [|split].
    + rewrite seq_S, for_loop_app, Hen. cbn [mbind result_bind for_loop Nat.add].
      unfold body at 1, getitem. rewrite Hcount. done.
    + intros d Hd. destruct (decide (d = k)) as [->|Hne].
      * by rewrite lookup_insert_eq.
      * rewrite lookup_insert_ne by done. apply Hdom. lia.
    + intros d i. unfold entity_list. cbn [fst snd].
      destruct (decide (d = k)) as [->|Hd].
      * rewrite lookup_insert_eq. cbn [mbind option_bind].
        rewrite lookup_empty_lists, Hcount. cbv [default from_option Datatypes.id].
        repeat case_decide; (done || lia).
      * rewrite lookup_insert_ne by done.
        specialize (Hlook d i). unfold entity_list in Hlook. cbn [fst snd] in Hlook.
        rewrite Hlook. repeat case_decide; (done || lia).
Qed.

Lemma body_out_of_range en d :
  (length (entity_counts c) <= d)%nat → body en d = Raise IndexError.
Proof. intros Hd. unfold body, getitem. by rewrite lookup_ge_None_2. Qed.

Lemma empty_entity_map_raise (k : nat) :
  (length (entity_counts c) < k)%nat →
  for_loop (seq 0 k) body ∅ = Raise IndexError.
Proof.
  intros Hk.
  destruct (empty_entity_map (length (entity_counts c))) as (en & Hen & _);
    [done|].
  replace k with (length (entity_counts c)
                  + S (k - S (length (entity_counts c))))%nat by lia.
  rewrite seq_app, for_loop_app, Hen. cbn [mbind result_bind seq for_loop Nat.add].
  by rewrite body_out_of_range.
Qed.

(** The loop over the nodes, for either constructor: [g] gives the
    indices a node contributes. *)
Context (g : nat → list nat).
Context (add : gmap nat (gmap nat (list nat)) → nat → vector
               → gmap nat (gmap nat (list nat))).
Context (Hadd : ∀ en k n,
  add en k n = match first_entity c n with
               | Some (d, i) => alter (alter (fun l => l ++ g k) i) d en
               | None => en
               end).

Lemma entity_list_add en k n e :
  entity_list (add en k n) e
  = (fun l => if decide (first_entity c n = Some e) then l ++ g k else l)
      <$> entity_list en e.
Proof.
  rewrite Hadd. destruct e as [d i]. unfold entity_list. cbn [fst snd].
  destruct (first_entity c n) as [[d' i']|].
  - destruct (decide (d = d')) as [->|Hd].
    + rewrite lookup_alter_eq. destruct (en !! d') as [m|]; [|done].
      cbn [fmap option_fmap option_map mbind option_bind].
      destruct (decide (i = i')) as [->|Hi].
      * rewrite lookup_alter_eq. destruct (m !! i') as [l|]; [|done].
        cbn [fmap option_fmap option_map]. by rewrite decide_True.
      * rewrite lookup_alter_ne by done. destruct (m !! i) as [l|]; [|done].
        cbn [fmap option_fmap option_map]. by rewrite decide_False by congruence.
    + rewrite lookup_alter_ne by done.
      destruct (en !! d ≫= _) as [l|]; [|done].
      cbn [fmap option_fmap option_map]. by rewrite decide_False by congruence.
  - destruct (en !! d ≫= _) as [l|]; [|done].
    cbn [fmap option_fmap option_map]. by rewrite decide_False.
Qed.

Lemma domain_foldl (L : list (nat * vector)) en d :
  is_Some (en !! d) →
  is_Some (foldl (fun en '(k, n) => add en k n) en L !! d).
Proof.
  revert en. induction L as [|[k n] L IH]; intros en Hd; [done|].
  cbn [foldl]. apply IH. rewrite Hadd.
  destruct (first_entity c n) as [[d' i']|]; [|done].
  destruct (decide (d = d')) as [->|Hne].
  - rewrite lookup_alter_eq. by apply fmap_is_Some.
  - by rewrite lookup_alter_ne.
Qed.

Lemma entity_list_foldl (L : list (nat * vector)) en e :
  entity_list (foldl (fun en '(k, n) => add en k n) en L) e
  = (fun l => l ++ (filter (fun kn => first_entity c kn.2 = Some e) L
                    ≫= fun kn => g kn.1))
      <$> entity_list en e.
Proof.
  revert en. induction L as [|[k n] L IH]; intros en.
  - cbn. destruct (entity_list en e); [|done]. cbn. by rewrite app_nil_r.
  - cbn [foldl]. rewrite IH, entity_list_add.
    destruct (entity_list en e) as [l|]; [|done].
    cbn [fmap option_fmap option_map]. f_equal.
    destruct (decide (first_entity c n = Some e)) as [Hn|Hn].
    + rewrite filter_cons_True by done. rewrite bind_cons. cbn [fst].
      by rewrite app_assoc.
    + by rewrite filter_cons_False by done.
Qed.

End entity_maps.

Section constructors.

Lemma getkey_entity_list (en : gmap nat (gmap nat (list nat))) (d : nat) :
  (m ← getkey en d; l ← getkey m 0%nat; Ok (length l))
  = match entity_list en (d, 0%nat) with
    | Some l => Ok (length l)
    | None => Raise KeyError
    end.
Proof.
  unfold getkey, entity_list. cbn [fst snd].
  destruct (en !! d) as [m|]; [|done]. cbn [mbind result_bind option_bind].
  by destruct (m !! 0%nat).
Qed.

Lemma nodes_per_entity_ok (en : gmap nat (gmap nat (list nat))) (k : nat) :
  (∀ d, (d < k)%nat → is_Some (entity_list en (d, 0%nat))) →
  comprehension (fun d => m ← getkey en d; l ← getkey m 0%nat; Ok (length l))
                (seq 0 k)
  = Ok ((fun d => length (default [] (entity_list en (d, 0%nat)))) <$> seq 0 k).
Proof.
  intros Hall. apply comprehension_ok. intros d Hd%elem_of_seq.
  rewrite getkey_entity_list. by destruct (Hall d) as [l ->]; [lia|].
Qed.

Lemma nodes_per_entity_raise (en : gmap nat (gmap nat (list nat))) (k d : nat) :
  (d < k)%nat → entity_list en (d, 0%nat) = None →
  comprehension (fun d => m ← getkey en d; l ← getkey m 0%nat; Ok (length l))
                (seq 0 k)
  = Raise KeyError.
Proof.
  intros Hd Hnone. apply comprehension_raise.
  - intros d' _. rewrite getkey_entity_list.
    destruct (entity_list en (d', 0%nat)); [right; by eexists|by left].
  - exists d. split; [apply elem_of_seq; lia|].
    by rewrite getkey_entity_list, Hnone.
Qed.

Lemma vector_add_entity_node c en k n :
  VectorFiniteElement.add_entity_node c en k n
  = match first_entity c n with
    | Some (d, i) => alter (alter (fun l => l ++ [2 * k; 2 * k + 1]%nat) i) d en
    | None => en
    end.
Proof. done. Qed.

Lemma lagrange_add_entity_node c en k n :
  LagrangeElement.add_entity_node c en k n
  = match first_entity c n with
    | Some (d, i) => alter (alter (fun l => l ++ [k]) i) d en
    | None => en
    end.
Proof. done. Qed.

Lemma length_bind_replicate {A} (l : list A) (k : nat) :
  length (n ← l; replicate k n) = (k * length l)%nat.
Proof.
  induction l as [|x l IH]; [cbn; lia|].
  rewrite bind_cons, length_app, length_replicate, IH. cbn [length]. lia.
Qed.

End constructors.

(** X17.  When the constructor of the vector element fails and when it
    does not.  An element without nodes is refused with the [ValueError]
    of [np.vstack]; then a cell whose [entity_counts] has no entry for a
    dimension up to [dim] gives [IndexError]; then a dimension without
    any entity gives [KeyError], from [entity_nodes[d][0]].  In every
    other case the vector element is constructed. *)
Theorem vector_element_construction (fe : FiniteElement.t) :
  (FiniteElement.nodes fe = [] →
   VectorFiniteElement.__init__ fe = Raise ValueError)
  ∧ (FiniteElement.nodes fe ≠ [] →
     (length (entity_counts (FiniteElement.cell fe))
      <= dim (FiniteElement.cell fe))%nat →
     VectorFiniteElement.__init__ fe = Raise IndexError)
  ∧ (FiniteElement.nodes fe ≠ [] →
     (dim (FiniteElement.cell fe)
      < length (entity_counts (FiniteElement.cell fe)))%nat →
     (∃ d, (d <= dim (FiniteElement.cell fe))%nat
           ∧ entity_counts (FiniteElement.cell fe) !! d = Some 0%nat) →
     VectorFiniteElement.__init__ fe = Raise KeyError)
  ∧ (FiniteElement.nodes fe ≠ [] →
     (dim (FiniteElement.cell fe)
      < length (entity_counts (FiniteElement.cell fe)))%nat →
     (∀ d, (d <= dim (FiniteElement.cell fe))%nat →
           entity_counts (FiniteElement.cell fe) !! d ≠ Some 0%nat) →
     ∃ ve, VectorFiniteElement.__init__ fe = Ok ve).
Proof.
  set (c := FiniteElement.cell fe).
  unfold VectorFiniteElement.__init__. fold c.
  split; [intros ->; by rewrite decide_True|].
  split.
  { intros Hne Hshort. rewrite decide_False by done.
    cbn [mbind result_bind].
    by rewrite (empty_entity_map_raise c (dim c + 1)) by lia. }
  assert (∀ en0 d,
            is_Some (entity_list
              (foldl (fun en '(n_idx, n) =>
                        VectorFiniteElement.add_entity_node c en n_idx n)
                     en0 (imap pair (FiniteElement.nodes fe))) (d, 0%nat))
            ↔ is_Some (entity_list en0 (d, 0%nat))) as Hkeys.
  { intros en0 d.
    rewrite (entity_list_foldl c _ _ (vector_add_entity_node c)).
    apply fmap_is_Some. }
  split.
  - intros Hne Hlong (d & Hd & Hzero). rewrite decide_False by done.
    cbn [mbind result_bind].
    destruct (empty_entity_map c (dim c + 1)) as (en0 & -> & _ & Hlook); [lia|].
    cbn [mbind result_bind].
    rewrite (nodes_per_entity_raise _ _ d); [done|lia|].
    apply eq_None_not_Some. rewrite Hkeys, Hlook, Hzero.
    rewrite decide_False; [by intros [? ?]|]. cbn. lia.
  - intros Hne Hlong Hpos. rewrite decide_False by done.
    cbn [mbind result_bind].
    destruct (empty_entity_map c (dim c + 1)) as (en0 & -> & _ & Hlook); [lia|].
    cbn [mbind result_bind].
    rewrite nodes_per_entity_ok; [by eexists|].
    intros d Hd. rewrite Hkeys, Hlook.
    destruct (lookup_lt_is_Some_2 (entity_counts c) d) as [n Hn]; [lia|].
    rewrite Hn. rewrite decide_True; [done|].
    cbn. split; [lia|]. destruct n; [|lia]. exfalso. eapply Hpos; [|done]. lia.
Qed.

Lemma vector_element_construction_witness :
  ∃ fe ve,
    FiniteElement.__init__ ReferenceInterval 1 interval_P1_nodes None = Ok fe
    ∧ VectorFiniteElement.__init__ fe = Ok ve.
Proof.
  destruct (is_ok_inv
              (FiniteElement.__init__ ReferenceInterval 1 interval_P1_nodes None))
    as [fe Hfe]; [vm_compute; reflexivity|].
  destruct (FiniteElement_init_inv _ _ _ _ _ Hfe)
    as (_ & _ & _ & Hcell & _ & Hnodes & _).
  destruct (proj2 (proj2 (proj2 (vector_element_construction fe))))
    as [ve Hve].
  - rewrite Hnodes. discriminate.
  - rewrite Hcell. cbn. lia.
  - rewrite Hcell. intros [|[|d]] Hd; cbn; discriminate.
  - exists fe, ve. split; [exact Hfe|exact Hve].
Defined.

Section vector_constructor.

Context (fe : FiniteElement.t) (ve : VectorFiniteElement.t).
Context (Hve : VectorFiniteElement.__init__ fe = Ok ve).

Let c := FiniteElement.cell fe.

Lemma vector_init_fields :
  FiniteElement.nodes fe ≠ []
  ∧ (dim c < length (entity_counts c))%nat
  ∧ VectorFiniteElement.finite_element ve = fe
  ∧ VectorFiniteElement.nodes ve
    = (n ← FiniteElement.nodes fe; replicate (dim c) n)
  ∧ VectorFiniteElement.node_count ve
    = length (VectorFiniteElement.nodes ve)
  ∧ VectorFiniteElement.node_weights ve
    = (fun i => [(i + 1) mod 2; i mod 2]%Z)
        <$> py_range (Z.of_nat (length (VectorFiniteElement.nodes ve)))
  ∧ (∀ e, entity_list (VectorFiniteElement.entity_nodes ve) e
          = if decide (e.1 < dim c + 1
                       ∧ e.2 < default 0 (entity_counts c !! e.1))%nat
            then Some (k ← entity_members c (FiniteElement.nodes fe) e;
                       [2 * k; 2 * k + 1]%nat)
            else None)
  ∧ comprehension
      (fun d => m ← getkey (VectorFiniteElement.entity_nodes ve) d;
                l ← getkey m 0%nat; Ok (length l))
      (seq 0 (dim c + 1))
    = Ok (VectorFiniteElement.nodes_per_entity ve).
Proof.
  revert Hve. unfold VectorFiniteElement.__init__. fold c.
  case_decide as Hne; [done|]. cbn [mbind result_bind].
  destruct (decide (dim c < length (entity_counts c))%nat) as [Hlong|Hshort];
    [|by rewrite (empty_entity_map_raise c (dim c + 1)) by lia].
  destruct (empty_entity_map c (dim c + 1)) as (en0 & -> & _ & Hlook); [lia|].
  cbn [mbind result_bind].
  destruct (comprehension _ _) as [npe|] eqn:Hnpe; [|done].
  cbn [mbind result_bind]. intros [= <-].
  cbn [VectorFiniteElement.finite_element VectorFiniteElement.nodes
       VectorFiniteElement.node_count VectorFiniteElement.node_weights
       VectorFiniteElement.entity_nodes VectorFiniteElement.nodes_per_entity].
  repeat split; try done.
  intros [d i].
  rewrite (entity_list_foldl c _ _ (vector_add_entity_node c)), Hlook.
  cbn [fst snd]. case_decide; [|done].
  cbn [fmap option_fmap option_map app]. f_equal.
  unfold entity_members. by rewrite list_fmap_bind.
Qed.

End vector_constructor.

(** X18.  The nodes of a constructed vector element: every node of the
    scalar element is repeated [dim] times in a row, so that
    [node_count] is [dim] times the number of scalar nodes, and
    [node_weights] holds one pair per node, alternately (1, 0) and
    (0, 1). *)
Theorem vector_element_nodes (fe : FiniteElement.t) (ve : VectorFiniteElement.t) :
  VectorFiniteElement.__init__ fe = Ok ve →
  VectorFiniteElement.nodes ve
  = (n ← FiniteElement.nodes fe; replicate (dim (FiniteElement.cell fe)) n)
  ∧ VectorFiniteElement.node_count ve
    = (dim (FiniteElement.cell fe) * length (FiniteElement.nodes fe))%nat
  ∧ length (VectorFiniteElement.node_weights ve)
    = VectorFiniteElement.node_count ve
  ∧ ∀ i, (i < VectorFiniteElement.node_count ve)%nat →
         VectorFiniteElement.node_weights ve !! i
         = Some (if Nat.even i then [1; 0]%Z else [0; 1]%Z).
Proof.
  intros Hve.
  destruct (vector_init_fields fe ve Hve)
    as (_ & _ & _ & Hnodes & Hcount & Hweights & _).
  rewrite Hcount, Hweights, Hnodes, length_bind_replicate.
  split; [done|]. split; [done|].
  unfold py_range. rewrite Nat2Z.id, <- list_fmap_compose, length_fmap, length_seq.
  split; [done|]. intros i Hi.
  rewrite list_lookup_fmap, lookup_seq_lt by done. cbn [fmap option_fmap option_map].
  f_equal. unfold compose. cbn [Nat.add].
  destruct (Nat.even i) eqn:Heven.
  - apply Nat.even_spec in Heven as [k ->].
    replace (Z.of_nat (2 * k) + 1)%Z with (1 + Z.of_nat k * 2)%Z by lia.
    replace (Z.of_nat (2 * k)) with (0 + Z.of_nat k * 2)%Z by lia.
    by rewrite !Z_mod_plus_full.
  - assert (Nat.odd i = true) as [k ->]%Nat.odd_spec
      by (by rewrite <- Nat.negb_even, Heven).
    replace (Z.of_nat (2 * k + 1) + 1)%Z with (0 + (Z.of_nat k + 1) * 2)%Z by lia.
    replace (Z.of_nat (2 * k + 1)) with (1 + Z.of_nat k * 2)%Z by lia.
    by rewrite !Z_mod_plus_full.
Qed.

Lemma vector_element_nodes_witness :
  ∃ fe ve,
    FiniteElement.__init__ ReferenceTriangle 1 triangle_P1_nodes None = Ok fe
    ∧ VectorFiniteElement.__init__ fe = Ok ve
    ∧ VectorFiniteElement.node_count ve = 6%nat.
Proof.
  destruct (is_ok_inv
              (fe ← FiniteElement.__init__ ReferenceTriangle 1 triangle_P1_nodes None;
               VectorFiniteElement.__init__ fe))
    as [ve Hve]; [vm_compute; reflexivity|].
  destruct (FiniteElement.__init__ ReferenceTriangle 1 triangle_P1_nodes None)
    as [fe|] eqn:Hfe; [|discriminate Hve].
  cbn [mbind result_bind] in Hve.
  exists fe, ve. split; [reflexivity|]. split; [exact Hve|].
  destruct (vector_element_nodes fe ve Hve) as (_ & -> & _).
  apply FiniteElement_init_inv in Hfe as (_ & _ & _ & -> & _ & -> & _).
  reflexivity.
Defined.

(** X19.  The entity map of a constructed vector element.  A scalar node
    is filed under the first entity that contains it, by dimension and
    then by index, and contributes the two indices [2k] and [2k + 1]
    there, the factor being 2 whatever the dimension of the cell is.
    The list of an entity holds these pairs for its nodes in increasing
    order, and [nodes_per_entity[d]] is the length of the list of the
    entity [(d, 0)]. *)
Theorem vector_element_entity_nodes (fe : FiniteElement.t)
    (ve : VectorFiniteElement.t) :
  VectorFiniteElement.__init__ fe = Ok ve →
  (∀ d i, (d <= dim (FiniteElement.cell fe))%nat →
          (i < default 0 (entity_counts (FiniteElement.cell fe) !! d))%nat →
          entity_list (VectorFiniteElement.entity_nodes ve) (d, i)
          = Some (k ← entity_members (FiniteElement.cell fe)
                        (FiniteElement.nodes fe) (d, i);
                  [2 * k; 2 * k + 1]%nat))
  ∧ VectorFiniteElement.nodes_per_entity ve
    = (fun d => 2 * length (entity_members (FiniteElement.cell fe)
                              (FiniteElement.nodes fe) (d, 0)))%nat
        <$> seq 0 (dim (FiniteElement.cell fe) + 1).
Proof.
  intros Hve.
  destruct (vector_init_fields fe ve Hve)
    as (_ & _ & _ & _ & _ & _ & Hlist & Hnpe).
  split.
  - intros d i Hd Hi. rewrite Hlist. cbn [fst snd].
    rewrite decide_True; [done|]. split; [lia|done].
  - apply comprehension_inv in Hnpe. symmetry.
    apply list_eq_Forall2, Forall2_fmap_l.
    eapply Forall2_impl; [exact Hnpe|]. intros d n. cbv beta.
    rewrite getkey_entity_list, Hlist. cbn [fst snd].
    case_decide; [|done]. intros [= <-]. unfold compose.
    generalize (entity_members (FiniteElement.cell fe)
                  (FiniteElement.nodes fe) (d, 0%nat)).
    intros l. induction l as [|k l IH]; [done|].
    rewrite bind_cons. cbn [length app]. rewrite <- IH. lia.
Qed.

Lemma vector_element_entity_nodes_witness :
  ∃ fe ve,
    FiniteElement.__init__ ReferenceInterval 1 interval_P1_nodes None = Ok fe
    ∧ VectorFiniteElement.__init__ fe = Ok ve
    ∧ VectorFiniteElement.nodes_per_entity ve
      = (fun d => 2 * length (entity_members (FiniteElement.cell fe)
                                (FiniteElement.nodes fe) (d, 0)))%nat
          <$> seq 0 (dim (FiniteElement.cell fe) + 1).
Proof.
  destruct (is_ok_inv
              (fe ← FiniteElement.__init__ ReferenceInterval 1 interval_P1_nodes None;
               VectorFiniteElement.__init__ fe))
    as [ve Hve]; [vm_compute; reflexivity|].
  destruct (FiniteElement.__init__ ReferenceInterval 1 interval_P1_nodes None)
    as [fe|] eqn:Hfe; [|discriminate Hve].
  cbn [mbind result_bind] in Hve.
  exists fe, ve. split; [reflexivity|]. split; [exact Hve|].
  exact (proj2 (vector_element_entity_nodes fe ve Hve)).
Defined.

Section lagrange_constructor.

Lemma finite_array_Some (a : list (list npfloat)) (nodes : matrix) :
  LagrangeElement.finite_array a = Some nodes ↔ a = LagrangeElement.floats nodes.
Proof.
  unfold LagrangeElement.finite_array, LagrangeElement.floats.
  rewrite mapM_Some. split.
  - intros H. apply list_eq_Forall2, Forall2_fmap_r.
    eapply Forall2_impl; [exact H|]. intros r v Hv. cbv beta.
    apply mapM_Some in Hv. apply list_eq_Forall2, Forall2_fmap_r.
    eapply Forall2_impl; [exact Hv|]. intros [q| | |] x; cbn; congruence.
  - intros ->. apply Forall2_fmap_l, Forall_Forall2_diag, Forall_true.
    intros v. unfold compose. by apply mapM_fmap_Forall_Some, Forall_true.
Qed.

(** The nodes of a degree other than 0 are finite. *)
Lemma lagrange_points_finite (cell : ReferenceCell) (degree : Z) :
  degree ≠ 0%Z →
  ∃ nodes, lagrange_points cell degree = LagrangeElement.floats nodes.
Proof.
  intros Hdeg. rewrite lagrange_points_unfold.
  unfold LagrangeElement.floats. eexists ((fun i => (fun c => Qc_of_Z c / Qc_of_Z degree) <$> reverse i)
             <$> _).
  rewrite <- list_fmap_compose. apply list_fmap_ext. intros _ i _.
  unfold compose. rewrite <- list_fmap_compose.
  apply list_fmap_ext. intros _ x _. by apply true_divide_finite.
Qed.

Context (cell : ReferenceCell) (degree : Z).

Lemma lagrange_init_fields (r : result FiniteElement.t) :
  LagrangeElement.__init__ cell degree = Some r →
  ∃ nodes,
    lagrange_points cell degree = LagrangeElement.floats nodes
    ∧ ((length (entity_counts cell) <= dim cell)%nat ∧ r = Raise IndexError
       ∨ (dim cell < length (entity_counts cell))%nat
         ∧ ∃ en, r = FiniteElement.__init__ cell degree nodes (Some en)
                 ∧ en ≠ ∅
                 ∧ ∀ e, entity_list en e
                        = if decide (e.1 < dim cell + 1
                                     ∧ e.2 < default 0 (entity_counts cell !! e.1))%nat
                          then Some (entity_members cell nodes e)
                          else None).
Proof.
  unfold LagrangeElement.__init__.
  destruct (LagrangeElement.finite_array _) as [nodes|] eqn:Hnodes; [|done].
  apply finite_array_Some in Hnodes. cbn [mbind option_bind].
  intros [= <-]. exists nodes. split; [done|].
  destruct (decide (dim cell < length (entity_counts cell))%nat) as [Hlong|Hshort].
  - right. split; [done|].
    destruct (empty_entity_map cell (dim cell + 1)) as (en0 & -> & Hdom & Hlook);
      [lia|].
    cbn [mbind result_bind]. eexists. split; [done|]. split.
    { intros Hempty.
      pose proof (domain_foldl cell _ _ (lagrange_add_entity_node cell)
                    (imap pair nodes) en0 0%nat) as [m Hm]; [apply Hdom; lia|].
      by rewrite Hempty, lookup_empty in Hm. }
    intros [d i].
    rewrite (entity_list_foldl cell _ _ (lagrange_add_entity_node cell)), Hlook.
    cbn [fst snd]. case_decide; [|done].
    cbn [fmap option_fmap option_map app]. reflexivity.
  - left. split; [lia|].
    by rewrite (empty_entity_map_raise cell (dim cell + 1)) by lia.
Qed.

End lagrange_constructor.

(** X20.  [LagrangeElement] with a negative degree: there are no nodes,
    no error of its own is raised, and the constructor of
    [FiniteElement] fails as it does for every negative degree, with the
    [ValueError] of [np.hstack], on every cell that has an entity of
    each dimension up to [dim]. *)
Theorem lagrange_element_negative_degree (cell : ReferenceCell) (degree : Z) :
  (degree < 0)%Z →
  (dim cell < length (entity_counts cell))%nat →
  (∀ d, (d <= dim cell)%nat → entity_counts cell !! d ≠ Some 0%nat) →
  LagrangeElement.__init__ cell degree = Some (Raise ValueError).
Proof.
  intros Hdeg Hlong Hpos.
  destruct (lagrange_points_finite cell degree) as [nodes Hnodes]; [lia|].
  pose proof (proj2 (finite_array_Some _ _) Hnodes) as Hfin.
  destruct (LagrangeElement.__init__ cell degree) as [r|] eqn:Hr.
  2:{ unfold LagrangeElement.__init__ in Hr. by rewrite Hfin in Hr. }
  f_equal.
  apply lagrange_init_fields in Hr
    as (nodes' & Hnodes' & [[Hshort _]|(_ & en & -> & Hen & Hlist)]); [lia|].
  unfold FiniteElement.__init__.
  rewrite decide_False by done.
  rewrite nodes_per_entity_ok.
  - cbn [fmap result_fmap mbind result_bind].
    unfold vandermonde_matrix. by rewrite py_range_neg by lia.
  - intros d Hd. rewrite Hlist. cbn [fst snd].
    destruct (lookup_lt_is_Some_2 (entity_counts cell) d) as [n Hn]; [lia|].
    rewrite Hn, decide_True; [done|].
    cbn. split; [lia|]. destruct n; [|lia]. exfalso. eapply (Hpos d); [lia|done].
Qed.

Lemma lagrange_element_negative_degree_witness :
  LagrangeElement.__init__ ReferenceTriangle (-3) = Some (Raise ValueError).
Proof.
  apply (lagrange_element_negative_degree ReferenceTriangle (-3)).
  - lia.
  - cbn. lia.
  - intros [|[|[|d]]] Hd; cbn; discriminate.
Defined.

(** X21.  The element that [LagrangeElement] constructs.  Its nodes are
    the points of [lagrange_points], and its entity map files every node
    under the first entity that contains it, by dimension and then by
    index: the list of an entity holds the indices of its nodes in
    increasing order, and a node that lies in no entity is in no list.
    [nodes_per_entity[d]] is the length of the list of the entity
    [(d, 0)]. *)
Theorem lagrange_element_entity_nodes (cell : ReferenceCell) (degree : Z)
    (el : FiniteElement.t) :
  LagrangeElement.__init__ cell degree = Some (Ok el) →
  FiniteElement.cell el = cell
  ∧ FiniteElement.degree el = degree
  ∧ lagrange_points cell degree = LagrangeElement.floats (FiniteElement.nodes el)
  ∧ ∃ en, FiniteElement.entity_nodes el = Some en
          ∧ (∀ d i, (d <= dim cell)%nat →
                    (i < default 0 (entity_counts cell !! d))%nat →
                    entity_list en (d, i)
                    = Some (entity_members cell (FiniteElement.nodes el) (d, i)))
          ∧ FiniteElement.nodes_per_entity el
            = Some ((fun d => length (entity_members cell
                                        (FiniteElement.nodes el) (d, 0%nat)))
                      <$> seq 0 (dim cell + 1)).
Proof.
  intros (nodes & Hnodes &
          [[_ [=]]|(Hlong & en & Hel & Hen & Hlist)])%lagrange_init_fields.
  symmetry in Hel. revert Hel. unfold FiniteElement.__init__.
  rewrite decide_False by done.
  destruct (comprehension _ _) as [npe|] eqn:Hnpe; [|done].
  cbn [fmap result_fmap mbind result_bind].
  destruct (vandermonde_matrix _ _ _ _) as [V|]; [|done].
  cbn [mbind result_bind].
  destruct (np_linalg_inv V) as [W|]; [|done].
  cbn [mbind result_bind]. intros [= <-].
  cbn [FiniteElement.cell FiniteElement.degree FiniteElement.nodes
       FiniteElement.entity_nodes FiniteElement.nodes_per_entity].
  repeat split; try done.
  exists en. split; [done|]. split.
  - intros d i Hd Hi. rewrite Hlist. cbn [fst snd].
    rewrite decide_True; [done|]. split; [lia|done].
  - f_equal. apply comprehension_inv in Hnpe. symmetry.
    apply list_eq_Forall2, Forall2_fmap_l.
    eapply Forall2_impl; [exact Hnpe|]. intros d n. cbv beta.
    rewrite getkey_entity_list, Hlist. cbn [fst snd].
    case_decide; [|done]. by intros [= <-].
Qed.

Lemma lagrange_element_entity_nodes_witness :
  ∃ el en,
    LagrangeElement.__init__ ReferenceInterval 2 = Some (Ok el)
    ∧ FiniteElement.entity_nodes el = Some en
    ∧ FiniteElement.nodes_per_entity el
      = Some ((fun d => length (entity_members ReferenceInterval
                                  (FiniteElement.nodes el) (d, 0%nat)))
                <$> seq 0 2).
Proof.
  assert (match LagrangeElement.__init__ ReferenceInterval 2 with
          | Some (Ok _) => true
          | _ => false
          end = true) as Hok by (vm_compute; reflexivity).
  destruct (LagrangeElement.__init__ ReferenceInterval 2) as [[el|e]|] eqn:Hel;
    [|discriminate Hok|discriminate Hok].
  destruct (lagrange_element_entity_nodes ReferenceInterval 2 el Hel)
    as (_ & _ & _ & en & Hen & _ & Hnpe).
  exists el, en. split; [reflexivity|]. split; [exact Hen|exact Hnpe].
Defined.

(** * The equispaced nodes are unisolvent *)

Section polynomials.

Lemma horner_cons c cs x : horner (c :: cs) x = c + x * horner cs x.
Proof. done. Qed.

Lemma horner_quotient (a x : Qc) (cs : vector) :
  horner cs x = horner cs a + (x - a) * horner (quotient a cs) x.
Proof.
  induction cs as [|c cs IH]; [cbn; ring|].
  destruct cs as [|c' cs']; [cbn; ring|].
  change (quotient a (c :: c' :: cs'))
    with (horner (c' :: cs') a :: quotient a (c' :: cs')).
  rewrite !(horner_cons c), (horner_cons (horner _ a)), IH. ring.
Qed.

Lemma length_quotient (a : Qc) (cs : vector) :
  length (quotient a cs) = pred (length cs).
Proof.
  induction cs as [|c cs IH]; [done|].
  destruct cs as [|c' cs']; [done|].
  change (quotient a (c :: c' :: cs'))
    with (horner (c' :: cs') a :: quotient a (c' :: cs')).
  cbn [length pred] in *. by rewrite IH.
Qed.

Lemma quotient_zero (a : Qc) (cs : vector) :
  horner cs a = 0 → Forall (fun c => c = 0) (quotient a cs) →
  Forall (fun c => c = 0) cs.
Proof.
  induction cs as [|c cs IH]; [done|].
  destruct cs as [|c' cs'].
  - cbn. intros Hc _. constructor; [|done]. rewrite <- Hc. ring.
  - change (quotient a (c :: c' :: cs'))
      with (horner (c' :: cs') a :: quotient a (c' :: cs')).
    rewrite horner_cons. intros Hc [Hr Hq]%Forall_cons.
    rewrite Hr in Hc. constructor; [rewrite <- Hc; ring|]. by apply IH.
Qed.

(** A polynomial with more roots than its degree is zero. *)
Lemma roots_bound (xs : vector) :
  NoDup xs → ∀ cs, (length cs <= length xs)%nat →
  Forall (fun x => horner cs x = 0) xs → Forall (fun c => c = 0) cs.
Proof.
  induction 1 as [|x0 xs Hx0 Hxs IH]; intros cs Hlen Hroots.
  - destruct cs; [done|]. cbn in Hlen. lia.
  - apply Forall_cons in Hroots as [H0 Hroots].
    apply (quotient_zero x0); [done|]. apply IH.
    + rewrite length_quotient. cbn [length] in Hlen. lia.
    + apply Forall_forall. intros x Hx.
      pose proof (proj1 (Forall_forall _ _) Hroots x Hx) as Hxroot.
      cbv beta in Hxroot. rewrite (horner_quotient x0), H0 in Hxroot.
      assert (x - x0 ≠ 0) as Hne.
      { intros Heq. apply Hx0. assert (x = x0) as <-; [|done].
        rewrite <- (Qcplus_0_r x0), <- Heq. ring. }
      rewrite Qcplus_0_l in Hxroot.
      apply Qcmult_integral in Hxroot as [?|?]; done.
Qed.

Lemma horner_app (l l' : vector) x :
  horner (l ++ l') x = horner l x + x ^ length l * horner l' x.
Proof.
  induction l as [|c l IH].
  - cbn [app length Qcpower]. change (horner [] x) with 0. ring.
  - cbn [app length]. rewrite !horner_cons, IH.
    change (x ^ S (length l)) with (x * x ^ length l). ring.
Qed.

Lemma horner_zeros {J} (l : list J) x : horner ((fun _ => 0) <$> l) x = 0.
Proof.
  induction l as [|j l IH]; [done|].
  rewrite fmap_cons, horner_cons, IH. ring.
Qed.

Lemma horner_fmap_seq (f : nat → Qc) (m : nat) x :
  horner (f <$> seq 0 m) x = sumf (fun a => f a * x ^ a) m.
Proof.
  induction m as [|m IH]; [done|].
  rewrite seq_S, fmap_app, horner_app, IH, length_fmap, length_seq.
  cbn [sumf fmap list_fmap Nat.add]. rewrite horner_cons. cbn. ring.
Qed.

Lemma sumf_ext (f g : nat → Qc) (n : nat) :
  (∀ k, (k < n)%nat → f k = g k) → sumf f n = sumf g n.
Proof.
  induction n as [|n IH]; intros H; [done|].
  cbn [sumf]. rewrite IH, H by (intros; (apply H; lia) || lia). done.
Qed.

Lemma sumf_plus (f g : nat → Qc) (n : nat) :
  sumf (fun k => f k + g k) n = sumf f n + sumf g n.
Proof. induction n as [|n IH]; cbn [sumf]; [ring|rewrite IH; ring]. Qed.

Lemma sumf_scale (c : Qc) (f : nat → Qc) (n : nat) :
  sumf (fun k => c * f k) n = c * sumf f n.
Proof. induction n as [|n IH]; cbn [sumf]; [ring|rewrite IH; ring]. Qed.

Lemma dot_snoc (u : vector) (a : Qc) (w : vector) :
  dot (u ++ [a]) w = dot u w + a * nth (length u) w 0.
Proof.
  revert w. induction u as [|x u IH]; intros [|y w]; cbn [app length nth].
  - rewrite dot_nil_r, dot_nil_l. ring.
  - rewrite dot_cons, dot_nil_l, dot_nil_l. ring.
  - rewrite !dot_nil_r. ring.
  - rewrite !dot_cons, IH. ring.
Qed.

Lemma dot_app_drop (u1 u2 v : vector) :
  dot (u1 ++ u2) v = dot u1 v + dot u2 (drop (length u1) v).
Proof.
  revert v. induction u1 as [|x u1 IH]; intros v.
  - cbn [app length]. rewrite drop_0, dot_nil_l. ring.
  - destruct v as [|y v].
    + rewrite drop_nil, !dot_nil_r. ring.
    + cbn [app length]. rewrite skipn_cons, !dot_cons, IH. ring.
Qed.

Lemma dot_fmap_seq (f : nat → Qc) (m : nat) (w : vector) :
  dot (f <$> seq 0 m) w = sumf (fun j => f j * nth j w 0) m.
Proof.
  induction m as [|m IH]; [by rewrite dot_nil_l|].
  rewrite seq_S, fmap_app. cbn [fmap list_fmap Nat.add].
  by rewrite dot_snoc, IH, length_fmap, length_seq.
Qed.

Lemma nth_drop_0 (t j : nat) (v : vector) :
  nth j (drop t v) 0 = nth (t + j) v 0.
Proof.
  revert v. induction t as [|t IH]; intros v; [done|].
  destruct v as [|y v]; [by destruct j|].
  rewrite skipn_cons. cbn [Nat.add nth]. apply IH.
Qed.

End polynomials.

Section unisolvence.

(** A square matrix with a trivial kernel is inverted. *)
Lemma np_linalg_inv_kernel (a : matrix) :
  length a ≠ 0%nat →
  Forall (fun r => length r = length a) a →
  (∀ v, length v = length a → Forall (fun r => dot r v = 0) a →
        Forall (fun x => x = 0) v) →
  ∃ w, np_linalg_inv a = Ok w.
Proof.
  intros Hn Hsq Hker. unfold np_linalg_inv.
  rewrite bool_decide_eq_true_2 by done. set (n := length a) in *.
  destruct (gauss_jordan _ _ _) as [m|] eqn:Hgj; [by eexists|]. exfalso.
  pose proof (augmented_shape a n Hsq) as Haug.
  destruct (gauss_jordan_stuck n n 0 [] _ Hgj eq_refl (Nat.le_refl _)
              (Forall_nil_2 _) Haug) as (v & j & Hv & Hj & _ & Hrows).
  { split; [intros i ρ q Hi; done|].
    apply Forall_forall. intros ρ _ q Hq. lia. }
  assert (Forall (fun x => x = 0) v) as Hzero.
  { apply Hker; [done|]. apply Forall_lookup. intros i r Hr.
    destruct (lookup_lt_is_Some_2 (identity n) i) as [e He].
    { rewrite length_identity. by eapply lookup_lt_Some. }
    eapply (proj1 (Forall_lookup _ _)) in Hrows;
      [|by apply lookup_zip_with_Some; eauto].
    cbn in Hrows. rewrite take_app_length' in Hrows; [done|].
    symmetry. by eapply (proj1 (Forall_lookup _ _) Hsq). }
  destruct (decide (j < length v)%nat) as [Hlt|Hge].
  - destruct (lookup_lt_is_Some_2 v j Hlt) as [x Hx].
    rewrite (nth_lookup_Some _ _ _ _ Hx) in Hj.
    by rewrite (proj1 (Forall_lookup _ _) Hzero j x Hx) in Hj.
  - by rewrite nth_overflow in Hj by lia.
Qed.

Lemma dot_powers (x : Qc) (cs : vector) (s : nat) :
  dot ((fun j => x ^ j * 1) <$> seq s (length cs)) cs = x ^ s * horner cs x.
Proof.
  revert s. induction cs as [|c cs IH]; intros s.
  - rewrite dot_nil_r. change (horner [] x) with 0. ring.
  - cbn [length seq]. rewrite fmap_cons, dot_cons, IH, horner_cons.
    change (x ^ S s) with (x * x ^ s). ring.
Qed.

Lemma count_lattice (cell : ReferenceCell) (n : nat) :
  (dim cell = 1 ∨ dim cell = 2)%nat →
  length (filter (fun i => (py_sum i <= Z.of_nat n)%Z)
            (product (py_range (Z.of_nat n + 1)) (dim cell)))
  = length (monomial_basis (dim cell) n).
Proof.
  intros Hdim. apply Nat2Z.inj. rewrite length_monomial_basis by done.
  replace (Z.of_nat n + 1)%Z with (Z.of_nat (S n)) by lia.
  rewrite py_range_of_nat. destruct Hdim as [-> | ->].
  - rewrite count_dim1, count_le_seq by lia. cbn [expected_count]. lia.
  - by rewrite count_dim2.
Qed.

Lemma lagrange_points_lattice_nodes (cell : ReferenceCell) (degree : Z) :
  degree ≠ 0%Z →
  lagrange_points cell degree
  = LagrangeElement.floats (lattice_nodes cell degree).
Proof.
  intros Hdeg. rewrite lagrange_points_unfold.
  unfold LagrangeElement.floats, lattice_nodes.
  rewrite <- list_fmap_compose. apply list_fmap_ext. intros _ i _.
  unfold compose. rewrite <- list_fmap_compose.
  apply list_fmap_ext. intros _ x _. by apply true_divide_finite.
Qed.

Lemma elem_of_lattice_nodes (cell : ReferenceCell) (n : nat) (a : list nat) :
  length a = dim cell →
  (sum_list a <= n)%nat →
  (fun k => Qc_of_Z (Z.of_nat k) / Qc_of_Z (Z.of_nat n)) <$> a
  ∈ lattice_nodes cell (Z.of_nat n).
Proof.
  intros Hlen Hsum. unfold lattice_nodes. apply list_elem_of_fmap.
  exists (reverse (Z.of_nat <$> a)).
  rewrite reverse_involutive, <- list_fmap_compose. split; [done|].
  assert (py_sum (Z.of_nat <$> a) = Z.of_nat (sum_list a)) as Hpysum.
  { clear. induction a as [|k a IH]; [done|].
    rewrite fmap_cons. unfold py_sum in *. cbn [foldr]. rewrite IH.
    change (sum_list (k :: a)) with (k + sum_list a)%nat. lia. }
  apply list_elem_of_filter. rewrite py_sum_reverse, Hpysum.
  split; [lia|]. apply elem_of_product.
  rewrite length_reverse, length_fmap. split; [done|].
  apply Forall_reverse, Forall_fmap, Forall_forall. intros k Hk.
  apply elem_of_py_range. unfold compose.
  assert (k <= sum_list a)%nat; [|lia].
  clear -Hk. induction Hk as [k a|k k' a Hk IH];
    [change (sum_list (k :: a)) with (k + sum_list a)%nat
    |change (sum_list (k' :: a)) with (k' + sum_list a)%nat]; lia.
Qed.

Context (n : nat) (Hn : n ≠ 0%nat).

Let xs (k : nat) : Qc := Qc_of_Z (Z.of_nat k) / Qc_of_Z (Z.of_nat n).

Lemma NoDup_xs (k : nat) : NoDup (xs <$> seq 0 k).
Proof.
  apply NoDup_fmap_2; [|apply NoDup_seq].
  intros i j Hij. apply Nat2Z.inj.
  apply (Qc_of_Z_div_inj _ _ (Z.of_nat n)); [lia|done].
Qed.

Lemma length_lattice_nodes (cell : ReferenceCell) :
  (dim cell = 1 ∨ dim cell = 2)%nat →
  length (lattice_nodes cell (Z.of_nat n))
  = length (monomial_basis (dim cell) n).
Proof.
  intros Hdim. unfold lattice_nodes. rewrite length_fmap.
  by apply count_lattice.
Qed.

(** On the interval: a polynomial of degree at most [n] that vanishes at
    the [n + 1] nodes is zero. *)
Lemma interval_kernel (cell : ReferenceCell) (v : vector) :
  dim cell = 1%nat →
  length v = S n →
  Forall (fun p => dot ((fun e => eval_monomial e p) <$> monomial_basis 1 n) v = 0)
         (lattice_nodes cell (Z.of_nat n)) →
  Forall (fun x => x = 0) v.
Proof.
  intros Hdim Hlen Hker.
  apply (roots_bound (xs <$> seq 0 (S n)) (NoDup_xs _)).
  { rewrite length_fmap, length_seq. lia. }
  apply Forall_fmap, Forall_forall. intros k Hk%elem_of_seq. unfold compose.
  pose proof (elem_of_lattice_nodes cell n [k]) as Hnode.
  eapply (proj1 (Forall_forall _ _) Hker) in Hnode; [|by rewrite Hdim|cbn; lia].
  cbn [fmap list_fmap] in Hnode. fold (xs k) in Hnode.
  cbn [monomial_basis] in Hnode. rewrite <- list_fmap_compose in Hnode.
  rewrite <- Hlen in Hnode.
  rewrite (list_fmap_ext _ (fun j => xs k ^ j * 1) (seq 0 (length v))) in Hnode
    by done.
  rewrite dot_powers in Hnode. cbn [Qcpower] in Hnode.
  rewrite <- Hnode. ring.
Qed.

End unisolvence.

Section triangle_sums.

Lemma basis2_S (n : nat) :
  monomial_basis 2 (S n)
  = monomial_basis 2 n ++ ((fun j => ((S n - j)%nat, j)) <$> seq 0 (S (S n))).
Proof.
  unfold monomial_basis. rewrite (seq_S (S n)) at 1.
  by rewrite bind_app, bind_singleton.
Qed.

Lemma length_basis2 (n : nat) : length (monomial_basis 2 n) = tri (S n).
Proof.
  induction n as [|n IH]; [done|].
  rewrite basis2_S, length_app, IH, length_fmap, length_seq. done.
Qed.

Lemma dot_basis2 (M : nat * nat → Qc) (n : nat) (v : vector) :
  dot (M <$> monomial_basis 2 n) v
  = sumf (fun i => sumf (fun j => M ((i - j)%nat, j) * nth (tri i + j) v 0)
                        (S i))
         (S n).
Proof.
  induction n as [|n IH].
  - change (monomial_basis 2 0) with ((fun j => ((0 - j)%nat, j)) <$> seq 0 1).
    rewrite <- list_fmap_compose, dot_fmap_seq.
    unfold compose. cbn [sumf tri Nat.add Nat.sub]. ring.
  - rewrite basis2_S, fmap_app, dot_app_drop, IH.
    rewrite length_fmap, length_basis2, <- list_fmap_compose, dot_fmap_seq.
    cbn [sumf]. f_equal.
    f_equal; [|by rewrite nth_drop_0].
    f_equal; [|by rewrite nth_drop_0].
    apply sumf_ext. intros j _. unfold compose. by rewrite nth_drop_0.
Qed.

(** Summing over a triangle by rows or by columns. *)
Lemma sumf_triangle (F : nat → nat → Qc) (n : nat) :
  sumf (fun i => sumf (fun j => F (i - j)%nat j) (S i)) (S n)
  = sumf (fun j => sumf (fun a => F a j) (S n - j)) (S n).
Proof.
  induction n as [|n IH]; [cbn; ring|].
  change (sumf ?f (S (S n))) with (sumf f (S n) + f (S n)) at 1.
  rewrite IH.
  change (sumf ?f (S (S n))) with (sumf f (S n) + f (S n)) at 2.
  cbv beta.
  rewrite (sumf_ext (fun j => sumf (fun a => F a j) (S (S n) - j))
             (fun j => sumf (fun a => F a j) (S n - j) + F (S n - j)%nat j)
             (S n)).
  2:{ intros j Hj. replace (S (S n) - j)%nat with (S (S n - j)) by lia. done. }
  rewrite sumf_plus.
  replace (S (S n) - S n)%nat with 1%nat by lia.
  change (sumf ?f (S (S n))) with (sumf f (S n) + f (S n)).
  cbv beta. replace (S n - S n)%nat with 0%nat by lia.
  cbn [sumf]. ring.
Qed.

Lemma tri_decompose (n k : nat) :
  (k < tri (S n))%nat → ∃ i j, (j <= i)%nat ∧ (i <= n)%nat ∧ k = (tri i + j)%nat.
Proof.
  induction n as [|n IH]; intros Hk.
  - exists 0%nat, 0%nat. cbn in *. lia.
  - destruct (decide (k < tri (S n))%nat) as [Hlt|Hge].
    + destruct (IH Hlt) as (i & j & ? & ? & ?). exists i, j. lia.
    + exists (S n), (k - tri (S n))%nat.
      change (tri (S (S n))) with (tri (S n) + S (S n))%nat in Hk. lia.
Qed.

Context (n : nat) (v : vector).

Let c (i j : nat) : Qc := nth (tri i + j) v 0.
Let Pj (j : nat) : vector := (fun a => c (a + j) j) <$> seq 0 (S n - j).
Let Q (x : Qc) : vector := (fun j => horner (Pj j) x) <$> seq 0 (S n).

(** The polynomial with the coefficients [v], ordered by the power of
    [y]. *)
Lemma dot_row2 (x y : Qc) :
  dot ((fun e => eval_monomial e [x; y]) <$> monomial_basis 2 n) v
  = horner (Q x) y.
Proof.
  rewrite dot_basis2. unfold Q. rewrite horner_fmap_seq.
  rewrite (sumf_ext _
             (fun i => sumf (fun j => (fun a j => x ^ a * y ^ j * c (a + j) j)
                                        (i - j)%nat j) (S i)) (S n)).
  2:{ intros i _. apply sumf_ext. intros j Hj. cbv beta.
      replace (i - j + j)%nat with i by lia. done. }
  rewrite (sumf_triangle (fun a j => x ^ a * y ^ j * c (a + j) j)).
  apply sumf_ext. intros j _. unfold Pj. rewrite horner_fmap_seq.
  rewrite <- (Qcmult_comm (y ^ j)), <- sumf_scale.
  apply sumf_ext. intros a _. ring.
Qed.

End triangle_sums.

Section triangle_unisolvence.

Context (n : nat) (Hn : n ≠ 0%nat) (v : vector).

Let xs (k : nat) : Qc := Qc_of_Z (Z.of_nat k) / Qc_of_Z (Z.of_nat n).
Let c (i j : nat) : Qc := nth (tri i + j) v 0.
Let Pj (j : nat) : vector := (fun a => c (a + j) j) <$> seq 0 (S n - j).
Let Q (x : Qc) : vector := (fun j => horner (Pj j) x) <$> seq 0 (S n).

Context (Hker : ∀ a b, (a + b <= n)%nat → horner (Q (xs b)) (xs a) = 0).

(** Column by column: once the polynomials [Pj j] with [j > n - s]
    vanish, the nodes of the column [s] give the values of the others at
    [xs s], and [Pj (n - s)] has [s + 1] roots. *)
Lemma columns (s : nat) :
  (s <= S n)%nat →
  (∀ j, (j <= n)%nat → (n < j + s)%nat → Forall (fun x => x = 0) (Pj j))
  ∧ (∀ s' j, (s' < s)%nat → (j + s' <= n)%nat → horner (Pj j) (xs s') = 0).
Proof.
  induction s as [|s IH]; intros Hs; [split; intros; lia|].
  destruct IH as [IHzero IHroot]; [lia|].
  assert (∀ j, (j + s <= n)%nat → horner (Pj j) (xs s) = 0) as Hcol.
  { set (m := (n - s)%nat).
    set (L := (fun j => horner (Pj j) (xs s)) <$> seq 0 (S m)).
    assert (Forall (fun x => x = 0) L) as HL.
    { apply (roots_bound (xs <$> seq 0 (S m)) (NoDup_xs n Hn _)).
      { unfold L. by rewrite !length_fmap, !length_seq. }
      apply Forall_fmap, Forall_forall. intros a Ha%elem_of_seq. unfold compose.
      rewrite <- (Hker a s) by lia. unfold Q.
      assert (seq 0 (S n) = seq 0 (S m) ++ seq (0 + S m) (n - m)) as ->
        by (rewrite <- seq_app; f_equal; lia).
      rewrite fmap_app, horner_app. fold L.
      rewrite (list_fmap_ext _ (fun _ => 0) (seq (0 + S m) (n - m))).
      - rewrite horner_zeros. ring.
      - intros i j Hj%lookup_seq. cbv beta.
        assert (Forall (fun x => x = 0) (Pj j)) as Hzero
          by (apply IHzero; lia).
        clear -Hzero. induction Hzero as [|x l -> _ IH']; [done|].
        rewrite horner_cons, IH'. ring. }
    intros j Hj.
    eapply (proj1 (Forall_lookup _ _) HL j). unfold L.
    rewrite list_lookup_fmap, lookup_seq_lt by lia. done. }
  assert (∀ s' j, (s' < S s)%nat → (j + s' <= n)%nat →
                  horner (Pj j) (xs s') = 0) as Hroot.
  { intros s' j Hs' Hj. destruct (decide (s' = s)) as [->|Hne].
    - by apply Hcol.
    - apply IHroot; lia. }
  split; [|done].
  intros j Hj Hjs. destruct (decide (n < j + s)%nat) as [Hold|Hnew].
  { by apply IHzero. }
  assert (j = (n - s)%nat) as -> by lia.
  apply (roots_bound (xs <$> seq 0 (S s)) (NoDup_xs n Hn _)).
  - unfold Pj. rewrite !length_fmap, !length_seq. lia.
  - apply Forall_fmap, Forall_forall. intros s' Hs'%elem_of_seq. unfold compose.
    apply Hroot; lia.
Qed.

Lemma coefficients_zero : length v = tri (S n) → Forall (fun x => x = 0) v.
Proof.
  intros Hlen. apply Forall_lookup. intros k x Hx.
  destruct (tri_decompose n k) as (i & j & Hji & Hin & ->).
  { rewrite <- Hlen. by eapply lookup_lt_Some. }
  destruct (columns (S n)) as [Hzero _]; [lia|].
  specialize (Hzero j ltac:(lia) ltac:(lia)).
  rewrite <- (nth_lookup_Some _ _ 0 _ Hx).
  change (c i j = 0). replace i with ((i - j) + j)%nat at 1 by lia.
  eapply (proj1 (Forall_lookup _ _) Hzero (i - j)%nat). unfold Pj.
  rewrite list_lookup_fmap, lookup_seq_lt by lia. done.
Qed.

End triangle_unisolvence.

Section lattice_unisolvence.

Lemma lattice_nodes_coordinates (cell : ReferenceCell) (degree : Z) :
  (1 <= dim cell)%nat → Forall (fun p => p ≠ []) (lattice_nodes cell degree).
Proof.
  intros Hdim. unfold lattice_nodes. apply Forall_fmap, Forall_forall.
  intros i [_ [Hlen _]%elem_of_product]%list_elem_of_filter. unfold compose.
  intros Hnil%(f_equal length). rewrite length_fmap, length_reverse in Hnil.
  cbn in Hnil. lia.
Qed.

(** The Vandermonde matrix at the equispaced nodes of a degree of at
    least 1 is inverted, on the interval and on the triangle. *)
Lemma lattice_unisolvent (cell : ReferenceCell) (n : nat) :
  n ≠ 0%nat → (dim cell = 1 ∨ dim cell = 2)%nat →
  ∃ w, np_linalg_inv
         ((fun p => (fun e => eval_monomial e p) <$> monomial_basis (dim cell) n)
            <$> lattice_nodes cell (Z.of_nat n))
       = Ok w.
Proof.
  intros Hn Hdim.
  pose proof (length_lattice_nodes n cell Hdim) as Hcount.
  pose proof (length_monomial_basis_pos (dim cell) n Hdim) as Hbasis.
  apply np_linalg_inv_kernel.
  - rewrite length_fmap, Hcount. by destruct (monomial_basis (dim cell) n).
  - apply Forall_fmap, Forall_true. intros p. unfold compose.
    by rewrite !length_fmap.
  - intros v. rewrite length_fmap, Hcount. intros Hv Hker%Forall_fmap.
    destruct Hdim as [Hdim|Hdim].
    + apply (interval_kernel n Hn cell); [done| |by rewrite <- Hdim].
      rewrite Hv, Hdim. cbn [monomial_basis]. by rewrite length_fmap, length_seq.
    + apply (coefficients_zero n Hn); [|by rewrite Hv, Hdim, length_basis2].
      intros a b Hab. rewrite <- dot_row2.
      pose proof (elem_of_lattice_nodes cell n [b; a]) as Hnode.
      eapply (proj1 (Forall_forall _ _) Hker) in Hnode;
        [|by rewrite Hdim|cbn; lia].
      unfold compose in Hnode. by rewrite Hdim in Hnode.
Qed.

End lattice_unisolvence.

(** X22.  [LagrangeElement] never fails on its own nodes.  For every
    degree of at least 1, on every cell of dimension 1 or 2 that has an
    entity of each dimension up to [dim], the element is constructed:
    the equispaced nodes determine the polynomials of the space, and the
    Vandermonde matrix at these nodes has an inverse. *)
Theorem lagrange_element_constructed (cell : ReferenceCell) (degree : Z) :
  (dim cell = 1 ∨ dim cell = 2)%nat →
  (1 <= degree)%Z →
  (dim cell < length (entity_counts cell))%nat →
  (∀ d, (d <= dim cell)%nat → entity_counts cell !! d ≠ Some 0%nat) →
  ∃ el, LagrangeElement.__init__ cell degree = Some (Ok el).
Proof.
  intros Hdim Hdeg Hlong Hpos.
  remember (Z.to_nat degree) as n eqn:Hn.
  assert (degree = Z.of_nat n) as -> by lia.
  pose proof (lagrange_points_lattice_nodes cell (Z.of_nat n)) as Hnodes.
  pose proof (proj2 (finite_array_Some _ _) (Hnodes ltac:(lia))) as Hfin.
  destruct (LagrangeElement.__init__ cell (Z.of_nat n)) as [r|] eqn:Hr.
  2:{ unfold LagrangeElement.__init__ in Hr. by rewrite Hfin in Hr. }
  apply lagrange_init_fields in Hr
    as (nodes & Hnodes' & [[Hshort _]|(_ & en & -> & Hen & Hlist)]); [lia|].
  assert (nodes = lattice_nodes cell (Z.of_nat n)) as ->.
  { apply finite_array_Some in Hnodes'. rewrite Hfin in Hnodes'.
    by injection Hnodes'. }
  unfold FiniteElement.__init__. rewrite decide_False by done.
  rewrite nodes_per_entity_ok.
  2:{ intros d Hd. rewrite Hlist. cbn [fst snd].
      destruct (lookup_lt_is_Some_2 (entity_counts cell) d) as [k Hk]; [lia|].
      rewrite Hk, decide_True; [done|].
      cbn. split; [lia|]. destruct k; [|lia].
      exfalso. eapply (Hpos d); [lia|done]. }
  cbn [fmap result_fmap mbind result_bind].
  rewrite vandermonde_matrix_values;
    [|done|lia|apply lattice_nodes_coordinates; destruct Hdim; lia].
  cbn [mbind result_bind]. rewrite Nat2Z.id.
  destruct (lattice_unisolvent cell n) as [w ->]; [lia|done|].
  cbn [mbind result_bind]. by eexists.
Qed.

Lemma lagrange_element_constructed_witness :
  ∃ el, LagrangeElement.__init__ ReferenceTriangle 3 = Some (Ok el).
Proof.
  apply (lagrange_element_constructed ReferenceTriangle 3).
  - right. reflexivity.
  - lia.
  - cbn. lia.
  - intros [|[|[|d]]] Hd; cbn; discriminate.
Defined.

(** * The vector element at its own nodes *)

Section vector_nodal_basis.





End vector_nodal_basis.



(** * The nodes of an element on the interval *)

Section interval_nodes.

Lemma row_interval (n : nat) (p : vector) :
  (fun e => eval_monomial e p) <$> monomial_basis 1 n
  = (fun j => xcoord p ^ j * 1) <$> seq 0 (S n).
Proof.
  cbn [monomial_basis]. rewrite <- list_fmap_compose.
  by apply list_fmap_ext.
Qed.

Lemma identity_rows_differ (N i j : nat) :
  (i < N)%nat → identity N !! i = identity N !! j → i = j.
Proof.
  intros Hi Hrows. unfold identity in Hrows.
  rewrite !list_lookup_fmap, (lookup_seq_lt _ _ i) in Hrows by done.
  destruct (seq 0 N !! j) as [j'|] eqn:Hj; [|done].
  apply lookup_seq in Hj as [-> _]. cbn in Hrows. injection Hrows as Hrows.
  apply (f_equal (fun r => r !! i)) in Hrows.
  rewrite !list_lookup_fmap, lookup_seq_lt in Hrows by done. cbn in Hrows.
  rewrite decide_True in Hrows by done.
  destruct (decide (j = i)) as [->|]; [done|discriminate Hrows].
Qed.

(** The nodes of a constructed element on the interval differ in their
    first coordinate: two equal rows of the Vandermonde matrix would give
    two equal rows of the identity matrix. *)
Lemma interval_nodes_distinct cell degree nodes entity_nodes el :
  dim cell = 1%nat →
  FiniteElement.__init__ cell degree nodes entity_nodes = Ok el →
  NoDup (xcoord <$> nodes).
Proof.
  intros Hdim Hel.
  assert (dim cell = 1 ∨ dim cell = 2)%nat as Hdim' by (by left).
  pose proof (constructed_degree _ _ _ _ _ Hel) as Hdeg.
  destruct (constructed_element _ _ Hdim' Hdeg _ _ _ Hel)
    as (_ & _ & _ & _ & _ & _ & _ & _ & _ & Hr & _).
  apply NoDup_alt. intros i j x Hi Hj.
  rewrite list_lookup_fmap in Hi, Hj.
  destruct (nodes !! i) as [p|] eqn:Hp; [|done].
  destruct (nodes !! j) as [q|] eqn:Hq; [|done].
  injection Hi as Hpx. injection Hj as Hqx.
  apply (identity_rows_differ (length nodes)); [by eapply lookup_lt_Some|].
  rewrite <- Hr. unfold matmul.
  rewrite !list_lookup_fmap, Hp, Hq. cbn [fmap option_fmap option_map].
  rewrite Hdim, !row_interval. by rewrite Hpx, Hqx.
Qed.

End interval_nodes.

(** * The value tabulation of the vector element in dimension 2 *)

(** X25.  On a cell of dimension 2 the value tabulation of the vector
    element has the shape (points, 2 * nodes, 2), and the basis function
    [k] carries the scalar basis function [k // 2] in the component
    [k % 2] and zero in the other component. *)
Theorem vector_tabulate_values_components ve points phi :
  dim (VectorFiniteElement.cell ve) = 2%nat →
  FiniteElement.tabulate (VectorFiniteElement.finite_element ve) points false
  = Ok phi →
  ∃ vphi,
    VectorFiniteElement.tabulate ve points false = Ok vphi
    ∧ Forall2 (fun r slab =>
         length slab = (2 * length r)%nat
         ∧ ∀ k comp, (k < 2 * length r)%nat → (comp < 2)%nat →
             nth comp (nth k slab []) 0
             = if decide (comp = (k mod 2)%nat) then nth (k / 2) r 0 else 0)
        phi vphi.
Proof.
  intros Hdim Hphi. eexists. split; [by apply vector_tabulate_values|].
  apply Forall2_fmap_r, Forall_Forall2_diag, Forall_true. intros r.
  unfold compose, vector_values. rewrite length_fmap, length_seq.
  split; [lia|]. intros k comp Hk Hcomp.
  rewrite (nth_lookup_Some _ _ _
             ((fun comp => component_value 2 k comp (nth (k / 2) r 0))
                <$> seq 0 2)).
  2:{ rewrite list_lookup_fmap, lookup_seq_lt by lia. done. }
  rewrite (nth_lookup_Some _ _ _ (component_value 2 k comp (nth (k / 2) r 0))).
  2:{ rewrite list_lookup_fmap, lookup_seq_lt by lia. done. }
  done.
Qed.

Lemma vector_tabulate_values_components_witness :
  ∃ fe ve phi vphi,
    FiniteElement.__init__ ReferenceTriangle 1 triangle_P1_nodes None = Ok fe
    ∧ VectorFiniteElement.__init__ fe = Ok ve
    ∧ FiniteElement.tabulate fe [[Qc_of_Z 1 / Qc_of_Z 3; Qc_of_Z 1 / Qc_of_Z 3]]
        false = Ok phi
    ∧ VectorFiniteElement.tabulate ve
        [[Qc_of_Z 1 / Qc_of_Z 3; Qc_of_Z 1 / Qc_of_Z 3]] false = Ok vphi
    ∧ Forall2 (fun r slab => length slab = (2 * length r)%nat) phi vphi.
Proof.
  destruct (is_ok_inv
              (fe ← FiniteElement.__init__ ReferenceTriangle 1 triangle_P1_nodes None;
               VectorFiniteElement.__init__ fe))
    as [ve Hve]; [vm_compute; reflexivity|].
  destruct (FiniteElement.__init__ ReferenceTriangle 1 triangle_P1_nodes None)
    as [fe|] eqn:Hfe; [|discriminate Hve].
  cbn [mbind result_bind] in Hve.
  destruct (is_ok_inv
              (FiniteElement.tabulate fe
                 [[Qc_of_Z 1 / Qc_of_Z 3; Qc_of_Z 1 / Qc_of_Z 3]] false))
    as [phi Hphi].
  { revert Hfe. unfold FiniteElement.__init__. cbn [mbind result_bind].
    destruct (vandermonde_matrix ReferenceTriangle 1 triangle_P1_nodes false)
      as [V|] eqn:HV; [|discriminate].
    vm_compute in HV. injection HV as <-. cbn [mbind result_bind].
    destruct (np_linalg_inv _) as [W|] eqn:HW; [|discriminate].
    vm_compute in HW. injection HW as <-.
    intros [= <-]. vm_compute. reflexivity. }
  pose proof (VectorFiniteElement_init_inv fe ve Hve) as Hfin.
  destruct (vector_tabulate_values_components ve
              [[Qc_of_Z 1 / Qc_of_Z 3; Qc_of_Z 1 / Qc_of_Z 3]] phi)
    as (vphi & Hvphi & Hshape).
  - unfold VectorFiniteElement.cell. rewrite Hfin.
    apply FiniteElement_init_inv in Hfe as (_ & _ & _ & -> & _). reflexivity.
  - rewrite Hfin. exact Hphi.
  - exists fe, ve, phi, vphi. split; [reflexivity|]. split; [exact Hve|].
    split; [exact Hphi|]. split; [exact Hvphi|].
    eapply Forall2_impl; [exact Hshape|]. intros r slab [Hlen _]. exact Hlen.
Defined.

(** * The basis functions on the interval are the Lagrange polynomials *)

Section lagrange_polynomials.

Lemma horner_zip_plus (u w : vector) x :
  length u = length w →
  horner (zip_with Qcplus u w) x = horner u x + horner w x.
Proof.
  revert w. induction u as [|a u IH]; intros [|b w] Hlen; try done.
  cbn [zip_with]. rewrite !horner_cons, IH by (by injection Hlen). ring.
Qed.

Lemma horner_scale (b : Qc) (cs : vector) x :
  horner ((fun c => b * c) <$> cs) x = b * horner cs x.
Proof.
  induction cs as [|c cs IH].
  { rewrite fmap_nil. change (horner [] x) with 0. ring. }
  rewrite fmap_cons, !horner_cons, IH. ring.
Qed.

Lemma horner_times_linear (a : Qc) (cs : vector) x :
  horner (times_linear a cs) x = (x - a) * horner cs x.
Proof.
  unfold times_linear.
  rewrite horner_zip_plus by (rewrite length_app, length_fmap; cbn [length]; lia).
  rewrite horner_app, horner_scale, !horner_cons.
  change (horner [] x) with 0. ring.
Qed.

Lemma length_times_linear (a : Qc) (cs : vector) :
  length (times_linear a cs) = S (length cs).
Proof.
  unfold times_linear.
  rewrite length_zip_with, length_app, length_fmap. cbn [length]. lia.
Qed.

Lemma horner_linear_factors (ys : vector) x :
  horner (linear_factors ys) x = foldr (fun y acc => (x - y) * acc) 1 ys.
Proof.
  induction ys as [|y ys IH].
  { cbn [linear_factors foldr]. rewrite horner_cons.
    change (horner [] x) with 0. ring. }
  cbn [linear_factors foldr]. fold (linear_factors ys).
  by rewrite horner_times_linear, IH.
Qed.

Lemma length_linear_factors (ys : vector) :
  length (linear_factors ys) = S (length ys).
Proof.
  induction ys as [|y ys IH]; [done|].
  cbn [linear_factors foldr]. fold (linear_factors ys).
  by rewrite length_times_linear, IH.
Qed.

Lemma product_vanishes (ys : vector) (a : Qc) :
  a ∈ ys → foldr (fun y acc => (a - y) * acc) 1 ys = 0.
Proof.
  induction ys as [|y ys IH]; [by intros ?%elem_of_nil|].
  intros [->|Ha]%elem_of_cons; cbn [foldr]; [ring|].
  rewrite IH by done. ring.
Qed.

Lemma product_nonzero (ys : vector) (a : Qc) :
  a ∉ ys → foldr (fun y acc => (a - y) * acc) 1 ys ≠ 0.
Proof.
  induction ys as [|y ys IH]; [done|].
  intros [Hy Hys]%not_elem_of_cons. cbn [foldr].
  intros [Hzero|Hzero]%Qcmult_integral; [|by apply IH].
  apply Hy. rewrite <- (Qcplus_0_r y), <- Hzero. ring.
Qed.

Lemma horner_all_zero (cs : vector) x :
  Forall (fun c => c = 0) cs → horner cs x = 0.
Proof.
  induction 1 as [|c cs -> _ IH]; [done|]. rewrite horner_cons, IH. ring.
Qed.

Lemma horner_combination (D : Qc) (u w : vector) x :
  length u = length w →
  horner (zip_with (fun a b => D * a - b) u w) x = D * horner u x - horner w x.
Proof.
  revert w. induction u as [|a u IH]; intros [|b w] Hlen; try done.
  - cbn [zip_with]. change (horner [] x) with 0. ring.
  - cbn [zip_with]. rewrite !horner_cons, IH by (by injection Hlen). ring.
Qed.

Lemma elem_of_delete_other (xs : vector) (k m : nat) (x : Qc) :
  m ≠ k → xs !! m = Some x → x ∈ delete k xs.
Proof.
  intros Hmk Hm. apply list_elem_of_lookup.
  destruct (decide (m < k)%nat) as [Hlt|Hge].
  - exists m. by rewrite list_lookup_delete_lt.
  - exists (pred m). rewrite list_lookup_delete_ge by lia.
    by replace (S (pred m)) with m by lia.
Qed.

Lemma not_elem_of_delete_self (xs : vector) (k : nat) (x : Qc) :
  NoDup xs → xs !! k = Some x → x ∉ delete k xs.
Proof.
  intros Hnd Hk [i Hi]%list_elem_of_lookup.
  destruct (decide (i < k)%nat) as [Hlt|Hge].
  - rewrite list_lookup_delete_lt in Hi by done.
    pose proof (proj1 (NoDup_alt _) Hnd i k x Hi Hk). lia.
  - rewrite list_lookup_delete_ge in Hi by lia.
    pose proof (proj1 (NoDup_alt _) Hnd (S i) k x Hi Hk). lia.
Qed.

End lagrange_polynomials.

(** X26.  On the interval the basis functions are the Lagrange
    polynomials of the nodes.  For a constructed element on a cell of
    dimension 1 with the nodes [x_0, ..., x_n], the value tabulation at
    a point [x] holds, for the node [k], the product of [x - x_m] over
    the other nodes [m], divided by the product of [x_k - x_m]. *)
Theorem interval_basis_lagrange cell degree nodes entity_nodes el
    (x : Qc) (k : nat) :
  dim cell = 1%nat →
  FiniteElement.__init__ cell degree nodes entity_nodes = Ok el →
  (k < length nodes)%nat →
  ∃ phi, FiniteElement.tabulate el [[x]] false = Ok [phi]
         ∧ nth k phi 0
           = lagrange_numerator (xcoord <$> nodes) k x
             / lagrange_numerator (xcoord <$> nodes) k
                 (nth k (xcoord <$> nodes) 0).
Proof.
  intros Hdim Hel Hk.
  assert (dim cell = 1 ∨ dim cell = 2)%nat as Hdim' by (by left).
  pose proof (constructed_degree _ _ _ _ _ Hel) as Hdeg.
  pose proof (interval_nodes_distinct _ _ _ _ _ Hdim Hel) as Hdistinct.
  pose proof (ncols_coefs _ _ Hdim' Hdeg _ _ _ Hel) as Hcols.
  destruct (constructed_element _ _ Hdim' Hdeg _ _ _ Hel)
    as (_ & _ & _ & _ & _ & _ & Hb & HlenC & HC & Hr & _).
  set (C := FiniteElement.basis_coefs el) in *.
  set (xs := xcoord <$> nodes) in *.
  set (n := Z.to_nat degree) in *.
  assert (length nodes = S n) as HN.
  { rewrite <- Hb, Hdim. cbn [monomial_basis]. by rewrite length_fmap, length_seq. }
  assert (length (col k C) = S n) as Hcol
    by (unfold col; by rewrite length_fmap, HlenC).
  (* the basis function of the node [k] as a polynomial *)
  assert (∀ p : vector,
            nth k (vecmat ((fun e => eval_monomial e p)
                             <$> monomial_basis (dim cell) n) C) 0
            = horner (col k C) (xcoord p)) as Hpoly.
  { intros p. unfold vecmat. rewrite Hcols, nth_fmap_seq by done.
    rewrite Hdim, row_interval, <- Hcol, dot_powers. cbn [Qcpower]. ring. }
  destruct (lookup_lt_is_Some_2 xs k) as [xk Hxk];
    [unfold xs; by rewrite length_fmap|].
  rewrite (nth_lookup_Some _ _ _ _ Hxk).
  set (D := lagrange_numerator xs k xk).
  assert (D ≠ 0) as HD
    by (by apply product_nonzero, not_elem_of_delete_self).
  assert (length (linear_factors (delete k xs)) = S n) as Hnum.
  { rewrite length_linear_factors, length_delete by done.
    unfold xs. rewrite length_fmap, HN. lia. }
  set (d := zip_with (fun a b => D * a - b) (col k C)
              (linear_factors (delete k xs))).
  assert (Forall (fun c => c = 0) d) as Hd.
  { apply (roots_bound xs Hdistinct).
    { unfold d, xs. rewrite length_zip_with, length_fmap. lia. }
    apply Forall_lookup. intros m xm Hm. cbv beta. unfold d.
    rewrite horner_combination, horner_linear_factors by lia.
    unfold xs in Hm. rewrite list_lookup_fmap in Hm.
    destruct (nodes !! m) as [p|] eqn:Hp; [|done]. injection Hm as <-.
    rewrite <- Hpoly.
    assert (vecmat ((fun e => eval_monomial e p)
                      <$> monomial_basis (dim cell) n) C
            = (fun j => if decide (m = j) then 1 else 0)
                <$> seq 0 (length nodes)) as ->.
    { apply (f_equal (fun M => M !! m)) in Hr. unfold matmul, identity in Hr.
      rewrite !list_lookup_fmap, Hp, lookup_seq_lt in Hr
        by (by eapply lookup_lt_Some).
      by injection Hr. }
    rewrite nth_fmap_seq by done.
    destruct (decide (m = k)) as [->|Hmk].
    - assert (xcoord p = xk) as ->.
      { unfold xs in Hxk. rewrite list_lookup_fmap, Hp in Hxk. by injection Hxk. }
      fold (lagrange_numerator xs k xk). fold D. ring.
    - rewrite product_vanishes; [ring|].
      apply (elem_of_delete_other xs k m); [done|].
      unfold xs. by rewrite list_lookup_fmap, Hp. }
  eexists. split.
  { rewrite (tabulate_values_matmul _ _ Hdim' Hdeg _ _ _ Hel [[x]])
      by (by repeat constructor).
    reflexivity. }
  cbv beta. fold n C. rewrite Hpoly. change (xcoord [x]) with x.
  pose proof (horner_all_zero d x Hd) as Hzero. unfold d in Hzero.
  rewrite horner_combination, horner_linear_factors in Hzero by lia.
  fold (lagrange_numerator xs k x) in Hzero.
  assert (lagrange_numerator xs k x = D * horner (col k C) x) as ->.
  { rewrite <- (Qcplus_0_l (lagrange_numerator xs k x)), <- Hzero. ring. }
  unfold Qcdiv. rewrite (Qcmult_comm D), <- Qcmult_assoc, Qcmult_inv_r by done.
  ring.
Qed.

Lemma interval_basis_lagrange_witness :
  ∃ el phi,
    FiniteElement.__init__ ReferenceInterval 2 interval_P2_nodes None = Ok el
    ∧ FiniteElement.tabulate el [[Qc_of_Z 3]] false = Ok [phi]
    ∧ nth 1 phi 0
      = lagrange_numerator [0; Qc_of_Z 1 / Qc_of_Z 2; 1] 1 (Qc_of_Z 3)
        / lagrange_numerator [0; Qc_of_Z 1 / Qc_of_Z 2; 1] 1
            (Qc_of_Z 1 / Qc_of_Z 2).
Proof.
  destruct (is_ok_inv
              (FiniteElement.__init__ ReferenceInterval 2 interval_P2_nodes None))
    as [el Hel]; [vm_compute; reflexivity|].
  destruct (interval_basis_lagrange ReferenceInterval 2 interval_P2_nodes None
              el (Qc_of_Z 3) 1 eq_refl Hel) as (phi & Hphi & Hval);
    [cbn; lia|].
  exists el, phi. split; [exact Hel|]. split; [exact Hphi|exact Hval].
Defined.
